(** * Vocabularies and variable-length collation: a shallow embedding

    The development follows the Python sources
    [src/trainer/collate.py] (class [VarLengthCollate]) and
    [src/vocabulary.py] (classes [WordVocabulary] and [CharVocabulary]).

    Python exceptions (IndexError, KeyError, AssertionError, the
    RuntimeError of a torch call) are modelled by [None] in the option
    monad; a Python dict is a [gmap], a Python set a [gset]. *)

From stdpp Require Import gmap strings list fin_maps sorting pretty.
From Stdlib Require Import ZArith Lia.

Local Open Scope Z_scope.
Local Open Scope nat_scope.

(** ** Python helpers *)

(** A left fold whose body may raise. *)
Fixpoint foldM {A B : Type} (f : B → A → option B) (b : B) (l : list A) : option B :=
  match l with
  | [] => Some b
  | x :: l' => b' ← f b x; foldM f b' l'
  end.

(** The position a slice bound [k] denotes in a list of length [n]:
    negative bounds count from the end and are clipped at 0 (clipping at
    [n] is left to [take] and [drop]). *)
Definition slice_bound (n : nat) (k : Z) : nat :=
  if (k <? 0)%Z then Z.to_nat (Z.of_nat n + k) else Z.to_nat k.

(** [l[:k]] and [l[k:]]; [None] is Python's [None] bound. *)
Definition py_slice_to {A : Type} (l : list A) (k : option Z) : list A :=
  match k with
  | None => l
  | Some k => take (slice_bound (length l) k) l
  end.

Definition py_slice_from {A : Type} (l : list A) (k : option Z) : list A :=
  match k with
  | None => l
  | Some k => drop (slice_bound (length l) k) l
  end.

(** ** A model of the torch operations used by the collator *)

(** [reduce(mul, s, 1)] *)
Definition numel (s : list nat) : nat := foldr Nat.mul 1 s.

(** Row-major strides of a freshly allocated tensor of shape [s]. *)
Fixpoint contiguous_strides (s : list nat) : list nat :=
  match s with
  | [] => []
  | _ :: s' => numel s' :: contiguous_strides s'
  end.

(** Storage offset of a multi-index under given strides. *)
Definition dot (idx strides : list nat) : nat := sum_list (zip_with Nat.mul idx strides).

(** All multi-indices of a shape, in row-major order. *)
Fixpoint indices (sizes : list nat) : list (list nat) :=
  match sizes with
  | [] => [[]]
  | n :: rest => i ← seq 0 n; (λ r, i :: r) <$> indices rest
  end.

(** torch's dimension wrapping: [dim] must lie in [-ndim, ndim-1]. *)
Definition wrap_dim (ndim : nat) (dim : Z) : option nat :=
  let n := Z.of_nat ndim in
  if bool_decide (- n ≤ dim ∧ dim < n)%Z
  then Some (Z.to_nat (if (dim <? 0)%Z then dim + n else dim)%Z)
  else None.

(** A view into a storage: offset, sizes and strides.  Views made by
    [narrow] and [squeeze] alias the storage they were taken from. *)
Record view := View { v_offset : nat; v_sizes : list nat; v_strides : list nat }.

(** [v.narrow(dim, start, length)]; it raises on a 0-dim tensor, on a
    dimension out of range and when [start + length] exceeds the size. *)
Definition narrow (v : view) (dim : Z) (start len : nat) : option view :=
  d ← wrap_dim (length (v_sizes v)) dim;
  cur ← v_sizes v !! d;
  st ← v_strides v !! d;
  if bool_decide (start + len ≤ cur)
  then Some (View (v_offset v + start * st) (<[d := len]> (v_sizes v)) (v_strides v))
  else None.

(** [v.squeeze(dim)]: drops dimension [dim] when its size is 1. *)
Definition squeeze (v : view) (dim : Z) : option view :=
  match v_sizes v with
  | [] => if bool_decide (-1 ≤ dim ∧ dim ≤ 0)%Z then Some v else None
  | _ =>
      d ← wrap_dim (length (v_sizes v)) dim;
      if bool_decide (v_sizes v !! d = Some 1)
      then Some (View (v_offset v) (delete d (v_sizes v)) (delete d (v_strides v)))
      else Some v
  end.

(** Broadcasting of [copy_]: the source shape, right-aligned with the
    destination shape, must agree with it or be 1 in every dimension. *)
Definition broadcastable (src dst : list nat) : bool :=
  bool_decide (length src ≤ length dst) &&
  forallb (λ p, (p.1 =? p.2) || (p.1 =? 1)) (zip src (drop (length dst - length src) dst)).

Definition broadcast_index (src_shape idx : list nat) : list nat :=
  zip_with (λ s i, if s =? 1 then 0 else i) src_shape (drop (length idx - length src_shape) idx).

Section Collate.
(** The element type of the tensors, and the value the number 0 takes in it. *)
Context {V : Type}.
Variable zero : V.

(** An element of the batch: its shape and its data in row-major order. *)
Record tensor := Tensor { t_shape : list nat; t_data : list V }.

Definition tensor_wf (t : tensor) : Prop := length (t_data t) = numel (t_shape t).

(** [t.size(j)] *)
Definition tensor_size (t : tensor) (j : Z) : option nat :=
  d ← wrap_dim (length (t_shape t)) j; t_shape t !! d.

(** The value of [t] at a multi-index. *)
Definition tensor_get (t : tensor) (idx : list nat) : option V :=
  t_data t !! dot idx (contiguous_strides (t_shape t)).

(** [dst.copy_(src)] where [dst] is a view into [storage]. *)
Definition copy_ (storage : list V) (dst : view) (src : tensor) : option (list V) :=
  if broadcastable (t_shape src) (v_sizes dst)
  then foldM (λ st idx,
                x ← tensor_get src (broadcast_index (t_shape src) idx);
                Some (<[v_offset dst + dot idx (v_strides dst) := x]> st))
             storage (indices (v_sizes dst))
  else None.

(** One round of the loop of [_measure_array_max_dim]. *)
Definition measure_step (acc : list nat * list bool) (ns : list nat)
    : option (list nat * list bool) :=
  let '(s, different) := acc in
  different' ← mapM (λ j, dj ← different !! j; sj ← s !! j; nj ← ns !! j;
                          Some (dj || negb (sj =? nj))) (seq 0 (length s));
  s' ← mapM (λ j, sj ← s !! j; nj ← ns !! j; Some (sj `max` nj)) (seq 0 (length s));
  Some (s', different').

Definition _measure_array_max_dim (batch : list tensor) : option (list nat * list bool) :=
  match batch with
  | [] => None
  | b0 :: rest =>
      foldM (λ acc b, measure_step acc (t_shape b))
            (t_shape b0, replicate (length (t_shape b0)) false) rest
  end.

(** The dimension along which the slice of an element is taken. *)
Definition slice_dim (batch_dim : Z) (out : view) : Z :=
  if (Z.of_nat (length (v_sizes out)) >? batch_dim)%Z then batch_dim else 0%Z.

(** The narrowing loop over the dimensions that differ. *)
Definition narrow_different (different : list bool) (d : tensor) (this_o : view) : option view :=
  foldM (λ v j,
           match different !! j with
           | Some true => n ← tensor_size d (Z.of_nat j); narrow v (Z.of_nat j) 0 n
           | _ => Some v
           end)
        this_o (seq 0 (length different)).

(** The body of the loop of [_merge_var_len_array]. *)
Definition merge_element (batch_dim : Z) (different : list bool) (out : view)
    (storage : list V) (i : nat) (d : tensor) : option (list V) :=
  let bdim := slice_dim batch_dim out in
  this_o ← narrow out bdim i 1;
  this_o ← squeeze this_o bdim;
  this_o ← narrow_different different d this_o;
  copy_ storage this_o d.

Definition merge_loop (batch_dim : Z) (different : list bool) (out : view)
    (storage : list V) (items : list (nat * tensor)) : option (list V) :=
  foldM (λ st p, merge_element batch_dim different out st p.1 p.2) storage items.

Definition out_shape (batch_dim : Z) (max_size : list nat) (n : nat) : list nat :=
  py_slice_to max_size (Some batch_dim) ++ [n] ++ py_slice_from max_size (Some batch_dim).

Definition _merge_var_len_array (batch_dim : Z) (ignore_symbol : option V)
    (batch : list tensor) : option tensor :=
  '(max_size, different) ← _measure_array_max_dim batch;
  let s := out_shape batch_dim max_size (length batch) in
  let storage := replicate (numel s) (default zero ignore_symbol) in
  let out := View 0 s (contiguous_strides s) in
  storage' ← merge_loop batch_dim different out storage (zip (seq 0 (length batch)) batch);
  Some (Tensor s storage').

End Collate.

Arguments tensor : clear implicits.
Arguments Tensor {V} _ _.

(** ** Python values, keys and orders *)

(** The argument of the dual-mode entry point of a vocabulary: [None],
    a string, or a list of items. *)
Inductive pyitem :=
  | INone
  | IStr (s : string)
  | IInt (i : Z).

Inductive pyseq :=
  | SeqNone
  | SeqStr (s : string)
  | SeqList (l : list pyitem).

(** Keys of the character tables: a character (a [str]) or, in the byte
    variant and after [__add__], an [int]. *)
Inductive pykey :=
  | KStr (s : string)
  | KInt (i : Z).

Global Instance pykey_eq_dec : EqDecision pykey.
Proof. solve_decision. Defined.

Global Instance pykey_countable : Countable pykey.
Proof.
  refine (inj_countable' (λ k, match k with KStr s => inl s | KInt i => inr i end)
                         (λ x, match x with inl s => KStr s | inr i => KInt i end) _).
  by intros [].
Defined.

(** [dict(l)] for a list of pairs: a later pair overrides an earlier one. *)
Definition py_dict {K V : Type} `{Countable K} (l : list (K * V)) : gmap K V :=
  foldl (λ m p, <[p.1 := p.2]> m) ∅ l.

(** [enumerate(l)] with the index as a Python int. *)
Definition enumerate {A : Type} (l : list A) : list (Z * A) :=
  zip (Z.of_nat <$> seq 0 (length l)) l.

(** The order of [str]: lexicographic on character codes. *)
Definition str_le (a b : string) : Prop := Is_true (String.leb a b).

Global Instance str_le_dec : RelDecision str_le.
Proof. intros a b. unfold str_le. apply _. Defined.

(** [sorted] on a set of strings. *)
Definition sorted_strings (ws : gset string) : list string := merge_sort str_le (elements ws).

(** The order used on keys of one kind; comparing a [str] with an [int]
    raises in Python, so [sorted_keys] rejects mixed sets before sorting
    and the clause ordering the two kinds is never exercised. *)
Definition key_le (a b : pykey) : Prop :=
  match a, b with
  | KStr x, KStr y => str_le x y
  | KInt x, KInt y => (x ≤ y)%Z
  | KStr _, KInt _ => True
  | KInt _, KStr _ => False
  end.

Global Instance key_le_dec : RelDecision key_le.
Proof. intros [x|x] [y|y]; simpl; apply _. Defined.

Definition is_KStr (k : pykey) : bool := match k with KStr _ => true | KInt _ => false end.

(** [sorted] on a set of keys; [None] is the TypeError of a mixed set. *)
Definition sorted_keys (chars : gset pykey) : option (list pykey) :=
  let l := elements chars in
  if forallb is_KStr l || forallb (λ k, negb (is_KStr k)) l
  then Some (merge_sort key_le l)
  else None.

(** [sentence.split(" ")] followed by the filter on non-empty pieces. *)
Fixpoint split_space_go (cur : string) (s : string) : list string :=
  match s with
  | EmptyString => [String.rev cur]
  | String c s' =>
      if Ascii.eqb c Ascii.Space
      then String.rev cur :: split_space_go EmptyString s'
      else split_space_go (String c cur) s'
  end.

Definition split_space (s : string) : list string :=
  filter (λ x, x ≠ EmptyString) (split_space_go EmptyString s).

(** ** WordVocabulary *)

(** A sentence is a raw string or an already tokenized list. *)
Inductive sentence :=
  | SRaw (s : string)
  | STokens (l : list string).

(** The attributes of a [WordVocabulary].  [_unk_index] does not exist
    before [finalize] or [load_state_dict]: the outer [None] stands for
    the missing attribute, the inner one for Python's [None]. *)
Record WordVocabulary := mkWordVocabulary {
  words : gmap string Z;
  inv_words : gmap Z string;
  _unk_index : option (option Z);
  allow_any_word : bool;
  initialized : bool;
  split_punctuation : bool
}.

Definition _add_word (w : string) (v : WordVocabulary) : WordVocabulary :=
  let next_id := Z.of_nat (size (words v)) in
  mkWordVocabulary (<[w := next_id]> (words v)) (<[next_id := w]> (inv_words v))
    (_unk_index v) (allow_any_word v) (initialized v) (split_punctuation v).

Definition _add_list (l : list string) (v : WordVocabulary) : WordVocabulary :=
  foldl (λ v w, _add_word w v) v l.

Definition _add_set (ws : gset string) (v : WordVocabulary) : WordVocabulary :=
  _add_list (sorted_strings ws) v.

(** [None] is the failed assertion. *)
Definition finalize (v : WordVocabulary) : option WordVocabulary :=
  let unk := match words v !! "<UNK>" with
             | Some i => Some i
             | None => words v !! "<unk>"
             end in
  if allow_any_word v && negb (bool_decide (is_Some unk)) then None
  else Some (mkWordVocabulary (words v) (inv_words v) (Some unk)
               (allow_any_word v) true (split_punctuation v)).

(** The part of [_process_word] after the key has been looked up. *)
Definition process_lookup (v : WordVocabulary) (found : option Z) : option (option Z) :=
  unk ← _unk_index v;
  let res := match found with Some i => Some i | None => unk end in
  if bool_decide (res ≠ unk) || allow_any_word v then Some res else None.

Definition _process_word (v : WordVocabulary) (w : string) : option (option Z) :=
  process_lookup v (words v !! w).

Definition invalid_index (shown : string) : string := "<!INV: " +:+ shown +:+ "!>".

Definition _process_index (v : WordVocabulary) (i : Z) : string :=
  match inv_words v !! i with
  | Some w => w
  | None => invalid_index (pretty i)
  end.

Section WordVocabulary.
(** [re.findall(r"\w+|[^\w\s]", sentence, re.UNICODE)]: the regular
    expression engine is outside the repository and is a parameter. *)
Variable findall_words : string → list string.

Definition split_sentence (v : WordVocabulary) (s : sentence) : list string :=
  match s with
  | STokens l => l
  | SRaw str => if split_punctuation v then findall_words str else split_space str
  end.

Definition sentence_to_indices (v : WordVocabulary) (s : sentence)
    : option (list (option Z)) :=
  if initialized v then mapM (_process_word v) (split_sentence v s) else None.

Definition indices_to_sentence (v : WordVocabulary) (indices : list Z)
    : option (list string) :=
  if initialized v then Some (_process_index v <$> indices) else None.

(** [WordVocabulary(list_of_sentences, allow_any_word, split_punctuation)] *)
Definition WordVocabulary_init (list_of_sentences : option (list sentence))
    (allow split : bool) : option WordVocabulary :=
  let v := _add_word "<pad>" (mkWordVocabulary ∅ ∅ None allow false split) in
  match list_of_sentences with
  | None => Some v
  | Some ss =>
      let ws := foldl (λ acc s, acc ∪ list_to_set (split_sentence v s)) (∅ : gset string) ss in
      finalize (_add_set ws v)
  end.

(** [self + other] *)
Definition WordVocabulary_add (self other : WordVocabulary) : option WordVocabulary :=
  res ← WordVocabulary_init None (allow_any_word self && allow_any_word other)
          (split_punctuation self);
  finalize (_add_set (dom (words self) ∪ dom (words other)) res).

(** [_process_word] and [_process_index] on an arbitrary list item:
    a non-string is never a key of [words] and a non-integer never a
    key of [inv_words]. *)
Definition index_item (r : option Z) : pyitem :=
  match r with Some i => IInt i | None => INone end.

Definition process_word_item (v : WordVocabulary) (x : pyitem) : option pyitem :=
  index_item <$> match x with
                 | IStr w => _process_word v w
                 | _ => process_lookup v None
                 end.

Definition process_index_item (v : WordVocabulary) (x : pyitem) : pyitem :=
  match x with
  | IInt i => IStr (_process_index v i)
  | IStr s => IStr (invalid_index s)
  | INone => IStr (invalid_index "None")
  end.

(** [self(seq)] *)
Definition WordVocabulary_call (v : WordVocabulary) (seq : pyseq) : option pyseq :=
  match seq with
  | SeqNone => Some SeqNone
  | SeqList [] => Some (SeqList [])
  | SeqStr s => (λ r, SeqList (index_item <$> r)) <$> sentence_to_indices v (SRaw s)
  | SeqList (IStr w :: l) =>
      if initialized v then SeqList <$> mapM (process_word_item v) (IStr w :: l) else None
  | SeqList (x :: l) =>
      if initialized v then Some (SeqList (process_index_item v <$> x :: l)) else None
  end.
End WordVocabulary.

(** [len(v)] *)
Definition WordVocabulary_len (v : WordVocabulary) : nat := size (words v).

(** ** CharVocabulary *)

(** [to_index] and [from_index] exist only once [from_set] has run;
    reading them while [cv_initialized] is false is an AttributeError.
    Characters are keys [KStr c] with [c] a one-character string. *)
Record CharVocabulary := mkCharVocabulary {
  cv_initialized : bool;
  ignore_char : option pykey;
  ignore_char_idx : option Z;
  to_index : gmap pykey Z;
  from_index : gmap Z pykey
}.

Definition from_set (v : CharVocabulary) (chars : gset pykey) : option CharVocabulary :=
  l ← match ignore_char v with
      | Some ig =>
          chars_noig ← sorted_keys (chars ∖ {[ig]});
          Some (py_slice_to chars_noig (ignore_char_idx v) ++ [ig]
                ++ py_slice_from chars_noig (ignore_char_idx v))
      | None => sorted_keys chars
      end;
  Some (mkCharVocabulary true (ignore_char v) (ignore_char_idx v)
          (py_dict ((λ p, (p.2, p.1)) <$> enumerate l)) (py_dict (enumerate l))).

(** [CharVocabulary(chars, ignore_char, ignore_char_idx)] *)
Definition CharVocabulary_init (chars : option (gset pykey)) (ig : option pykey)
    (ig_idx : option Z) : option CharVocabulary :=
  let v := mkCharVocabulary false ig ig_idx ∅ ∅ in
  match chars with
  | Some cs => from_set v cs
  | None => Some v
  end.

Definition CharVocabulary_len (v : CharVocabulary) : option nat :=
  if cv_initialized v then Some (size (to_index v)) else None.

(** The snapshot is a dict with the single entry ["chars"]. *)
Definition CharVocabulary_state_dict (v : CharVocabulary) : option (gmap string (gset pykey)) :=
  if cv_initialized v then Some {[ "chars" := dom (to_index v) ]} else None.

Definition CharVocabulary_load_state_dict (v : CharVocabulary)
    (state : gmap string (gset pykey)) : option CharVocabulary :=
  chars ← state !! "chars"; from_set v chars.

(** The characters of a string, each as a one-character string. *)
Definition chars_of (data : string) : list string :=
  (λ c, String c EmptyString) <$> String.list_ascii_of_string data.

(** [[self.to_index[c] for c in data]]: the table is read once per
    character, so an empty string is encoded even before [from_set]. *)
Definition str_to_ind (v : CharVocabulary) (data : string) : option (list Z) :=
  mapM (λ c, if cv_initialized v then to_index v !! KStr c else None) (chars_of data).

(** ["".join([self.from_index[i] for i in data])]; [join] raises on an
    item that is not a [str]. *)
Definition ind_to_str (v : CharVocabulary) (data : list Z) : option string :=
  l ← mapM (λ i, if cv_initialized v
                 then k ← from_index v !! i;
                      match k with KStr s => Some s | KInt _ => None end
                 else None) data;
  Some (foldr String.append EmptyString l).

(** [self + other]: the new instance is built from the *values* of the
    two [to_index] tables, with the default [ignore_char]. *)
Definition CharVocabulary_add (self other : CharVocabulary) : option CharVocabulary :=
  if cv_initialized self && cv_initialized other
  then CharVocabulary_init
         (Some (list_to_set (KInt <$> (map_to_list (to_index self)).*2)
                ∪ list_to_set (KInt <$> (map_to_list (to_index other)).*2)))
         None (Some 0%Z)
  else None.
(** ** Notions used to state the properties of the collator *)

(** The output index of cell [idx] of the element with batch index [i],
    when the batch dimension sits at position [bd]. *)
Definition batch_index (bd i : nat) (idx : list nat) : list nat :=
  take bd idx ++ i :: drop bd idx.

(** The two list comprehensions of one round of [_measure_array_max_dim]. *)
Definition max_shapes (s ns : list nat) : list nat := zip_with Nat.max s ns.

Definition mark_different (different : list bool) (s ns : list nat) : list bool :=
  zip_with orb different (zip_with (λ a b, negb (a =? b)) s ns).

(** [shape] fits under [max_size], and agrees with it wherever no
    difference was recorded. *)
Definition covered (max_size : list nat) (different : list bool) (shape : list nat) : Prop :=
  length shape = length max_size ∧
  ∀ j x m, shape !! j = Some x → max_size !! j = Some m →
    x ≤ m ∧ (different !! j = Some false → x = m).

(** Slicing [out] at batch index [i] along dimension [bd] and truncating
    the slice to [extent]: the tensor of shape [extent] read back. *)
Definition recover {V : Type} (out : tensor V) (bd i : nat) (extent : list nat)
    : option (tensor V) :=
  data ← mapM (λ idx, tensor_get out (batch_index bd i idx)) (indices extent);
  Some (Tensor extent data).

(** The cell [oidx] of the output lies in the data of the element it
    belongs to. *)
Definition in_extent {V : Type} (bd : nat) (oidx : list nat) (d : tensor V) : Prop :=
  Forall2 lt (delete bd oidx) (t_shape d).

(** The sizes of the slice of an element after the narrowing loop, run
    on a slice of sizes [sizes]: the element's own size in the dimensions
    marked different, the size of the slice elsewhere. *)
Definition narrowed (different : list bool) (shape sizes : list nat) : list nat :=
  imap (λ j m, match different !! j, shape !! j with
               | Some true, Some x => x
               | _, _ => m
               end) sizes.

(** ** Notions used to state the properties of the vocabularies *)

(** The two tables of a [WordVocabulary] agree: every word decodes back
    from its index, and every index is below the next one to be issued. *)
Definition consistent (v : WordVocabulary) : Prop :=
  ∀ w i, words v !! w = Some i →
    inv_words v !! i = Some w ∧ (0 ≤ i < Z.of_nat (size (words v)))%Z.

(** An instance of the regular expression parameter of [split_sentence]
    for plain ASCII text, used in the examples: [\w+] matches a maximal
    run of letters, digits and underscores, [[^\w\s]] any other single
    character that is not white space. *)
Definition ascii_is_word (c : Ascii.ascii) : bool :=
  let n := Ascii.nat_of_ascii c in
  ((48 <=? n) && (n <=? 57)) || ((65 <=? n) && (n <=? 90)) ||
  ((97 <=? n) && (n <=? 122)) || (n =? 95).

Definition ascii_is_space (c : Ascii.ascii) : bool :=
  let n := Ascii.nat_of_ascii c in
  ((9 <=? n) && (n <=? 13)) || ((28 <=? n) && (n <=? 32)).

Fixpoint ascii_findall_go (cur : string) (s : string) : list string :=
  let flush := match cur with EmptyString => [] | _ => [String.rev cur] end in
  match s with
  | EmptyString => flush
  | String c s' =>
      if ascii_is_word c then ascii_findall_go (String c cur) s'
      else if ascii_is_space c then flush ++ ascii_findall_go EmptyString s'
      else flush ++ String c EmptyString :: ascii_findall_go EmptyString s'
  end.

Definition ascii_findall (s : string) : list string := ascii_findall_go EmptyString s.

(** Settles a closed decidable proposition by evaluating its decision. *)
Ltac decide_by_compute := apply (bool_decide_unpack _); vm_compute; exact I.

(** ** Further notions for the collator *)

(** Every entry of [max_size] is the size of some shape, and a recorded
    difference comes with a shape that is strictly smaller there. *)
Definition attained (max_size : list nat) (different : list bool)
    (shapes : list (list nat)) : Prop :=
  ∀ j m, max_size !! j = Some m →
    (∃ sh, sh ∈ shapes ∧ sh !! j = Some m) ∧
    (different !! j = Some true → ∃ sh x, sh ∈ shapes ∧ sh !! j = Some x ∧ x < m).

(** ** The remaining operations of the vocabularies *)

(** [v[item]]: an [int] is decoded, anything else encoded. *)
Definition WordVocabulary_getitem (v : WordVocabulary) (item : pyitem) : option pyitem :=
  match item with
  | IInt _ => Some (process_index_item v item)
  | _ => process_word_item v item
  end.

(** The snapshot of a word vocabulary: the attributes named in [to_save]. *)
Record WordState := mkWordState {
  st_words : gmap string Z;
  st_inv_words : gmap Z string;
  st_unk_index : option Z;
  st_allow_any_word : bool;
  st_split_punctuation : bool
}.

(** [state_dict]: reading [_unk_index] before [finalize] is a KeyError. *)
Definition WordVocabulary_state_dict (v : WordVocabulary) : option WordState :=
  unk ← _unk_index v;
  Some (mkWordState (words v) (inv_words v) unk (allow_any_word v) (split_punctuation v)).

(** [load_state_dict]: sets [initialized], then overwrites the saved attributes. *)
Definition WordVocabulary_load_state_dict (v : WordVocabulary) (state : WordState)
    : WordVocabulary :=
  mkWordVocabulary (st_words state) (st_inv_words state) (Some (st_unk_index state))
    (st_allow_any_word state) true (st_split_punctuation state).

(** [self.mapfrom(other)].  A [gmap] does not record the order in which
    a Python dict yields its items, so [self.words.items()] is passed as
    the list [items]; a later item overrides an earlier one with the same
    key. *)
Definition mapfrom (items : list (string * Z)) (other : WordVocabulary) : gmap Z Z :=
  py_dict (omap (λ p, j ← words other !! p.1; Some (j, p.2)) items).

(** The set of words [__init__] collects from a corpus. *)
Definition corpus_words (findall_words : string → list string) (v : WordVocabulary)
    (corpus : list sentence) : gset string :=
  foldl (λ acc s, acc ∪ list_to_set (split_sentence findall_words v s)) ∅ corpus.

(** [CharVocabulary.__call__]: the initialization is asserted first;
    an index list is decoded item by item, and an item that is not an
    [int] is no key of [from_index]. *)
Definition CharVocabulary_call (v : CharVocabulary) (seq : pyseq) : option pyseq :=
  if cv_initialized v then
    match seq with
    | SeqNone => Some SeqNone
    | SeqList [] => Some (SeqList [])
    | SeqStr s => (λ l, SeqList (IInt <$> l)) <$> str_to_ind v s
    | SeqList l =>
        data ← mapM (λ x, match x with IInt i => Some i | _ => None end) l;
        SeqStr <$> ind_to_str v data
    end
  else None.

(** [ByteVocabulary]: the characters are bytes, that is [int] keys; a
    [bytearray] is the list of its bytes.  [str_to_ind] is inherited. *)
Definition is_byte (b : Z) : bool := (0 <=? b)%Z && (b <? 256)%Z.

Definition byte_str_to_ind (v : CharVocabulary) (data : list Z) : option (list Z) :=
  mapM (λ b, if cv_initialized v then to_index v !! KInt b else None) data.

(** [bytearray([self.from_index[i] for i in data])]: [bytearray] raises
    on an item that is not an [int] in [range(256)]. *)
Definition byte_ind_to_str (v : CharVocabulary) (data : list Z) : option (list Z) :=
  mapM (λ i, if cv_initialized v
             then k ← from_index v !! i;
                  match k with
                  | KInt b => if is_byte b then Some b else None
                  | KStr _ => None
                  end
             else None) data.


(** * Properties of the collator *)

Lemma foldM_app {A B} (f : B → A → option B) b l1 l2 :
  foldM f b (l1 ++ l2) = b' ← foldM f b l1; foldM f b' l2.
Proof.
  revert b. induction l1 as [|x l1 IH]; intros b; simpl; [done|].
  destruct (f b x) as [b'|]; simpl; [apply IH | done].
Qed.

Lemma dot_cons a idx b st : dot (a :: idx) (b :: st) = a * b + dot idx st.
Proof. reflexivity. Qed.


Lemma dot_lt idx s : Forall2 lt idx s → dot idx (contiguous_strides s) < numel s.
Proof.
  induction 1 as [|a n idx s Han _ IH]; simpl; [unfold dot; simpl; lia|].
  rewrite dot_cons. fold (numel s). nia.
Qed.

Lemma dot_inj idx idx' s :
  Forall2 lt idx s → Forall2 lt idx' s →
  dot idx (contiguous_strides s) = dot idx' (contiguous_strides s) → idx = idx'.
Proof.
  intros H. revert idx'. induction H as [|a n idx s Han Hidx IH]; intros idx' H' Heq.
  - by inversion H'.
  - inversion H' as [|a' ? idx1 ? Han' Hidx1]; subst. simpl in Heq.
    rewrite !dot_cons in Heq.
    pose proof (dot_lt _ _ Hidx). pose proof (dot_lt _ _ Hidx1).
    assert (a = a') as -> by nia.
    f_equal. apply IH; [done|lia].
Qed.

Lemma elem_of_indices idx s : idx ∈ indices s ↔ Forall2 lt idx s.
Proof.
  revert idx. induction s as [|n s IH]; intros idx; simpl.
  - rewrite list_elem_of_singleton. split; [intros ->; constructor | by inversion 1].
  - rewrite list_elem_of_bind. split.
    + intros (i & Hin & Hi). apply list_elem_of_fmap in Hin as (r & -> & Hr).
      apply elem_of_seq in Hi. constructor; [lia | by apply IH].
    + inversion 1 as [|a ? r ? Ha Hr]; subst. exists a. split.
      * apply list_elem_of_fmap. exists r. split; [done | by apply IH].
      * apply elem_of_seq. lia.
Qed.

Lemma dot_batch_index bd i idx st x :
  bd ≤ length idx → st !! bd = Some x →
  dot (batch_index bd i idx) st = i * x + dot idx (delete bd st).
Proof.
  unfold batch_index. revert idx st. induction bd as [|bd IH]; intros idx st Hlen Hst.
  - destruct st as [|b st]; [done|]. simpl in Hst. injection Hst as ->.
    rewrite drop_0. simpl. by rewrite dot_cons.
  - destruct st as [|b st]; [done|]. destruct idx as [|a idx]; [simpl in Hlen; lia|].
    simpl in *. rewrite !dot_cons. rewrite IH; [lia | lia | done].
Qed.

Lemma mapM_seq_lookup {B} (f : nat → option B) (k : list B) :
  (∀ j, j < length k → f j = k !! j) → mapM f (seq 0 (length k)) = Some k.
Proof.
  intros Hf. apply mapM_Some_2, Forall2_same_length_lookup_2.
  - by rewrite length_seq.
  - intros i x y Hx Hy. apply lookup_seq in Hx as [-> Hi]. simpl. by rewrite Hf.
Qed.

Section CollateProofs.
Context {V : Type}.
Implicit Types (d : tensor V) (batch : list (tensor V)).

Lemma measure_step_Some s different ns :
  length different = length s → length ns = length s →
  measure_step (s, different) ns = Some (max_shapes s ns, mark_different different s ns).
Proof.
  intros Hd Hn. unfold measure_step.
  assert (Hl1 : length (mark_different different s ns) = length s).
  { unfold mark_different. rewrite !length_zip_with. lia. }
  assert (Hl2 : length (max_shapes s ns) = length s).
  { unfold max_shapes. rewrite length_zip_with. lia. }
  assert (H1 : mapM (λ j, dj ← different !! j; sj ← s !! j; nj ← ns !! j;
                          Some (dj || negb (sj =? nj))) (seq 0 (length s))
               = Some (mark_different different s ns)).
  { rewrite <- Hl1. apply mapM_seq_lookup. intros j Hj.
    unfold mark_different. rewrite !lookup_zip_with.
    destruct (lookup_lt_is_Some_2 different j) as [dj ->]; [lia|].
    destruct (lookup_lt_is_Some_2 s j) as [sj ->]; [lia|].
    destruct (lookup_lt_is_Some_2 ns j) as [nj ->]; [lia|]. done. }
  assert (H2 : mapM (λ j, sj ← s !! j; nj ← ns !! j; Some (sj `max` nj)) (seq 0 (length s))
               = Some (max_shapes s ns)).
  { rewrite <- Hl2. apply mapM_seq_lookup. intros j Hj.
    unfold max_shapes. rewrite lookup_zip_with.
    destruct (s !! j); simpl; [|done]. by destruct (ns !! j). }
  by rewrite H1, H2.
Qed.

Lemma covered_step max_size different ns shape :
  length different = length max_size → length ns = length max_size →
  covered max_size different shape →
  covered (max_shapes max_size ns) (mark_different different max_size ns) shape.
Proof.
  intros Hd Hn [Hlen Hc]. split.
  { unfold max_shapes. rewrite length_zip_with. lia. }
  intros j x m Hx Hm. unfold max_shapes, mark_different in *.
  rewrite lookup_zip_with in Hm. rewrite !lookup_zip_with.
  destruct (max_size !! j) as [sj|] eqn:Hs; simpl in *; [|done].
  destruct (ns !! j) as [nj|] eqn:Hnj; simpl in *; [|done].
  injection Hm as <-. destruct (Hc j x sj Hx Hs) as [Hle Heq]. split; [lia|].
  destruct (different !! j) as [dj|]; simpl; [|done].
  intros [= Hor]. apply orb_false_elim in Hor as [-> Hne].
  apply negb_false_iff, Nat.eqb_eq in Hne. specialize (Heq eq_refl). lia.
Qed.

Lemma covered_new max_size different ns :
  length different = length max_size → length ns = length max_size →
  covered (max_shapes max_size ns) (mark_different different max_size ns) ns.
Proof.
  intros Hd Hn. split.
  { unfold max_shapes. rewrite length_zip_with. lia. }
  intros j x m Hx Hm. unfold max_shapes, mark_different in *.
  rewrite lookup_zip_with in Hm. rewrite !lookup_zip_with. rewrite Hx in *.
  destruct (max_size !! j) as [sj|] eqn:Hs; simpl in *; [|done].
  injection Hm as <-. split; [lia|].
  destruct (different !! j) as [dj|]; simpl; [|done].
  intros [= Hor]. apply orb_false_elim in Hor as [-> Hne].
  apply negb_false_iff, Nat.eqb_eq in Hne. lia.
Qed.

Lemma measure_fold rest : ∀ s different seen,
  length different = length s →
  Forall (λ d, length (t_shape d) = length s) rest →
  Forall (covered s different) seen →
  ∃ max_size different',
    foldM (λ acc b, measure_step acc (t_shape b)) (s, different) rest
      = Some (max_size, different') ∧
    length max_size = length s ∧ length different' = length s ∧
    Forall (covered max_size different') (seen ++ (t_shape <$> rest)).
Proof.
  induction rest as [|b rest IH]; intros s different seen Hd Hr Hseen; cbn [foldM].
  - exists s, different. simpl. by rewrite app_nil_r.
  - inversion Hr as [|? ? Hb Hrest]; subst.
    rewrite measure_step_Some by done. cbn [mbind option_bind].
    assert (Hl1 : length (mark_different different s (t_shape b)) = length s).
    { unfold mark_different. rewrite !length_zip_with. lia. }
    assert (Hl2 : length (max_shapes s (t_shape b)) = length s).
    { unfold max_shapes. rewrite length_zip_with. lia. }
    destruct (IH (max_shapes s (t_shape b)) (mark_different different s (t_shape b))
                 (seen ++ [t_shape b])) as (M & D & HM & HlM & HlD & Hcov).
    + lia.
    + eapply Forall_impl; [exact Hrest|]. simpl. intros; lia.
    + apply Forall_app. split.
      * eapply Forall_impl; [exact Hseen|]. intros sh. by apply covered_step.
      * constructor; [|constructor]. by apply covered_new.
    + exists M, D. rewrite <- app_assoc in Hcov. simpl in Hcov.
      repeat split; [done | lia | lia | done].
Qed.

Lemma measure_array_max_dim_Some batch r :
  batch ≠ [] → Forall (λ d, length (t_shape d) = r) batch →
  ∃ max_size different,
    _measure_array_max_dim batch = Some (max_size, different) ∧
    length max_size = r ∧ length different = r ∧
    Forall (λ d, covered max_size different (t_shape d)) batch.
Proof.
  intros Hne Hr. destruct batch as [|b0 rest]; [done|]. clear Hne.
  inversion Hr as [|? ? Hb0 Hrest]; subst. simpl.
  destruct (measure_fold rest (t_shape b0) (replicate (length (t_shape b0)) false) [t_shape b0])
    as (M & D & HM & HlM & HlD & Hcov).
  - by rewrite length_replicate.
  - done.
  - constructor; [|constructor]. split; [done|]. intros j x m Hx Hm.
    rewrite Hx in Hm. injection Hm as <-. split; [lia|done].
  - exists M, D. repeat split; try done.
    change (Forall (covered M D) (t_shape <$> (b0 :: rest))) in Hcov.
    rewrite Forall_fmap in Hcov. exact Hcov.
Qed.
End CollateProofs.

Lemma wrap_dim_nat n j : j < n → wrap_dim n (Z.of_nat j) = Some j.
Proof.
  intros Hj. unfold wrap_dim. rewrite bool_decide_eq_true_2 by lia.
  destruct (Z.ltb_spec (Z.of_nat j) 0); [lia|]. by rewrite Nat2Z.id.
Qed.

Lemma slice_bound_nat n k : slice_bound n (Z.of_nat k) = k.
Proof.
  unfold slice_bound. destruct (Z.ltb_spec (Z.of_nat k) 0); [lia|]. by rewrite Nat2Z.id.
Qed.

Lemma out_shape_nat bd max_size n :
  out_shape (Z.of_nat bd) max_size n = batch_index bd n max_size.
Proof. unfold out_shape, py_slice_to, py_slice_from. by rewrite slice_bound_nat. Qed.

Lemma length_contiguous_strides s : length (contiguous_strides s) = length s.
Proof. induction s; simpl; congruence. Qed.

Lemma length_batch_index bd i idx : length (batch_index bd i idx) = S (length idx).
Proof.
  unfold batch_index. rewrite length_app. simpl. rewrite length_take, length_drop. lia.
Qed.

Lemma batch_index_lookup bd i idx : bd ≤ length idx → batch_index bd i idx !! bd = Some i.
Proof.
  intros H. unfold batch_index. rewrite lookup_app_r; rewrite length_take; [|lia].
  by replace (bd - bd `min` length idx) with 0 by lia.
Qed.

Lemma batch_index_delete bd i idx : bd ≤ length idx → delete bd (batch_index bd i idx) = idx.
Proof.
  revert idx. unfold batch_index. induction bd as [|bd IH]; intros idx H.
  - by rewrite drop_0.
  - destruct idx as [|a idx]; [simpl in H; lia|]. simpl in *. f_equal. apply IH. lia.
Qed.

Lemma batch_index_insert bd i x idx :
  bd ≤ length idx → <[bd:=x]> (batch_index bd i idx) = batch_index bd x idx.
Proof.
  revert idx. unfold batch_index. induction bd as [|bd IH]; intros idx H.
  - by rewrite drop_0.
  - destruct idx as [|a idx]; [simpl in H; lia|]. simpl in *. f_equal. apply IH. lia.
Qed.


Lemma batch_index_Forall2 bd i n idx s :
  bd ≤ length idx →
  Forall2 lt (batch_index bd i idx) (batch_index bd n s) ↔ i < n ∧ Forall2 lt idx s.
Proof.
  revert idx s. unfold batch_index. induction bd as [|bd IH]; intros idx s H.
  - rewrite !drop_0. simpl. split.
    + inversion 1; subst. done.
    + intros [? ?]. by constructor.
  - destruct idx as [|a idx]; [simpl in H; lia|]. destruct s as [|b s]; simpl.
    + split; [inversion 1; subst | intros [_ Hf]; inversion Hf].
      match goal with Hf : Forall2 _ (_ ++ _ :: _) [] |- _ =>
        apply Forall2_length in Hf; rewrite length_app in Hf; simpl in Hf; lia end.
    + split.
      * inversion 1 as [|? ? ? ? Hab Hrest]; subst.
        apply IH in Hrest as [? ?]; [|simpl in H; lia]. split; [done|by constructor].
      * intros [Hi Hf]. inversion Hf; subst. constructor; [done|].
        apply IH; [simpl in H; lia|done].
Qed.

Lemma insert_take_drop {A} (l1 l2 : list A) k x :
  l1 !! k = Some x → length l1 = length l2 →
  <[k:=x]> (take k l1 ++ drop k l2) = take (S k) l1 ++ drop (S k) l2.
Proof.
  intros Hx Hlen. pose proof (lookup_lt_Some _ _ _ Hx) as Hk.
  destruct (lookup_lt_is_Some_2 l2 k) as [y Hy]; [lia|].
  rewrite (take_S_r _ _ _ Hx), (drop_S _ _ _ Hy), <- app_assoc. simpl.
  rewrite insert_app_r_alt; rewrite length_take; [|lia].
  by replace (k - k `min` length l1) with 0 by lia.
Qed.

Lemma take_drop_step {A} (l1 l2 : list A) k x :
  l1 !! k = Some x → l2 !! k = Some x →
  take k l1 ++ drop k l2 = take (S k) l1 ++ drop (S k) l2.
Proof.
  intros Hx Hy. by rewrite (take_S_r _ _ _ Hx), (drop_S _ _ _ Hy), <- app_assoc.
Qed.

Lemma element_view bd i n max_size x :
  bd ≤ length max_size → i < n →
  contiguous_strides (batch_index bd n max_size) !! bd = Some x →
  let s := batch_index bd n max_size in
  let out := View 0 s (contiguous_strides s) in
  slice_dim (Z.of_nat bd) out = Z.of_nat bd ∧
  narrow out (Z.of_nat bd) i 1 ≫= (λ v, squeeze v (Z.of_nat bd))
    = Some (View (i * x) max_size (delete bd (contiguous_strides s))).
Proof.
  intros Hbd Hi Hx s out. subst out s. split.
  - unfold slice_dim. cbn [v_sizes]. rewrite length_batch_index.
    destruct (Z.gtb_spec (Z.of_nat (S (length max_size))) (Z.of_nat bd)); [done|lia].
  - unfold narrow. cbn [v_sizes v_strides v_offset]. rewrite length_batch_index.
    rewrite wrap_dim_nat by lia. cbn [mbind option_bind].
    rewrite batch_index_lookup by done. cbn [mbind option_bind].
    rewrite Hx. cbn [mbind option_bind]. rewrite bool_decide_eq_true_2 by lia.
    cbn [mbind option_bind].
    unfold squeeze. cbn [v_sizes v_strides v_offset].
    rewrite (batch_index_insert bd n 1) by done.
    destruct (batch_index bd 1 max_size) as [|a l] eqn:Hb.
    { pose proof (length_batch_index bd 1 max_size) as Hl. rewrite Hb in Hl. done. }
    rewrite <- Hb. rewrite length_batch_index, wrap_dim_nat by lia. cbn [mbind option_bind].
    rewrite batch_index_lookup by done. rewrite bool_decide_eq_true_2 by done.
    rewrite batch_index_delete by done. by rewrite Nat.add_0_l.
Qed.

Section CollateViews.
Context {V : Type}.
Implicit Types (d : tensor V).

Lemma narrow_different_prefix d max_size different off st k :
  covered max_size different (t_shape d) →
  length different = length max_size → length st = length max_size →
  k ≤ length max_size →
  foldM (λ v j,
           match different !! j with
           | Some true => n ← tensor_size d (Z.of_nat j); narrow v (Z.of_nat j) 0 n
           | _ => Some v
           end)
        (View off max_size st) (seq 0 k)
  = Some (View off (take k (t_shape d) ++ drop k max_size) st).
Proof.
  intros [Hlen Hcov] HlD Hlst. induction k as [|k IH]; intros Hk.
  - simpl. by rewrite drop_0.
  - rewrite seq_S, foldM_app, IH by lia. simpl.
    destruct (lookup_lt_is_Some_2 (t_shape d) k) as [x Hx]; [lia|].
    destruct (lookup_lt_is_Some_2 max_size k) as [m Hm]; [lia|].
    destruct (lookup_lt_is_Some_2 st k) as [sk Hsk]; [lia|].
    destruct (lookup_lt_is_Some_2 different k) as [b Hb]; [lia|].
    destruct (Hcov k x m Hx Hm) as [Hle Heq]. rewrite Hb.
    destruct b.
    + unfold tensor_size. rewrite wrap_dim_nat by lia. simpl. rewrite Hx. simpl.
      unfold narrow. simpl.
      assert (Hl : length (take k (t_shape d) ++ drop k max_size) = length max_size).
      { rewrite length_app, length_take, length_drop. lia. }
      rewrite Hl, wrap_dim_nat by lia. simpl.
      rewrite lookup_app_r; rewrite length_take; [|lia].
      replace (k - k `min` length (t_shape d)) with 0 by lia.
      rewrite lookup_drop, (Nat.add_0_r k), Hm. simpl. rewrite Hsk. simpl.
      rewrite bool_decide_eq_true_2 by lia.
      rewrite (Nat.add_0_r off). by rewrite insert_take_drop.
    + specialize (Heq Hb). subst m.
      by rewrite (take_drop_step _ _ _ _ Hx Hm).
Qed.

Lemma narrow_different_Some d max_size different off st :
  covered max_size different (t_shape d) →
  length different = length max_size → length st = length max_size →
  narrow_different different d (View off max_size st) = Some (View off (t_shape d) st).
Proof.
  intros Hc HlD Hlst. unfold narrow_different. rewrite HlD.
  rewrite (narrow_different_prefix d max_size different off st (length max_size)) by done.
  destruct Hc as [Hlen _]. rewrite <- Hlen at 1. rewrite firstn_all.
  by rewrite drop_all, app_nil_r.
Qed.
End CollateViews.

Lemma broadcastable_refl s : broadcastable s s = true.
Proof.
  unfold broadcastable. rewrite bool_decide_eq_true_2 by done. simpl.
  rewrite Nat.sub_diag, drop_0. induction s as [|a s IH]; simpl; [done|].
  by rewrite Nat.eqb_refl, IH.
Qed.

Lemma broadcast_index_same s idx : Forall2 lt idx s → broadcast_index s idx = idx.
Proof.
  intros H. unfold broadcast_index. rewrite (Forall2_length _ _ _ H), Nat.sub_diag, drop_0.
  induction H as [|i a idx s Hi _ IH]; simpl; [done|].
  rewrite IH. destruct (Nat.eqb_spec a 1); [f_equal; lia | done].
Qed.

Lemma Forall2_lt_covered max_size different shape idx :
  covered max_size different shape → Forall2 lt idx shape → Forall2 lt idx max_size.
Proof.
  intros [Hlen Hc] H. apply Forall2_same_length_lookup_2.
  - rewrite (Forall2_length _ _ _ H). done.
  - intros j a m Ha Hm.
    destruct (lookup_lt_is_Some_2 shape j) as [x Hx].
    { rewrite Hlen. by eapply lookup_lt_Some. }
    pose proof (Forall2_lookup_lr _ _ _ _ _ _ H Ha Hx).
    destruct (Hc j x m Hx Hm). lia.
Qed.

Section CollateCopy.
Context {V : Type}.
Implicit Types (d : tensor V) (storage : list V).

Lemma tensor_get_is_Some d idx :
  tensor_wf d → Forall2 lt idx (t_shape d) → is_Some (tensor_get d idx).
Proof.
  intros Hwf Hidx. unfold tensor_get. apply lookup_lt_is_Some_2.
  rewrite Hwf. by apply dot_lt.
Qed.

(** What a sequence of writes through an injective address map leaves in the storage. *)
Lemma copy_writes d (addr : list nat → nat) (L : list (list nat)) : ∀ storage,
  tensor_wf d →
  Forall (λ idx, Forall2 lt idx (t_shape d)) L →
  (∀ idx idx', idx ∈ L → idx' ∈ L → addr idx = addr idx' → idx = idx') →
  (∀ idx, idx ∈ L → addr idx < length storage) →
  ∃ storage',
    foldM (λ st idx, x ← tensor_get d (broadcast_index (t_shape d) idx);
                     Some (<[addr idx := x]> st)) storage L = Some storage' ∧
    length storage' = length storage ∧
    (∀ idx, idx ∈ L → storage' !! addr idx = tensor_get d idx) ∧
    (∀ p, (∀ idx, idx ∈ L → addr idx ≠ p) → storage' !! p = storage !! p).
Proof.
  induction L as [|a L IH]; intros storage Hwf HL Hinj Hbound; cbn [foldM].
  - exists storage. split; [done|]. split; [done|]. split; [|done].
    intros idx Hin. by apply elem_of_nil in Hin.
  - inversion HL as [|? ? Ha HL']; subst.
    rewrite (broadcast_index_same _ _ Ha).
    destruct (tensor_get_is_Some d a Hwf Ha) as [x Hx]. rewrite Hx. cbn [mbind option_bind].
    destruct (IH (<[addr a := x]> storage)) as (st' & Hst' & Hlen & Hhit & Hmiss).
    + done.
    + done.
    + intros idx idx' Hi Hi'. apply Hinj; by apply elem_of_cons; right.
    + intros idx Hi. rewrite length_insert. apply Hbound. by apply elem_of_cons; right.
    + exists st'. split; [done|]. split; [by rewrite Hlen, length_insert|]. split.
      * intros idx Hin. destruct (decide (idx ∈ L)) as [HinL|HninL]; [by apply Hhit|].
        apply elem_of_cons in Hin as [->|Hin]; [|done].
        rewrite Hmiss.
        -- rewrite list_lookup_insert_eq; [done|]. apply Hbound. by apply elem_of_cons; left.
        -- intros idx Hin Heq. apply HninL.
           assert (idx = a) as ->; [|done].
           apply Hinj; [by apply elem_of_cons; right | by apply elem_of_cons; left | done].
      * intros p Hp. rewrite Hmiss.
        -- apply list_lookup_insert_ne. apply Hp. by apply elem_of_cons; left.
        -- intros idx Hin. apply Hp. by apply elem_of_cons; right.
Qed.

Lemma merge_element_Some bd n max_size different storage i d :
  let s := batch_index bd n max_size in
  bd ≤ length max_size → i < n → length different = length max_size →
  covered max_size different (t_shape d) → tensor_wf d →
  length storage = numel s →
  ∃ storage',
    merge_element (Z.of_nat bd) different (View 0 s (contiguous_strides s)) storage i d
      = Some storage' ∧
    length storage' = length storage ∧
    (∀ idx, Forall2 lt idx (t_shape d) →
       storage' !! dot (batch_index bd i idx) (contiguous_strides s) = tensor_get d idx) ∧
    (∀ p, (∀ idx, Forall2 lt idx (t_shape d) →
             dot (batch_index bd i idx) (contiguous_strides s) ≠ p) →
       storage' !! p = storage !! p).
Proof.
  intros s Hbd Hi HlD Hcov Hwf Hlen.
  destruct (lookup_lt_is_Some_2 (contiguous_strides s) bd) as [x Hx].
  { rewrite length_contiguous_strides. unfold s. rewrite length_batch_index. lia. }
  destruct (element_view bd i n max_size x Hbd Hi Hx) as [Hdim Hview].
  fold s in Hdim, Hview.
  assert (Haddr : ∀ idx, Forall2 lt idx (t_shape d) →
    i * x + dot idx (delete bd (contiguous_strides s))
    = dot (batch_index bd i idx) (contiguous_strides s)).
  { intros idx Hidx. symmetry. apply dot_batch_index; [|done].
    rewrite (Forall2_length _ _ _ Hidx). destruct Hcov as [-> _]. done. }
  assert (Hin : ∀ idx, Forall2 lt idx (t_shape d) → Forall2 lt (batch_index bd i idx) s).
  { intros idx Hidx. apply batch_index_Forall2.
    - rewrite (Forall2_length _ _ _ Hidx). destruct Hcov as [-> _]. done.
    - split; [done|]. by eapply Forall2_lt_covered. }
  destruct (copy_writes d (λ idx, i * x + dot idx (delete bd (contiguous_strides s)))
              (indices (t_shape d)) storage) as (st' & Hst' & Hlen' & Hhit & Hmiss).
  - done.
  - apply Forall_forall. intros idx. apply elem_of_indices.
  - intros idx idx' H1 H2. apply elem_of_indices in H1, H2.
    rewrite !Haddr by done. intros Heq.
    apply dot_inj in Heq; [|by apply Hin..].
    apply (f_equal (delete bd)) in Heq.
    rewrite !batch_index_delete in Heq; [done|..].
    + rewrite (Forall2_length _ _ _ H2). destruct Hcov as [-> _]. done.
    + rewrite (Forall2_length _ _ _ H1). destruct Hcov as [-> _]. done.
  - intros idx H1. apply elem_of_indices in H1. rewrite Haddr, Hlen by done.
    apply dot_lt. by apply Hin.
  - exists st'. unfold merge_element. rewrite Hdim.
    destruct (narrow _ _ i 1) as [v1|]; [|done]. cbn [mbind option_bind] in Hview |- *.
    rewrite Hview. cbn [mbind option_bind].
    rewrite (narrow_different_Some d max_size different) by
      (try done; rewrite length_delete by (by exists x);
       rewrite length_contiguous_strides; unfold s; rewrite length_batch_index; lia).
    cbn [mbind option_bind]. unfold copy_. cbn [v_sizes v_offset v_strides].
    rewrite broadcastable_refl. split; [done|]. split; [done|]. split.
    + intros idx Hidx. rewrite <- Haddr by done. apply Hhit. by apply elem_of_indices.
    + intros p Hp. apply Hmiss. intros idx H1. apply elem_of_indices in H1.
      rewrite Haddr by done. by apply Hp.
Qed.
End CollateCopy.

Section CollateMerge.
Context {V : Type}.
Variable zero : V.
Implicit Types (d : tensor V) (storage : list V) (batch : list (tensor V)).

Lemma merge_loop_Some bd n max_size different rest : ∀ k storage,
  let s := batch_index bd n max_size in
  bd ≤ length max_size → k + length rest ≤ n → length different = length max_size →
  Forall (λ d, covered max_size different (t_shape d) ∧ tensor_wf d) rest →
  length storage = numel s →
  ∃ storage',
    merge_loop (Z.of_nat bd) different (View 0 s (contiguous_strides s)) storage
      (zip (seq k (length rest)) rest) = Some storage' ∧
    length storage' = length storage ∧
    (∀ j d idx, rest !! j = Some d → Forall2 lt idx (t_shape d) →
       storage' !! dot (batch_index bd (k + j) idx) (contiguous_strides s) = tensor_get d idx) ∧
    (∀ p, (∀ j d idx, rest !! j = Some d → Forall2 lt idx (t_shape d) →
             dot (batch_index bd (k + j) idx) (contiguous_strides s) ≠ p) →
       storage' !! p = storage !! p).
Proof.
  induction rest as [|d0 rest IH]; intros k storage s Hbd Hk HlD Hall Hlen;
    unfold merge_loop; cbn [zip_with length seq foldM].
  - exists storage. split; [done|]. split; [done|]. split; [|done]. intros j d idx Hj. done.
  - inversion Hall as [|? ? [Hcov0 Hwf0] Hrest]; subst. simpl in Hk.
    cbn [fst snd].
    destruct (merge_element_Some bd n max_size different storage k d0)
      as (st1 & Hst1 & Hlen1 & Hhit1 & Hmiss1); try done; [lia|].
    fold s in Hst1, Hhit1, Hmiss1. rewrite Hst1. cbn [mbind option_bind].
    destruct (IH (S k) st1) as (st' & Hst' & Hlen' & Hhit & Hmiss); try done; [lia | by rewrite Hlen1 |].
    fold s in Hst', Hhit, Hmiss. unfold merge_loop in Hst'.
    exists st'. split; [done|]. split; [congruence|]. split.
    + intros [|j] d idx Hd Hidx.
      * simpl in Hd. injection Hd as <-. rewrite Nat.add_0_r. rewrite Hmiss; [by apply Hhit1|].
        intros j d' idx' Hd' Hidx' Heq.
        assert (Hlen0 : length idx = length max_size).
        { rewrite (Forall2_length _ _ _ Hidx). by destruct Hcov0. }
        pose proof (proj1 (Forall_lookup _ _) Hrest j d' Hd') as [Hcov' _].
        assert (Hlen'' : length idx' = length max_size).
        { rewrite (Forall2_length _ _ _ Hidx'). by destruct Hcov'. }
        apply lookup_lt_Some in Hd'.
        apply dot_inj in Heq.
        -- apply (f_equal (λ l, l !! bd)) in Heq.
           rewrite !batch_index_lookup in Heq by lia. injection Heq. lia.
        -- apply batch_index_Forall2; [lia|]. split; [lia|].
           exact (Forall2_lt_covered _ _ _ _ Hcov' Hidx').
        -- apply batch_index_Forall2; [lia|]. split; [lia|].
           exact (Forall2_lt_covered _ _ _ _ Hcov0 Hidx).
      * simpl in Hd. replace (k + S j) with (S k + j) by lia. by eapply Hhit.
    + intros p Hp. rewrite Hmiss.
      * apply Hmiss1. intros idx Hidx. specialize (Hp 0 d0 idx eq_refl Hidx).
        by rewrite Nat.add_0_r in Hp.
      * intros j d idx Hd Hidx. specialize (Hp (S j) d idx Hd Hidx).
        by replace (k + S j) with (S k + j) in Hp by lia.
Qed.

(** What [_merge_var_len_array] returns for a batch dimension within the rank. *)
Lemma merge_var_len_array_spec (bd r : nat) (pad : V) batch :
  batch ≠ [] → Forall tensor_wf batch →
  Forall (λ d, length (t_shape d) = r) batch → bd ≤ r →
  ∃ max_size different out,
    _measure_array_max_dim batch = Some (max_size, different) ∧
    _merge_var_len_array zero (Z.of_nat bd) (Some pad) batch = Some out ∧
    t_shape out = batch_index bd (length batch) max_size ∧
    tensor_wf out ∧
    (∀ i d idx, batch !! i = Some d → Forall2 lt idx (t_shape d) →
       tensor_get out (batch_index bd i idx) = tensor_get d idx) ∧
    (∀ oidx i d, Forall2 lt oidx (t_shape out) → oidx !! bd = Some i →
       batch !! i = Some d → ¬ Forall2 lt (delete bd oidx) (t_shape d) →
       tensor_get out oidx = Some pad).
Proof.
  intros Hne Hwf Hrank Hbd.
  destruct (measure_array_max_dim_Some batch r Hne Hrank) as (M & D & Hm & HlM & HlD & Hcov).
  exists M, D. unfold _merge_var_len_array. rewrite Hm. cbn [mbind option_bind].
  cbv zeta. rewrite !out_shape_nat. set (s := batch_index bd (length batch) M).
  destruct (merge_loop_Some bd (length batch) M D batch 0 (replicate (numel s) pad))
    as (st' & Hst' & Hlen' & Hhit & Hmiss).
  - lia.
  - simpl. lia.
  - lia.
  - apply Forall_forall. intros d Hd. split.
    + by apply (proj1 (Forall_forall _ _) Hcov).
    + by apply (proj1 (Forall_forall _ _) Hwf).
  - by rewrite length_replicate.
  - fold s in Hst', Hhit, Hmiss. cbn [default]. unfold id. rewrite Hst'. cbn [mbind option_bind].
    eexists. split; [done|]. split; [reflexivity|]. cbn [t_shape]. split; [done|].
    split; [|split].
    + unfold tensor_wf. cbn [t_shape t_data]. by rewrite Hlen', length_replicate.
    + intros i d idx Hd Hidx. unfold tensor_get at 1. cbn [t_shape t_data].
      by apply (Hhit i d idx).
    + intros oidx i d Hoidx Hi Hd Hnot. unfold tensor_get. cbn [t_shape t_data].
      rewrite Hmiss.
      * apply lookup_replicate_2. by apply dot_lt.
      * intros j d' idx' Hd' Hidx' Heq. simpl in Heq.
        pose proof (proj1 (Forall_lookup _ _) Hcov j d' Hd') as Hcov'.
        assert (Hlen'' : length idx' = length M).
        { rewrite (Forall2_length _ _ _ Hidx'). by destruct Hcov'. }
        apply dot_inj in Heq; [| |done].
        -- subst oidx. rewrite batch_index_lookup in Hi by lia. injection Hi as ->.
           rewrite batch_index_delete in Hnot by lia. congruence.
        -- apply batch_index_Forall2; [lia|]. split.
           ++ by eapply lookup_lt_Some.
           ++ exact (Forall2_lt_covered _ _ _ _ Hcov' Hidx').
Qed.
End CollateMerge.
Lemma bind_seq_blocks n P :
  (seq 0 n ≫= λ i, seq (i * P) P) = seq 0 (n * P).
Proof.
  induction n as [|n IH]; [done|].
  rewrite seq_S, bind_app, IH, bind_singleton. simpl.
  rewrite <- (Nat.add_0_l (n * P)) at 1. rewrite <- seq_app. f_equal. lia.
Qed.

Lemma fmap_list_bind {A B C} (f : B → C) (g : A → list B) (l : list A) :
  f <$> (l ≫= g) = l ≫= (λ x, f <$> g x).
Proof. induction l as [|x l IH]; csimpl; [done|]. by rewrite fmap_app, IH. Qed.

(** Row-major enumeration: the k-th multi-index has storage offset k. *)
Lemma dot_indices s :
  (λ idx, dot idx (contiguous_strides s)) <$> indices s = seq 0 (numel s).
Proof.
  induction s as [|n s IH]; [done|]. cbn [indices contiguous_strides].
  change (numel (n :: s)) with (n * numel s).
  rewrite <- bind_seq_blocks, fmap_list_bind.
  apply list_bind_ext; [|done]. intros i. rewrite <- list_fmap_compose.
  rewrite <- (Nat.add_0_r (i * numel s)), <- fmap_add_seq, <- IH, <- list_fmap_compose.
  apply list_fmap_ext. intros j idx _. simpl. by rewrite dot_cons.
Qed.

Section CollateRecover.
Context {V : Type}.
Implicit Types (d : tensor V).

Lemma mapM_tensor_get d :
  tensor_wf d → mapM (tensor_get d) (indices (t_shape d)) = Some (t_data d).
Proof.
  intros Hwf. apply mapM_Some_2.
  apply (Forall2_fmap_l (λ idx, dot idx (contiguous_strides (t_shape d)))
           (λ k y, t_data d !! k = Some y)).
  rewrite dot_indices, <- Hwf.
  apply Forall2_same_length_lookup_2; [by rewrite length_seq|].
  intros i j x Hj Hx. apply lookup_seq in Hj as [-> _]. done.
Qed.

Lemma recover_Some (out : tensor V) bd i d :
  tensor_wf d →
  (∀ idx, Forall2 lt idx (t_shape d) →
     tensor_get out (batch_index bd i idx) = tensor_get d idx) →
  recover out bd i (t_shape d) = Some d.
Proof.
  intros Hwf Hget. unfold recover.
  rewrite (Forall_mapM_ext _ (tensor_get d)).
  - rewrite mapM_tensor_get by done. by destruct d.
  - apply Forall_forall. intros idx Hin. apply Hget. by apply elem_of_indices.
Qed.
End CollateRecover.

Lemma length_out_shape batch_dim max_size n :
  length (out_shape batch_dim max_size n) = S (length max_size).
Proof.
  unfold out_shape, py_slice_to, py_slice_from.
  rewrite !length_app, length_take, length_drop. simpl. lia.
Qed.

(** ** The merge loop when the slice is taken along dimension 0 *)

Lemma wrap_dim_nat_Some n j d : wrap_dim n (Z.of_nat j) = Some d → d = j ∧ j < n.
Proof.
  unfold wrap_dim. case_bool_decide as H; [|done]. intros [= <-].
  destruct (Z.ltb_spec (Z.of_nat j) 0); lia.
Qed.

Lemma narrow_start_inv (v v' : view) (j n : nat) :
  narrow v (Z.of_nat j) 0 n = Some v' →
  v_offset v' = v_offset v ∧ v_strides v' = v_strides v ∧
  v_sizes v' = <[j := n]> (v_sizes v) ∧ ∃ m, v_sizes v !! j = Some m ∧ n ≤ m.
Proof.
  unfold narrow. destruct (wrap_dim _ _) as [k|] eqn:Hk; [|done].
  apply wrap_dim_nat_Some in Hk as [-> Hlt]. cbn [mbind option_bind].
  destruct (v_sizes v !! j) as [m|] eqn:Hm; [|done]. cbn [mbind option_bind].
  destruct (v_strides v !! j) as [st|]; [|done]. cbn [mbind option_bind].
  case_bool_decide as Hle; [|done]. intros [= <-]. cbn [v_offset v_strides v_sizes].
  split; [lia|]. split; [done|]. split; [done|]. exists m. split; [done|lia].
Qed.

Lemma narrowed_lookup different shape sizes j :
  narrowed different shape sizes !! j
  = (λ m, match different !! j, shape !! j with
          | Some true, Some x => x
          | _, _ => m
          end) <$> sizes !! j.
Proof. unfold narrowed. by rewrite list_lookup_imap. Qed.

Lemma length_narrowed different shape sizes :
  length (narrowed different shape sizes) = length sizes.
Proof. unfold narrowed. by rewrite length_imap. Qed.

Section FallbackViews.
Context {V : Type}.
Implicit Types (d : tensor V).

Lemma narrow_different_prefix_inv different d (v : view) : ∀ k v',
  foldM (λ v j,
           match different !! j with
           | Some true => n ← tensor_size d (Z.of_nat j); narrow v (Z.of_nat j) 0 n
           | _ => Some v
           end) v (seq 0 k) = Some v' →
  v_offset v' = v_offset v ∧ v_strides v' = v_strides v ∧
  (∀ j, v_sizes v' !! j = if decide (j < k)
                          then narrowed different (t_shape d) (v_sizes v) !! j
                          else v_sizes v !! j) ∧
  (∀ j x m, v_sizes v' !! j = Some x → v_sizes v !! j = Some m → x ≤ m).
Proof.
  induction k as [|k IH]; intros v' Hv'.
  - simpl in Hv'. injection Hv' as <-. split; [done|]. split; [done|]. split; [done|].
    intros j x m Hx Hm. rewrite Hx in Hm. injection Hm as ->. done.
  - rewrite seq_S, foldM_app in Hv'. simpl in Hv'.
    apply bind_Some in Hv' as (v1 & Hv1 & Hstep).
    destruct (IH v1 Hv1) as (Hoff & Hstr & Hsz & Hle). clear IH Hv1.
    cbn [foldM] in Hstep.
    assert (Hk : v_sizes v1 !! k = v_sizes v !! k).
    { rewrite Hsz. destruct (decide (k < k)); [lia|done]. }
    destruct (different !! k) as [[|]|] eqn:HD.
    + apply bind_Some in Hstep as (v2 & Hstep & [= <-]).
      apply bind_Some in Hstep as (n & Hn & Hnar).
      unfold tensor_size in Hn.
      apply bind_Some in Hn as (k' & Hk' & Hn).
      apply wrap_dim_nat_Some in Hk' as [-> _].
      apply narrow_start_inv in Hnar as (Hoff2 & Hstr2 & Hsz2 & m & Hm & Hnm).
      split; [congruence|]. split; [congruence|]. split.
      * intros j. rewrite Hsz2. destruct (decide (j = k)) as [->|Hne].
        -- rewrite list_lookup_insert_eq by (by eapply lookup_lt_Some).
           destruct (decide (k < S k)); [|lia].
           rewrite narrowed_lookup, <- Hk, Hm, HD, Hn. done.
        -- rewrite list_lookup_insert_ne by done. rewrite Hsz.
           destruct (decide (j < k)), (decide (j < S k)); (done || lia).
      * intros j x m0 Hx Hm0. rewrite Hsz2 in Hx. destruct (decide (j = k)) as [->|Hne].
        -- rewrite list_lookup_insert_eq in Hx by (by eapply lookup_lt_Some).
           injection Hx as <-. rewrite Hk in Hm. rewrite Hm in Hm0. injection Hm0 as <-. done.
        -- rewrite list_lookup_insert_ne in Hx by done. by eapply Hle.
    + injection Hstep as <-. split; [done|]. split; [done|]. split; [|done].
      intros j. rewrite Hsz. destruct (decide (j = k)) as [->|Hne].
      * destruct (decide (k < k)), (decide (k < S k)); try lia.
        rewrite narrowed_lookup, HD. by destruct (v_sizes v !! k).
      * destruct (decide (j < k)), (decide (j < S k)); (done || lia).
    + injection Hstep as <-. split; [done|]. split; [done|]. split; [|done].
      intros j. rewrite Hsz. destruct (decide (j = k)) as [->|Hne].
      * destruct (decide (k < k)), (decide (k < S k)); try lia.
        rewrite narrowed_lookup, HD. by destruct (v_sizes v !! k).
      * destruct (decide (j < k)), (decide (j < S k)); (done || lia).
Qed.

(** What the narrowing loop returns, when it returns. *)
Lemma narrow_different_inv different d (v v' : view) :
  narrow_different different d v = Some v' →
  v_offset v' = v_offset v ∧ v_strides v' = v_strides v ∧
  v_sizes v' = narrowed different (t_shape d) (v_sizes v) ∧
  Forall2 le (v_sizes v') (v_sizes v).
Proof.
  intros H. apply narrow_different_prefix_inv in H as (Hoff & Hstr & Hsz & Hle).
  assert (Heq : v_sizes v' = narrowed different (t_shape d) (v_sizes v)).
  { apply list_eq. intros j. rewrite Hsz.
    destruct (decide (j < length different)) as [|Hge]; [done|].
    rewrite narrowed_lookup, (lookup_ge_None_2 different j) by lia.
    by destruct (v_sizes v !! j). }
  split; [done|]. split; [done|]. split; [done|].
  apply Forall2_same_length_lookup_2.
  - by rewrite Heq, length_narrowed.
  - intros j x m Hx Hm. by eapply Hle.
Qed.

(** What [copy_] has written, when it returns. *)
Lemma copy_fold_inv d (addr : list nat → nat) (L : list (list nat)) : ∀ storage storage',
  foldM (λ st idx, x ← tensor_get d (broadcast_index (t_shape d) idx);
                   Some (<[addr idx := x]> st)) storage L = Some storage' →
  (∀ idx idx', idx ∈ L → idx' ∈ L → addr idx = addr idx' → idx = idx') →
  (∀ idx, idx ∈ L → addr idx < length storage) →
  length storage' = length storage ∧
  (∀ idx, idx ∈ L →
     storage' !! addr idx = tensor_get d (broadcast_index (t_shape d) idx)) ∧
  (∀ p, (∀ idx, idx ∈ L → addr idx ≠ p) → storage' !! p = storage !! p).
Proof.
  induction L as [|a L IH]; intros storage storage' Hf Hinj Hbound; cbn [foldM] in Hf.
  - injection Hf as <-. split; [done|]. split; [|done].
    intros idx Hin. by apply elem_of_nil in Hin.
  - apply bind_Some in Hf as (st1 & Hst1 & Hf).
    apply bind_Some in Hst1 as (x & Hx & [= <-]).
    destruct (IH _ _ Hf) as (Hlen & Hhit & Hmiss).
    + intros idx idx' Hi Hi'. apply Hinj; by apply elem_of_cons; right.
    + intros idx Hi. rewrite length_insert. apply Hbound. by apply elem_of_cons; right.
    + rewrite length_insert in Hlen. split; [done|]. split.
      * intros idx Hin. destruct (decide (idx ∈ L)) as [HinL|HninL]; [by apply Hhit|].
        apply elem_of_cons in Hin as [->|Hin]; [|done].
        rewrite Hmiss.
        -- rewrite list_lookup_insert_eq; [done|]. apply Hbound. by apply elem_of_cons; left.
        -- intros idx Hin Heq. apply HninL.
           assert (idx = a) as ->; [|done].
           apply Hinj; [by apply elem_of_cons; right | by apply elem_of_cons; left | done].
      * intros p Hp. rewrite Hmiss.
        -- apply list_lookup_insert_ne. apply Hp. by apply elem_of_cons; left.
        -- intros idx Hin. apply Hp. by apply elem_of_cons; right.
Qed.

Lemma Forall2_lt_le (idx T rest : list nat) :
  Forall2 lt idx T → Forall2 le T rest → Forall2 lt idx rest.
Proof.
  intros H1 H2. revert idx H1. induction H2 as [|t m T rest Htm _ IH]; intros idx H1.
  - by inversion H1.
  - inversion H1; subst. constructor; [lia | by apply IH].
Qed.

(** One round of the merge loop when the slice is taken along
    dimension 0 of an output of shape [m0 :: rest]. *)
Lemma merge_element_dim0_inv batch_dim different (m0 : nat) (rest : list nat)
    (storage storage' : list V) i d :
  let s := m0 :: rest in
  (Z.of_nat (length s) ≤ batch_dim)%Z →
  length storage = numel s →
  merge_element batch_dim different (View 0 s (contiguous_strides s)) storage i d
    = Some storage' →
  let T := narrowed different (t_shape d) rest in
  i < m0 ∧ Forall2 le T rest ∧ length storage' = length storage ∧
  (∀ idx, Forall2 lt idx T →
     storage' !! dot (i :: idx) (contiguous_strides s)
     = tensor_get d (broadcast_index (t_shape d) idx)) ∧
  (∀ p, (∀ idx, Forall2 lt idx T → dot (i :: idx) (contiguous_strides s) ≠ p) →
     storage' !! p = storage !! p).
Proof.
  intros s Hbd Hlen Hm T. unfold merge_element, slice_dim in Hm. cbn [v_sizes] in Hm.
  destruct (Z.gtb_spec (Z.of_nat (length s)) batch_dim) as [Hgt|_]; [lia|].
  apply bind_Some in Hm as (v1 & Hv1 & Hm).
  apply bind_Some in Hm as (v2 & Hv2 & Hm).
  apply bind_Some in Hm as (v3 & Hv3 & Hm).
  unfold narrow in Hv1. cbn [v_sizes v_strides v_offset] in Hv1.
  change 0%Z with (Z.of_nat 0) in Hv1. rewrite wrap_dim_nat in Hv1 by (simpl; lia).
  subst s. cbn [contiguous_strides lookup list_lookup mbind option_bind] in Hv1.
  case_bool_decide as Hi; [|done]. injection Hv1 as <-.
  unfold squeeze in Hv2. cbn [v_sizes v_strides v_offset insert list_insert] in Hv2.
  change 0%Z with (Z.of_nat 0) in Hv2. rewrite wrap_dim_nat in Hv2 by (simpl; lia).
  cbn [mbind option_bind lookup list_lookup] in Hv2.
  rewrite bool_decide_eq_true_2 in Hv2 by done.
  cbn [delete list_delete] in Hv2. injection Hv2 as <-.
  apply narrow_different_inv in Hv3 as (Hoff & Hstr & Hsz & Hle).
  cbn [v_offset v_strides v_sizes] in Hoff, Hstr, Hsz, Hle. fold T in Hsz.
  rewrite Hsz in Hle.
  unfold copy_ in Hm. destruct (broadcastable _ _); [|done].
  rewrite Hoff, Hstr, Hsz in Hm.
  assert (Haddr : ∀ idx, 0 + i * numel rest + dot idx (contiguous_strides rest)
                         = dot (i :: idx) (numel rest :: contiguous_strides rest)).
  { intros idx. rewrite dot_cons. lia. }
  assert (Hin : ∀ idx, Forall2 lt idx T → Forall2 lt (i :: idx) (m0 :: rest)).
  { intros idx Hidx. constructor; [lia|]. by eapply Forall2_lt_le. }
  apply (copy_fold_inv d (λ idx, 0 + i * numel rest + dot idx (contiguous_strides rest)))
    in Hm as (Hlen' & Hhit & Hmiss).
  - split; [lia|]. split; [done|]. split; [done|]. split.
    + intros idx Hidx. rewrite <- Haddr. apply Hhit. by apply elem_of_indices.
    + intros p Hp. apply Hmiss. intros idx Hidx%elem_of_indices. rewrite Haddr. by apply Hp.
  - intros idx idx' H1%elem_of_indices H2%elem_of_indices. rewrite !Haddr. intros Heq.
    apply (dot_inj (i :: idx) (i :: idx') (m0 :: rest)) in Heq; [|by apply Hin..].
    by injection Heq.
  - intros idx H1%elem_of_indices. rewrite Haddr, Hlen.
    apply (dot_lt (i :: idx) (m0 :: rest)). by apply Hin.
Qed.

Lemma merge_loop_dim0_inv batch_dim different (m0 : nat) (rest : list nat) (l : list (tensor V)) :
  ∀ k (storage storage' : list V),
  let s := m0 :: rest in
  (Z.of_nat (length s) ≤ batch_dim)%Z →
  length storage = numel s →
  merge_loop batch_dim different (View 0 s (contiguous_strides s)) storage
    (zip (seq k (length l)) l) = Some storage' →
  length storage' = length storage ∧
  (∀ j d, l !! j = Some d →
     k + j < m0 ∧ Forall2 le (narrowed different (t_shape d) rest) rest) ∧
  (∀ j d idx, l !! j = Some d → Forall2 lt idx (narrowed different (t_shape d) rest) →
     storage' !! dot ((k + j) :: idx) (contiguous_strides s)
     = tensor_get d (broadcast_index (t_shape d) idx)) ∧
  (∀ p, (∀ j d idx, l !! j = Some d → Forall2 lt idx (narrowed different (t_shape d) rest) →
           dot ((k + j) :: idx) (contiguous_strides s) ≠ p) →
     storage' !! p = storage !! p).
Proof.
  induction l as [|d0 l IH]; intros k storage storage' s Hbd Hlen Hm;
    unfold merge_loop in Hm; cbn [zip_with length seq foldM] in Hm.
  - injection Hm as <-. split; [done|]. split; [done|]. split; [done|]. done.
  - apply bind_Some in Hm as (st1 & Hst1 & Hm). cbn [fst snd] in Hst1.
    apply (merge_element_dim0_inv batch_dim different m0 rest) in Hst1
      as (Hk & Hle0 & Hlen1 & Hhit1 & Hmiss1); [|done..].
    destruct (IH (S k) st1 storage') as (Hlen' & Hbnd & Hhit & Hmiss);
      [done | by rewrite Hlen1 | exact Hm |]. fold s in Hhit1, Hmiss1, Hhit, Hmiss.
    split; [congruence|]. split; [|split].
    + intros [|j] d Hd; simpl in Hd.
      * injection Hd as <-. split; [lia|done].
      * destruct (Hbnd j d Hd). split; [lia|done].
    + intros [|j] d idx Hd Hidx; simpl in Hd.
      * injection Hd as <-. rewrite Nat.add_0_r. rewrite Hmiss; [by apply Hhit1|].
        intros j d' idx' Hd' Hidx' Heq.
        destruct (Hbnd j d' Hd') as [Hj Hle'].
        apply (dot_inj (S k + j :: idx') (k :: idx) (m0 :: rest)) in Heq.
        -- injection Heq. lia.
        -- constructor; [lia|]. by eapply Forall2_lt_le.
        -- constructor; [lia|]. by eapply Forall2_lt_le.
      * replace (k + S j) with (S k + j) by lia. by eapply Hhit.
    + intros p Hp. rewrite Hmiss.
      * apply Hmiss1. intros idx Hidx. specialize (Hp 0 d0 idx eq_refl Hidx).
        by rewrite Nat.add_0_r in Hp.
      * intros j d idx Hd Hidx. specialize (Hp (S j) d idx Hd Hidx).
        by replace (k + S j) with (S k + j) in Hp by lia.
Qed.

End FallbackViews.

Lemma out_shape_beyond batch_dim max_size n :
  (Z.of_nat (length max_size) < batch_dim)%Z →
  out_shape batch_dim max_size n = max_size ++ [n].
Proof.
  intros H. unfold out_shape, py_slice_to, py_slice_from, slice_bound.
  destruct (Z.ltb_spec batch_dim 0); [lia|].
  rewrite take_ge, drop_ge by lia. done.
Qed.

(** * Properties of the vocabularies *)

Lemma py_dict_snoc {K V : Type} `{Countable K} (l : list (K * V)) (p : K * V) :
  py_dict (l ++ [p]) = <[p.1 := p.2]> (py_dict l).
Proof. unfold py_dict. by rewrite foldl_app. Qed.

Lemma py_dict_lookup_elem {K V : Type} `{Countable K} (l : list (K * V)) k v :
  py_dict l !! k = Some v → (k, v) ∈ l.
Proof.
  induction l as [|p l IH] using rev_ind; [done|].
  rewrite py_dict_snoc, elem_of_app, list_elem_of_singleton.
  destruct (decide (p.1 = k)) as [<-|Hne].
  - rewrite lookup_insert_eq. intros [= <-]. right. by destruct p.
  - rewrite lookup_insert_ne by done. intros Hl. left. by apply IH.
Qed.

Lemma py_dict_lookup_NoDup {K V : Type} `{Countable K} (l : list (K * V)) k v :
  NoDup l.*1 → (k, v) ∈ l → py_dict l !! k = Some v.
Proof.
  induction l as [|p l IH] using rev_ind; [by intros _ ?%elem_of_nil|].
  rewrite fmap_app, py_dict_snoc, elem_of_app, list_elem_of_singleton.
  intros [Hnd [Hdisj _]]%NoDup_app [Hin|<-].
  - rewrite lookup_insert_ne; [by apply IH|].
    intros Heq. apply (Hdisj k).
    + apply list_elem_of_fmap. by exists (k, v).
    + simpl. rewrite Heq. by apply list_elem_of_singleton.
  - simpl. by rewrite lookup_insert_eq.
Qed.

Lemma elem_of_enumerate {A : Type} (l : list A) z x :
  (z, x) ∈ enumerate l ↔ ∃ i, z = Z.of_nat i ∧ l !! i = Some x.
Proof.
  unfold enumerate. rewrite list_elem_of_lookup. split.
  - intros [i Hi]. apply lookup_zip_with_Some in Hi as (a & b & [= -> ->] & Ha & Hb).
    rewrite list_lookup_fmap in Ha. destruct (seq 0 (length l) !! i) as [j|] eqn:Hj; [|done].
    apply lookup_seq in Hj as [-> _]. simpl in Ha. injection Ha as <-. by exists i.
  - intros (i & -> & Hi). exists i. apply lookup_zip_with_Some.
    exists (Z.of_nat i), x. split; [done|]. split; [|done].
    rewrite list_lookup_fmap, lookup_seq_lt; [done|]. by eapply lookup_lt_Some.
Qed.

Lemma enumerate_fst_NoDup {A : Type} (l : list A) : NoDup (enumerate l).*1.
Proof.
  unfold enumerate. rewrite fst_zip by (by rewrite length_fmap, length_seq).
  apply NoDup_fmap; [apply _|]. apply NoDup_seq.
Qed.

(** The two tables built by [from_set] from the list [l]. *)
Lemma from_index_lookup (l : list pykey) z c :
  py_dict (enumerate l) !! z = Some c ↔ ∃ i, z = Z.of_nat i ∧ l !! i = Some c.
Proof.
  rewrite <- elem_of_enumerate. split; [apply py_dict_lookup_elem|].
  apply py_dict_lookup_NoDup, enumerate_fst_NoDup.
Qed.

Lemma to_index_lookup_elem (l : list pykey) z c :
  py_dict ((λ p, (p.2, p.1)) <$> enumerate l) !! c = Some z →
  ∃ i, z = Z.of_nat i ∧ l !! i = Some c.
Proof.
  intros Hl%py_dict_lookup_elem. apply list_elem_of_fmap in Hl as ([z' c'] & [= -> ->] & Hin).
  by apply elem_of_enumerate.
Qed.

Lemma to_index_lookup_NoDup (l : list pykey) z c :
  NoDup l →
  py_dict ((λ p, (p.2, p.1)) <$> enumerate l) !! c = Some z ↔
  ∃ i, z = Z.of_nat i ∧ l !! i = Some c.
Proof.
  intros Hnd. split; [apply to_index_lookup_elem|].
  intros Hi. apply py_dict_lookup_NoDup.
  - rewrite <- list_fmap_compose. unfold enumerate.
    erewrite list_fmap_ext; [rewrite snd_zip; [done|]|].
    + by rewrite length_fmap, length_seq.
    + by intros ? [] ?.
  - apply list_elem_of_fmap. exists (z, c). split; [done|]. by apply elem_of_enumerate.
Qed.

Lemma to_from_index (l : list pykey) z c :
  py_dict ((λ p, (p.2, p.1)) <$> enumerate l) !! c = Some z →
  py_dict (enumerate l) !! z = Some c.
Proof. intros H. apply from_index_lookup. by apply to_index_lookup_elem. Qed.

Global Instance str_le_total : Total str_le.
Proof.
  intros a b. unfold str_le. destruct (String.leb_total a b) as [->| ->]; [by left|by right].
Qed.

Global Instance key_le_total : Total key_le.
Proof.
  intros [x|x] [y|y]; simpl; [apply str_le_total | by left | by right |].
  destruct (Z.le_gt_cases x y); [by left | right; lia].
Qed.

Lemma sorted_strings_NoDup ws : NoDup (sorted_strings ws).
Proof. unfold sorted_strings. rewrite merge_sort_Permutation. apply NoDup_elements. Qed.

Lemma elem_of_sorted_strings ws w : w ∈ sorted_strings ws ↔ w ∈ ws.
Proof. unfold sorted_strings. by rewrite merge_sort_Permutation, elem_of_elements. Qed.

Lemma sorted_keys_Some chars l :
  sorted_keys chars = Some l → Sorted key_le l ∧ l ≡ₚ elements chars.
Proof.
  unfold sorted_keys. destruct (_ || _); [|done]. intros [= <-]. split.
  - apply (Sorted_merge_sort key_le).
  - apply merge_sort_Permutation.
Qed.
Lemma consistent_add_word w v :
  consistent v → words v !! w = None → consistent (_add_word w v).
Proof.
  intros Hc Hw w' i. unfold _add_word. cbn [words inv_words].
  rewrite map_size_insert_None by done.
  destruct (decide (w = w')) as [<-|Hne].
  - rewrite lookup_insert_eq. intros [= <-]. rewrite lookup_insert_eq. split; [done|lia].
  - rewrite lookup_insert_ne by done. intros Hw'. destruct (Hc w' i Hw') as [Hinv Hi].
    rewrite lookup_insert_ne by lia. split; [done|lia].
Qed.

Lemma add_word_lookup_ne w w' v : w ≠ w' → words (_add_word w v) !! w' = words v !! w'.
Proof. intros Hne. unfold _add_word. cbn [words]. by rewrite lookup_insert_ne. Qed.

Lemma consistent_add_list l : ∀ v,
  consistent v → NoDup l → Forall (λ w, words v !! w = None) l →
  consistent (_add_list l v).
Proof.
  induction l as [|a l IH]; intros v Hc Hnd Hfresh; [done|].
  apply NoDup_cons in Hnd as [Ha Hnd]. apply Forall_cons in Hfresh as [Hfa Hfresh].
  apply IH; [by apply consistent_add_word | done |].
  apply Forall_forall. intros w Hw. rewrite add_word_lookup_ne.
  - by apply (proj1 (Forall_forall _ _) Hfresh).
  - intros ->. done.
Qed.


Lemma add_list_flags l : ∀ v,
  _unk_index (_add_list l v) = _unk_index v ∧
  allow_any_word (_add_list l v) = allow_any_word v ∧
  initialized (_add_list l v) = initialized v ∧
  split_punctuation (_add_list l v) = split_punctuation v.
Proof.
  induction l as [|a l IH]; intros v; [done|]. cbn [_add_list foldl].
  fold (_add_list l (_add_word a v)). by destruct (IH (_add_word a v)) as (-> & -> & -> & ->).
Qed.

Lemma finalize_Some v v' :
  finalize v = Some v' →
  words v' = words v ∧ inv_words v' = inv_words v ∧ initialized v' = true ∧
  allow_any_word v' = allow_any_word v ∧ split_punctuation v' = split_punctuation v ∧
  ∃ unk, _unk_index v' = Some unk ∧
         unk = match words v !! "<UNK>" with Some i => Some i | None => words v !! "<unk>" end ∧
         (allow_any_word v = true → is_Some unk).
Proof.
  unfold finalize. destruct (allow_any_word v) eqn:Hallow; simpl.
  - case_bool_decide as Hunk; simpl; [|done]. intros [= <-]. simpl.
    repeat split; try done. eexists. repeat split. done.
  - intros [= <-]. simpl. repeat split; try done. eexists. repeat split. done.
Qed.

Lemma consistent_pad allow split :
  consistent (_add_word "<pad>" (mkWordVocabulary ∅ ∅ None allow false split)).
Proof. apply consistent_add_word; [|done]. intros w i. cbn [words]. by rewrite lookup_empty. Qed.

Section WordVocabularyProofs.
Variable findall_words : string → list string.

Lemma split_sentence_flag v v' s :
  split_punctuation v = split_punctuation v' →
  split_sentence findall_words v s = split_sentence findall_words v' s.
Proof. intros H. destruct s; simpl; [by rewrite H | done]. Qed.

Lemma elem_of_corpus_words v (ss : list sentence) :
  ∀ (acc : gset string) w,
  w ∈ foldl (λ acc s, acc ∪ list_to_set (split_sentence findall_words v s)) acc ss ↔
  w ∈ acc ∨ ∃ s, s ∈ ss ∧ w ∈ split_sentence findall_words v s.
Proof.
  induction ss as [|s ss IH]; intros acc w; simpl.
  - split; [by left|]. intros [?|(s & Hs & _)]; [done|]. by apply elem_of_nil in Hs.
  - rewrite IH, elem_of_union, elem_of_list_to_set. split.
    + intros [[?|?]|(s' & Hs' & Hw)]; [by left | right; exists s | right; exists s'].
      * split; [by left|done].
      * split; [by right|done].
    + intros [?|(s' & Hs' & Hw)]; [by left; left|].
      apply elem_of_cons in Hs' as [->|Hs']; [by left; right | right; by exists s'].
Qed.

(** A vocabulary built from a corpus in which the token ["<pad>"]
    does not occur has agreeing tables. *)
Lemma init_corpus_consistent corpus allow split v :
  WordVocabulary_init findall_words (Some corpus) allow split = Some v →
  Forall (λ s, "<pad>" ∉ split_sentence findall_words v s) corpus →
  consistent v ∧ initialized v = true ∧ words v !! "<pad>" = Some 0%Z.
Proof.
  unfold WordVocabulary_init. intros Hfin Hpad.
  set (v0 := _add_word "<pad>" (mkWordVocabulary ∅ ∅ None allow false split)) in *.
  set (ws := foldl _ _ corpus) in *.
  apply finalize_Some in Hfin as (Hw & Hinv & Hinit & _ & Hsplit & _).
  assert (Hnot : "<pad>" ∉ ws).
  { unfold ws. rewrite elem_of_corpus_words. intros [?|(s & Hs & Hin)]; [set_solver|].
    apply (proj1 (Forall_forall _ _) Hpad s Hs).
    erewrite split_sentence_flag; [exact Hin|].
    rewrite Hsplit. unfold _add_set. by destruct (add_list_flags (sorted_strings ws) v0) as (_&_&_&->). }
  assert (Hc : consistent (_add_set ws v0)).
  { apply consistent_add_list; [apply consistent_pad | apply sorted_strings_NoDup |].
    apply Forall_forall. intros w Hin%elem_of_sorted_strings.
    unfold v0, _add_word. cbn [words]. rewrite lookup_insert_ne; [done|]. by intros <-. }
  split; [|split; [done|]].
  - intros w i. rewrite Hw, Hinv. apply Hc.
  - rewrite Hw. unfold _add_set.
    assert (Hgen : ∀ l v1, "<pad>" ∉ l → words (_add_list l v1) !! "<pad>" = words v1 !! "<pad>").
    { clear. induction l as [|a l IH]; intros v1 Hl; [done|]. cbn [_add_list foldl].
      fold (_add_list l (_add_word a v1)). rewrite IH by set_solver.
      apply add_word_lookup_ne. set_solver. }
    rewrite Hgen; [done|]. by rewrite elem_of_sorted_strings.
Qed.
End WordVocabularyProofs.
Lemma mapM_cons_eq {A B : Type} (f : A → option B) (x : A) (l : list A) :
  mapM f (x :: l) = y ← f x; k ← mapM f l; Some (y :: k).
Proof. reflexivity. Qed.

Section WordRoundTrip.
Variable findall_words : string → list string.

Lemma process_word_known v w i unk :
  _unk_index v = Some unk → words v !! w = Some i →
  allow_any_word v = true ∨ unk ≠ Some i →
  _process_word v w = Some (Some i).
Proof.
  intros Hunk Hw Hok. unfold _process_word, process_lookup. rewrite Hunk, Hw. simpl.
  destruct Hok as [->|Hne]; [by rewrite orb_true_r|].
  rewrite bool_decide_eq_true_2; [done|]. congruence.
Qed.

Lemma process_word_absent v w unk :
  _unk_index v = Some unk → words v !! w = None →
  _process_word v w = if allow_any_word v then Some unk else None.
Proof.
  intros Hunk Hw. unfold _process_word, process_lookup. rewrite Hunk, Hw. simpl.
  by rewrite bool_decide_eq_false_2 by (intros H; by apply H).
Qed.

Lemma word_round_trip_consistent v unk (s : list string) :
  consistent v → initialized v = true → _unk_index v = Some unk →
  Forall (λ w, w ∈ dom (words v)) s →
  allow_any_word v = true ∨ Forall (λ w, unk ≠ words v !! w) s →
  ∃ indices : list Z,
    sentence_to_indices findall_words v (STokens s) = Some (Some <$> indices) ∧
    indices_to_sentence v indices = Some s.
Proof.
  intros Hc Hinit Hunk Hknown Hok. unfold sentence_to_indices, indices_to_sentence.
  rewrite Hinit. cbn [split_sentence].
  induction s as [|w s IH].
  - by exists [].
  - apply Forall_cons in Hknown as [Hw Hknown].
    apply elem_of_dom in Hw as [i Hi].
    destruct IH as (ixs & Hen & Hde); [done | |].
    { destruct Hok as [?|Hok]; [by left|right]. by apply Forall_cons in Hok as [_ ?]. }
    exists (i :: ixs). rewrite mapM_cons_eq, Hen.
    rewrite (process_word_known v w i unk Hunk Hi).
    + split; [done|]. injection Hde as Hde. rewrite fmap_cons, Hde.
      unfold _process_index. by destruct (Hc w i Hi) as [-> _].
    + destruct Hok as [?|Hok]; [by left|right].
      apply Forall_cons in Hok as [Hne _]. by rewrite Hi in Hne.
Qed.
End WordRoundTrip.

Lemma chars_of_concat s : foldr String.append EmptyString (chars_of s) = s.
Proof.
  unfold chars_of. induction s as [|c s IH]; [done|].
  cbn [String.list_ascii_of_string fmap list_fmap foldr]. simpl. f_equal. exact IH.
Qed.

Lemma char_round_trip_from_set v0 chars v (s : string) :
  from_set v0 chars = Some v →
  Forall (λ c, KStr c ∈ dom (to_index v)) (chars_of s) →
  ∃ indices : list Z, str_to_ind v s = Some indices ∧ ind_to_str v indices = Some s.
Proof.
  unfold from_set. intros Hv Hin.
  destruct (match ignore_char v0 with Some _ => _ | None => _ end) as [l|]; [|done].
  cbn [mbind option_bind] in Hv. injection Hv as <-.
  unfold str_to_ind, ind_to_str. cbn [cv_initialized to_index from_index] in *.
  assert (Hgen : ∀ cs : list string,
    Forall (λ c, KStr c ∈ dom (py_dict ((λ p, (p.2, p.1)) <$> enumerate l))) cs →
    ∃ indices : list Z,
      mapM (λ c, py_dict ((λ p, (p.2, p.1)) <$> enumerate l) !! KStr c) cs = Some indices ∧
      (l' ← mapM (λ i, k ← py_dict (enumerate l) !! i;
                       match k with KStr s => Some s | KInt _ => None end) indices;
       Some (foldr String.append EmptyString l')) = Some (foldr String.append EmptyString cs)).
  { induction cs as [|c cs IH]; intros Hcs.
    - by exists [].
    - apply Forall_cons in Hcs as [Hc Hcs]. apply elem_of_dom in Hc as [i Hi].
      destruct (IH Hcs) as (ixs & Hen & Hde). exists (i :: ixs).
      rewrite mapM_cons_eq, Hi, Hen. split; [done|].
      rewrite mapM_cons_eq, (to_from_index l i (KStr c) Hi). cbn [mbind option_bind].
      destruct (mapM _ ixs) as [l'|]; [|done]. cbn [mbind option_bind] in Hde |- *.
      injection Hde as Hde. cbn [foldr]. by rewrite Hde. }
  destruct (Hgen (chars_of s) Hin) as (ixs & Hen & Hde). exists ixs.
  by rewrite chars_of_concat in Hde.
Qed.

Lemma add_list_snoc l w v : _add_list (l ++ [w]) v = _add_word w (_add_list l v).
Proof. unfold _add_list. by rewrite foldl_app. Qed.

Lemma add_list_size l v : size (words v) ≤ size (words (_add_list l v)).
Proof.
  induction l as [|w l IH] using rev_ind; [done|].
  rewrite add_list_snoc. unfold _add_word at 1. cbn [words].
  rewrite map_size_insert. destruct (_ !! w); unfold id; lia.
Qed.

(** Adding ["<pad>"] again, to a vocabulary that already holds a word,
    gives it an index that is not 0. *)
Lemma add_list_pad l v :
  1 ≤ size (words v) → "<pad>" ∈ l →
  ∃ k, words (_add_list l v) !! "<pad>" = Some k ∧ (1 ≤ k)%Z.
Proof.
  intros Hsize. induction l as [|w l IH] using rev_ind; [by intros ?%elem_of_nil|].
  rewrite add_list_snoc. intros Hin. destruct (decide (w = "<pad>")) as [->|Hne].
  - unfold _add_word. cbn [words]. rewrite lookup_insert_eq. eexists. split; [done|].
    pose proof (add_list_size l v). lia.
  - rewrite add_word_lookup_ne by done. apply IH.
    apply elem_of_app in Hin as [?|Hin]; [done|]. by apply list_elem_of_singleton in Hin.
Qed.

Section WordUnion.
Variable findall_words : string → list string.

(** Whatever the two vocabularies, their union does not map ["<pad>"] to 0
    as soon as one of them knows ["<pad>"], which every constructed one does. *)
Lemma word_union_pad_index self other u :
  "<pad>" ∈ dom (words self) →
  WordVocabulary_add findall_words self other = Some u →
  ∃ k, words u !! "<pad>" = Some k ∧ (1 ≤ k)%Z.
Proof.
  intros Hpad. unfold WordVocabulary_add, WordVocabulary_init. cbn [mbind option_bind].
  intros (Hw & _)%finalize_Some. rewrite Hw. unfold _add_set. apply add_list_pad.
  - unfold _add_word. cbn [words]. by rewrite map_size_insert_None, map_size_empty.
  - apply elem_of_sorted_strings. set_solver.
Qed.
End WordUnion.

(** The keys of a union of character vocabularies are integers: no
    character of either operand is among them. *)
Lemma char_union_keys self other u :
  CharVocabulary_add self other = Some u →
  ∀ k, k ∈ dom (to_index u) → is_KStr k = false.
Proof.
  unfold CharVocabulary_add. destruct (_ && _); [|done].
  unfold CharVocabulary_init, from_set. cbn [ignore_char ignore_char_idx].
  set (X := _ ∪ _). destruct (sorted_keys X) as [l|] eqn:Hl; [|done].
  cbn [mbind option_bind]. intros [= <-] k. cbn [to_index].
  intros [z Hz]%elem_of_dom. apply to_index_lookup_elem in Hz as (i & _ & Hi).
  apply list_elem_of_lookup_2 in Hi. apply sorted_keys_Some in Hl as [_ Hperm].
  rewrite Hperm, elem_of_elements in Hi. unfold X in Hi.
  apply elem_of_union in Hi as [Hi|Hi]; apply elem_of_list_to_set, list_elem_of_fmap in Hi
    as (z' & -> & _); done.
Qed.

(** ** The length of a union of character vocabularies *)

Lemma from_set_tables v0 chars v :
  from_set v0 chars = Some v →
  cv_initialized v = true ∧
  ∃ l, to_index v = py_dict ((λ p, (p.2, p.1)) <$> enumerate l) ∧
       from_index v = py_dict (enumerate l).
Proof.
  unfold from_set.
  destruct (match ignore_char v0 with Some _ => _ | None => _ end) as [l|]; [|done].
  cbn [mbind option_bind]. intros [= <-]. split; [done|]. by exists l.
Qed.

Lemma to_index_inj v0 chars v c c' z :
  from_set v0 chars = Some v →
  to_index v !! c = Some z → to_index v !! c' = Some z → c = c'.
Proof.
  intros (_ & l & -> & _)%from_set_tables (i & -> & Hi)%to_index_lookup_elem
         (i' & Heq & Hi')%to_index_lookup_elem.
  apply Nat2Z.inj in Heq as ->. congruence.
Qed.

Lemma size_index_values (m : gmap pykey Z) :
  (∀ c c' z, m !! c = Some z → m !! c' = Some z → c = c') →
  size (list_to_set (KInt <$> (map_to_list m).*2) : gset pykey) = size m.
Proof.
  intros Hinj. rewrite size_list_to_set, !length_fmap, length_map_to_list; [done|].
  apply NoDup_fmap_2; [by intros ? ? [=]|].
  apply NoDup_fmap_2_strong; [|apply NoDup_map_to_list].
  intros [c z] [c' z'] Hin Hin' Heq. simpl in Heq. subst z'.
  apply elem_of_map_to_list in Hin, Hin'. f_equal. by eapply Hinj.
Qed.

(** The length of a union is at least the length of each operand. *)
Lemma char_union_len v0 chars self v0' chars' other u :
  from_set v0 chars = Some self → from_set v0' chars' = Some other →
  CharVocabulary_add self other = Some u →
  ∃ n, CharVocabulary_len u = Some n ∧
       CharVocabulary_len self = Some (size (to_index self)) ∧
       CharVocabulary_len other = Some (size (to_index other)) ∧
       size (to_index self) `max` size (to_index other) ≤ n.
Proof.
  intros Hself Hother. unfold CharVocabulary_add, CharVocabulary_len.
  destruct (from_set_tables _ _ _ Hself) as [-> _].
  destruct (from_set_tables _ _ _ Hother) as [-> _]. cbn [andb].
  unfold CharVocabulary_init, from_set. cbn [ignore_char ignore_char_idx].
  set (X := list_to_set (KInt <$> (map_to_list (to_index self)).*2) : gset pykey).
  set (Y := list_to_set (KInt <$> (map_to_list (to_index other)).*2) : gset pykey).
  destruct (sorted_keys (X ∪ Y)) as [l|] eqn:Hl; [|done].
  cbn [mbind option_bind]. intros [= <-]. cbn [cv_initialized to_index].
  eexists. split; [done|]. split; [done|]. split; [done|].
  apply sorted_keys_Some in Hl as [_ Hperm].
  assert (Hdom : dom (py_dict ((λ p, (p.2, p.1)) <$> enumerate l)) = X ∪ Y).
  { apply set_eq. intros k. rewrite elem_of_dom. unfold is_Some.
    setoid_rewrite to_index_lookup_NoDup; [|rewrite Hperm; apply NoDup_elements].
    rewrite <- (elem_of_elements (X ∪ Y)), <- Hperm, list_elem_of_lookup. split.
    - intros (z & i & _ & Hi). by exists i.
    - intros [i Hi]. by exists (Z.of_nat i), i. }
  assert (Hsz : size (py_dict ((λ p, (p.2, p.1)) <$> enumerate l)) = size (X ∪ Y)).
  { rewrite <- Hdom. symmetry. apply size_dom. }
  rewrite Hsz.
  rewrite <- (size_index_values (to_index self))
    by (intros c c' z; exact (to_index_inj _ _ _ c c' z Hself)).
  rewrite <- (size_index_values (to_index other))
    by (intros c c' z; exact (to_index_inj _ _ _ c c' z Hother)).
  fold X Y. apply Nat.max_lub; apply subseteq_size;
    [apply union_subseteq_l | apply union_subseteq_r].
Qed.

(** ** The concrete scenarios of the specification *)

Example ascii_findall_punctuation :
  ascii_findall "Hello, world_1!  ok" = ["Hello"; ","; "world_1"; "!"; "ok"].
Proof. vm_compute. reflexivity. Qed.

Example split_space_blanks : split_space "  a b  cd " = ["a"; "b"; "cd"].
Proof. vm_compute. reflexivity. Qed.

Example word_vocabulary_a_b_c :
  ∃ v,
    WordVocabulary_init ascii_findall (Some [SRaw "a b"; SRaw "b c"]) false true = Some v ∧
    map_to_list (words v) = [("c", 3%Z); ("a", 1%Z); ("b", 2%Z); ("<pad>", 0%Z)] ∧
    _process_word v "b" = Some (Some 2%Z) ∧
    _process_index v 2%Z = "b" ∧
    _process_index v 99%Z = "<!INV: 99!>".
Proof. eexists. split; [vm_compute; reflexivity|]. repeat split; vm_compute; reflexivity. Qed.

Example char_vocabulary_a_b_c :
  ∃ v,
    CharVocabulary_init (Some {[KStr "a"; KStr "b"; KStr "c"]}) (Some (KStr "b")) (Some 1%Z)
      = Some v ∧
    to_index v !! KStr "a" = Some 0%Z ∧
    to_index v !! KStr "b" = Some 1%Z ∧
    to_index v !! KStr "c" = Some 2%Z.
Proof. eexists. split; [vm_compute; reflexivity|]. repeat split; vm_compute; reflexivity. Qed.

(** ** The tables of a character vocabulary *)

Lemma py_dict_size {K V : Type} `{Countable K} (l : list (K * V)) :
  NoDup l.*1 → size (py_dict l) = length l.
Proof.
  induction l as [|p l IH] using rev_ind; [done|].
  rewrite fmap_app, py_dict_snoc, length_app. intros [Hnd [Hdisj _]]%NoDup_app.
  rewrite map_size_insert_None; [rewrite IH by done; simpl; lia|].
  destruct (py_dict l !! p.1) as [v|] eqn:Hl; [|done]. exfalso.
  apply py_dict_lookup_elem in Hl. apply (Hdisj p.1).
  - apply list_elem_of_fmap. by exists (p.1, v).
  - simpl. by apply list_elem_of_singleton.
Qed.

Lemma enumerate_swap_fst {A : Type} (l : list A) :
  ((λ p : Z * A, (p.2, p.1)) <$> enumerate l).*1 = l.
Proof.
  rewrite <- list_fmap_compose. unfold enumerate.
  erewrite list_fmap_ext; [apply snd_zip|].
  - by rewrite length_fmap, length_seq.
  - by intros ? [] ?.
Qed.

Lemma length_enumerate {A : Type} (l : list A) : length (enumerate l) = length l.
Proof. unfold enumerate. rewrite length_zip_with, length_fmap, length_seq. lia. Qed.

(** The list of characters [from_set] numbers. *)
Lemma from_set_list v chars v' :
  from_set v chars = Some v' →
  ∃ l, to_index v' = py_dict ((λ p, (p.2, p.1)) <$> enumerate l) ∧
       from_index v' = py_dict (enumerate l) ∧ cv_initialized v' = true ∧
       match ignore_char v with
       | None => sorted_keys chars = Some l
       | Some ig => ∃ noig, sorted_keys (chars ∖ {[ig]}) = Some noig ∧
                            l = py_slice_to noig (ignore_char_idx v) ++ [ig]
                                ++ py_slice_from noig (ignore_char_idx v)
       end.
Proof.
  unfold from_set. destruct (ignore_char v) as [ig|].
  - destruct (sorted_keys _) as [noig|]; [|done]. cbn [mbind option_bind].
    intros [= <-]. eexists. repeat split. by exists noig.
  - destruct (sorted_keys chars) as [l|]; [|done]. cbn [mbind option_bind].
    intros [= <-]. by exists l.
Qed.

Lemma sorted_keys_NoDup chars l : sorted_keys chars = Some l → NoDup l.
Proof. intros [_ Hperm]%sorted_keys_Some. rewrite Hperm. apply NoDup_elements. Qed.

Lemma elem_of_sorted_keys chars l c : sorted_keys chars = Some l → c ∈ l ↔ c ∈ chars.
Proof. intros [_ Hperm]%sorted_keys_Some. by rewrite Hperm, elem_of_elements. Qed.

Lemma length_sorted_keys chars l : sorted_keys chars = Some l → length l = size chars.
Proof. intros [_ Hperm]%sorted_keys_Some. by rewrite Hperm. Qed.

Lemma pinned_list_NoDup (noig : list pykey) (ig : pykey) (p : nat) :
  NoDup noig → ig ∉ noig → NoDup (take p noig ++ [ig] ++ drop p noig).
Proof.
  intros Hnd Hig. rewrite <- (take_drop p noig) in Hnd, Hig.
  apply NoDup_app in Hnd as (H1 & H2 & H3).
  apply NoDup_app. split; [done|]. split.
  - intros x Hx [->%list_elem_of_singleton|Hx']%elem_of_app.
    + apply Hig, elem_of_app. by left.
    + by apply (H2 x).
  - apply NoDup_app. split; [apply NoDup_singleton|]. split; [|done].
    intros x ->%list_elem_of_singleton Hx. apply Hig, elem_of_app. by right.
Qed.

Lemma table_lookups (l : list pykey) :
  NoDup l →
  (∀ c z, py_dict ((λ p, (p.2, p.1)) <$> enumerate l) !! c = Some z ↔
          py_dict (enumerate l) !! z = Some c) ∧
  size (py_dict ((λ p, (p.2, p.1)) <$> enumerate l)) = length l ∧
  (∀ z, is_Some (py_dict (enumerate l) !! z) ↔ (0 ≤ z < Z.of_nat (length l))%Z).
Proof.
  intros Hnd. split; [|split].
  - intros c z. by rewrite to_index_lookup_NoDup, from_index_lookup.
  - rewrite py_dict_size, length_fmap, length_enumerate; [done|].
    by rewrite enumerate_swap_fst.
  - intros z. unfold is_Some. setoid_rewrite from_index_lookup. split.
    + intros (c & i & -> & Hi). apply lookup_lt_Some in Hi. lia.
    + intros Hz. destruct (lookup_lt_is_Some_2 l (Z.to_nat z)) as [c Hc]; [lia|].
      exists c, (Z.to_nat z). split; [lia|done].
Qed.

Lemma py_dict_dom {K V : Type} `{Countable K} (l : list (K * V)) :
  dom (py_dict l) = list_to_set l.*1.
Proof.
  induction l as [|p l IH] using rev_ind; [apply dom_empty_L|].
  rewrite py_dict_snoc, dom_insert_L, IH, fmap_app, list_to_set_app_L. simpl.
  apply set_eq. intros k. rewrite !elem_of_union, elem_of_singleton.
  pose proof (not_elem_of_empty (C:=gset K) k). tauto.
Qed.

(** The last pair with a given key decides the lookup. *)
Lemma py_dict_lookup_last {K V : Type} `{Countable K} (l1 l2 : list (K * V)) k v :
  k ∉ l2.*1 → py_dict (l1 ++ (k, v) :: l2) !! k = Some v.
Proof.
  induction l2 as [|p l2 IH] using rev_ind; intros Hk.
  - by rewrite py_dict_snoc, lookup_insert_eq.
  - rewrite (app_comm_cons l2 [p]), app_assoc, py_dict_snoc.
    rewrite fmap_app, elem_of_app in Hk. rewrite lookup_insert_ne.
    + apply IH. tauto.
    + intros Heq. apply Hk. right. simpl. rewrite Heq. by apply list_elem_of_singleton.
Qed.

Lemma to_index_lookup_last (l : list pykey) (j : nat) (c : pykey) :
  l !! j = Some c → c ∉ drop (S j) l →
  py_dict ((λ p, (p.2, p.1)) <$> enumerate l) !! c = Some (Z.of_nat j).
Proof.
  intros Hj Hlast. set (P := (λ p : Z * pykey, (p.2, p.1)) <$> enumerate l).
  assert (HP : P !! j = Some (c, Z.of_nat j)).
  { unfold P. rewrite list_lookup_fmap.
    assert (He : enumerate l !! j = Some (Z.of_nat j, c)).
    { unfold enumerate.
      apply lookup_zip_with_Some. exists (Z.of_nat j), c. split; [done|]. split; [|done].
      rewrite list_lookup_fmap, lookup_seq_lt; [done|]. by eapply lookup_lt_Some. }
    by rewrite He. }
  rewrite <- (take_drop_middle P j _ HP). apply py_dict_lookup_last.
  unfold P. rewrite fmap_drop, enumerate_swap_fst. exact Hlast.
Qed.

Lemma last_occurrence {A : Type} `{EqDecision A} (c : A) (l : list A) :
  c ∈ l → ∃ j, l !! j = Some c ∧ c ∉ drop (S j) l.
Proof.
  induction l as [|a l IH]; [by intros ?%elem_of_nil|]. intros Hin.
  destruct (decide (c ∈ l)) as [Hl|Hl].
  - destruct (IH Hl) as (j & Hj & Hlast). by exists (S j).
  - apply elem_of_cons in Hin as [->|Hin]; [|done]. exists 0. split; [done|]. exact Hl.
Qed.

(** The encoding table of a list with possibly repeated characters:
    a character gets the position of its last occurrence. *)
Lemma to_index_lookup_iff (l : list pykey) (c : pykey) (z : Z) :
  py_dict ((λ p, (p.2, p.1)) <$> enumerate l) !! c = Some z ↔
  ∃ i, z = Z.of_nat i ∧ l !! i = Some c ∧ c ∉ drop (S i) l.
Proof.
  split.
  - intros Hz. destruct (to_index_lookup_elem l z c Hz) as (i & -> & Hi).
    destruct (last_occurrence c l) as (j & Hj & Hlast); [by eapply list_elem_of_lookup_2|].
    rewrite (to_index_lookup_last l j c Hj Hlast) in Hz. injection Hz as Hz.
    apply Nat2Z.inj in Hz as ->. by exists i.
  - intros (i & -> & Hi & Hlast). by apply to_index_lookup_last.
Qed.

Lemma sorted_keys_strings (chars : gset pykey) :
  (∀ c, c ∈ chars → is_KStr c = true) → is_Some (sorted_keys chars).
Proof.
  intros Hall. unfold sorted_keys.
  assert (H : forallb is_KStr (elements chars) = true).
  { apply forallb_forall. intros c Hc%list_elem_of_In%elem_of_elements. by apply Hall. }
  rewrite H. by eexists.
Qed.

Lemma from_set_is_Some (v : CharVocabulary) (chars : gset pykey) :
  (∀ c, c ∈ chars → is_KStr c = true) → is_Some (from_set v chars).
Proof.
  intros Hall. unfold from_set. destruct (ignore_char v) as [ig|].
  - destruct (sorted_keys_strings (chars ∖ {[ig]})) as [noig ->]; [|by eexists].
    intros c Hc%elem_of_difference. apply Hall. tauto.
  - destruct (sorted_keys_strings chars Hall) as [l ->]. by eexists.
Qed.

(** The list with the ignore character inserted at position [p]. *)
Lemma pinned_list_lookup (noig : list pykey) (ig : pykey) (p : nat) :
  p ≤ length noig →
  let l := take p noig ++ [ig] ++ drop p noig in
  l !! p = Some ig ∧
  ∀ i c, noig !! i = Some c → l !! (if decide (i < p) then i else S i) = Some c.
Proof.
  intros Hp l. split.
  - unfold l. rewrite lookup_app_r; rewrite length_take; [|lia].
    by replace (p - p `min` length noig) with 0 by lia.
  - intros i c Hi. unfold l. destruct (decide (i < p)) as [Hlt|Hge].
    + rewrite lookup_app_l by (rewrite length_take; apply lookup_lt_Some in Hi; lia).
      by rewrite lookup_take_lt.
    + rewrite lookup_app_r; rewrite length_take; [|lia].
      replace (S i - p `min` length noig) with (S (i - p)) by lia.
      change (([ig] ++ drop p noig) !! S (i - p)) with (drop p noig !! (i - p)).
      rewrite lookup_drop.
      by replace (p + (i - p)) with i by lia.
Qed.

(** * The claims about the collator *)

(** C1 (as amended).  For every non-empty batch of well-formed arrays of
    equal rank [r] and every batch dimension [bd] with [0 <= bd <= r],
    [_merge_var_len_array] with a given pad value returns an output from
    which every element is recovered exactly (shape and data) by slicing
    the output at its batch index and truncating to its own extent, and
    every output cell outside the extent of the element it belongs to
    holds the pad value.  The sizes may vary along any number of
    dimensions, in particular along a single one. *)
Theorem merge_recovers_every_element {V : Type} (zero pad : V) (bd r : nat)
    (batch : list (tensor V)) :
  batch ≠ [] →
  Forall tensor_wf batch →
  Forall (λ d, length (t_shape d) = r) batch →
  bd ≤ r →
  ∃ out,
    _merge_var_len_array zero (Z.of_nat bd) (Some pad) batch = Some out ∧
    (∀ i d, batch !! i = Some d → recover out bd i (t_shape d) = Some d) ∧
    (∀ oidx i d, Forall2 lt oidx (t_shape out) → oidx !! bd = Some i →
       batch !! i = Some d → ¬ in_extent bd oidx d → tensor_get out oidx = Some pad).
Proof.
  intros Hne Hwf Hrank Hbd.
  destruct (merge_var_len_array_spec zero bd r pad batch Hne Hwf Hrank Hbd)
    as (M & D & out & _ & Hout & _ & _ & Hhit & Hmiss).
  exists out. split; [done|]. split.
  - intros i d Hd. apply recover_Some.
    + by apply (proj1 (Forall_lookup _ _) Hwf i d).
    + intros idx Hidx. by apply (Hhit i d idx).
  - intros oidx i d Hoidx Hi Hd Hnot. by apply (Hmiss oidx i d).
Qed.

Lemma merge_recovers_every_element_witness :
  let batch := [Tensor [3] [11; 12; 13]%Z; Tensor [5] [21; 22; 23; 24; 25]%Z] in
  (batch ≠ [] ∧ Forall tensor_wf batch ∧ Forall (λ d, length (t_shape d) = 1) batch ∧ 1 ≤ 1) ∧
  ∃ out,
    _merge_var_len_array 0%Z (Z.of_nat 1) (Some 7%Z) batch = Some out ∧
    (∀ i d, batch !! i = Some d → recover out 1 i (t_shape d) = Some d) ∧
    (∀ oidx i d, Forall2 lt oidx (t_shape out) → oidx !! 1 = Some i →
       batch !! i = Some d → ¬ in_extent 1 oidx d → tensor_get out oidx = Some 7%Z).
Proof.
  intros batch.
  assert (H1 : batch ≠ []) by done.
  assert (H2 : Forall tensor_wf batch) by (repeat constructor).
  assert (H3 : Forall (λ d, length (t_shape d) = 1) batch) by (repeat constructor).
  assert (H4 : 1 ≤ 1) by lia.
  split; [done|].
  exact (merge_recovers_every_element 0%Z 7%Z 1 1 batch H1 H2 H3 H4).
Defined.

(** With a batch dimension beyond the rank the slice is taken along
    dimension 0 of an output whose batch dimension is the last one, and
    the narrowing of the first element already fails: no output. *)
Lemma merge_batch_dim_beyond_rank :
  _merge_var_len_array 0%Z 2%Z (Some 7%Z)
    [Tensor [3] [11; 12; 13]%Z; Tensor [5] [21; 22; 23; 24; 25]%Z] = None.
Proof. vm_compute. reflexivity. Qed.

(** C2.  For the batch made of an array of shape (3,) followed by an
    array of shape (5,), with pad value 0 and batch dimension 1, the
    merge returns an array of shape (5, 2) whose column 0 holds the three
    values of element 0 followed by two zeros and whose column 1 is
    element 1. *)
Theorem merge_shape3_shape5 (a0 a1 a2 b0 b1 b2 b3 b4 : Z) :
  ∃ out,
    _merge_var_len_array 0%Z 1%Z (Some 0%Z)
      [Tensor [3] [a0; a1; a2]; Tensor [5] [b0; b1; b2; b3; b4]] = Some out ∧
    out = Tensor [5; 2] [a0; b0; a1; b1; a2; b2; 0%Z; b3; 0%Z; b4] ∧
    recover out 1 0 [3] = Some (Tensor [3] [a0; a1; a2]) ∧
    tensor_get out [3; 0] = Some 0%Z ∧
    tensor_get out [4; 0] = Some 0%Z ∧
    recover out 1 1 [5] = Some (Tensor [5] [b0; b1; b2; b3; b4]).
Proof. eexists. split; [reflexivity|]. repeat split. Qed.

(** C8.  Take a batch of well-formed arrays of rank [r] on which the
    measuring pass returns.  The dimension along which every element's
    slice of the output is taken is [batch_dim] when [batch_dim <= r] and
    0 exactly when [batch_dim] exceeds [r].  Accordingly, for
    [0 <= batch_dim <= r] the merge returns an output in which element
    [i] fills the slice at index [i] along dimension [batch_dim]: cell
    [idx] of the element sits at [idx] with [i] inserted at position
    [batch_dim], and the rest of that slice holds the fill value.  For
    [batch_dim > r] the output has the batch dimension last, and whenever
    the merge returns, element [i] was written into the slice at index
    [i] along dimension 0: the cells [i :: idx] of the narrowed slice hold
    the (broadcast) data of the element and the rest of that slice holds
    the fill value. *)
Theorem merge_slices_along_batch_dim {V : Type} (zero : V) (ignore_symbol : option V)
    (batch_dim : Z) (r : nat) (batch : list (tensor V))
    (max_size : list nat) (different : list bool) :
  Forall tensor_wf batch →
  Forall (λ d, length (t_shape d) = r) batch →
  _measure_array_max_dim batch = Some (max_size, different) →
  let s := out_shape batch_dim max_size (length batch) in
  let pad := default zero ignore_symbol in
  let merged := _merge_var_len_array zero batch_dim ignore_symbol batch in
  ((batch_dim ≤ Z.of_nat r)%Z →
     slice_dim batch_dim (View 0 s (contiguous_strides s)) = batch_dim) ∧
  ((Z.of_nat r < batch_dim)%Z →
     slice_dim batch_dim (View 0 s (contiguous_strides s)) = 0%Z) ∧
  ((0 ≤ batch_dim ≤ Z.of_nat r)%Z →
     ∃ out, merged = Some out ∧ t_shape out = s ∧
       ∀ i d, batch !! i = Some d →
         (∀ idx, Forall2 lt idx (t_shape d) →
            tensor_get out (batch_index (Z.to_nat batch_dim) i idx) = tensor_get d idx) ∧
         (∀ oidx, Forall2 lt oidx s → oidx !! Z.to_nat batch_dim = Some i →
            ¬ in_extent (Z.to_nat batch_dim) oidx d → tensor_get out oidx = Some pad)) ∧
  ((Z.of_nat r < batch_dim)%Z →
     ∀ out, merged = Some out →
       t_shape out = s ∧ s = max_size ++ [length batch] ∧
       ∀ i d, batch !! i = Some d →
         (∀ idx, Forall2 lt idx (narrowed different (t_shape d) (drop 1 s)) →
            tensor_get out (batch_index 0 i idx)
            = tensor_get d (broadcast_index (t_shape d) idx)) ∧
         (∀ oidx, Forall2 lt oidx s → oidx !! 0 = Some i →
            ¬ Forall2 lt (drop 1 oidx) (narrowed different (t_shape d) (drop 1 s)) →
            tensor_get out oidx = Some pad)).
Proof.
  intros Hwf Hrank Hm s pad merged.
  assert (Hne : batch ≠ []) by (by destruct batch).
  destruct (measure_array_max_dim_Some batch r Hne Hrank) as (M & D & Hm' & HlM & _).
  rewrite Hm in Hm'. injection Hm' as <- <-.
  assert (Hdim : slice_dim batch_dim (View 0 s (contiguous_strides s))
                 = if (batch_dim <=? Z.of_nat r)%Z then batch_dim else 0%Z).
  { unfold slice_dim, s. cbn [v_sizes]. rewrite length_out_shape, HlM.
    destruct (Z.gtb_spec (Z.of_nat (S r)) batch_dim), (Z.leb_spec batch_dim (Z.of_nat r));
      (done || lia). }
  split; [|split; [|split]].
  - intros H. rewrite Hdim. destruct (Z.leb_spec batch_dim (Z.of_nat r)); [done|lia].
  - intros H. rewrite Hdim. destruct (Z.leb_spec batch_dim (Z.of_nat r)); [lia|done].
  - intros [H0 Hr].
    destruct (merge_var_len_array_spec zero (Z.to_nat batch_dim) r pad batch Hne Hwf Hrank)
      as (M' & D' & out & Hm' & Hout & Hshape & _ & Hhit & Hmiss); [lia|].
    rewrite Hm in Hm'. injection Hm' as <- <-.
    rewrite Z2Nat.id in Hout by done.
    exists out. split; [exact Hout|]. split.
    { rewrite Hshape. unfold s. rewrite <- (Z2Nat.id batch_dim) at 2 by done.
      by rewrite out_shape_nat. }
    intros i d Hd. split.
    + intros idx Hidx. by apply (Hhit i d idx).
    + intros oidx Hoidx Hi Hnot. apply (Hmiss oidx i d); try done.
      rewrite Hshape. unfold s in Hoidx. rewrite <- (Z2Nat.id batch_dim) in Hoidx by done.
      by rewrite out_shape_nat in Hoidx.
  - intros Hr out Hout.
    assert (Hs : s = max_size ++ [length batch]).
    { unfold s. apply out_shape_beyond. lia. }
    unfold merged, _merge_var_len_array in Hout. rewrite Hm in Hout.
    cbn [mbind option_bind] in Hout. cbv zeta in Hout. fold s in Hout. fold pad in Hout.
    apply bind_Some in Hout as (storage' & Hloop & [= <-]). cbn [t_shape].
    split; [done|]. split; [done|].
    destruct s as [|m0 rest] eqn:Hs0.
    { by apply app_cons_not_nil in Hs. }
    assert (Hlen_s : length (m0 :: rest) = S r).
    { rewrite Hs, length_app, HlM. simpl. lia. }
    apply (merge_loop_dim0_inv batch_dim different m0 rest batch 0) in Hloop
      as (Hlen' & Hbnd & Hhit & Hmiss); [|lia|by rewrite length_replicate].
    cbn [drop]. intros i d Hd. split.
    + intros idx Hidx. unfold tensor_get at 1. cbn [t_shape t_data].
      by apply (Hhit i d idx).
    + intros oidx Hoidx Hi Hnot. unfold tensor_get. cbn [t_shape t_data].
      rewrite Hmiss.
      * apply lookup_replicate_2. by apply (dot_lt oidx (m0 :: rest)).
      * intros j d' idx' Hd' Hidx' Heq. simpl in Heq.
        destruct (Hbnd j d' Hd') as [Hj Hle].
        apply (dot_inj (j :: idx') oidx (m0 :: rest)) in Heq; [| |done].
        -- subst oidx. simpl in Hi. injection Hi as ->.
           rewrite Hd in Hd'. injection Hd' as <-. by apply Hnot.
        -- constructor; [lia|]. by eapply Forall2_lt_le.
Qed.

Lemma merge_slices_along_batch_dim_witness :
  let batch := [Tensor [2] [11; 12]%Z; Tensor [1] [21]%Z] in
  let out := Tensor [2; 2] [11; 12; 21; 7]%Z in
  (Forall tensor_wf batch ∧ Forall (λ d, length (t_shape d) = 1) batch ∧
   _measure_array_max_dim batch = Some ([2], [true]) ∧ (Z.of_nat 1 < 2)%Z ∧
   _merge_var_len_array 0%Z 2%Z (Some 7%Z) batch = Some out) ∧
  slice_dim 2%Z (View 0 [2; 2] [2; 1]) = 0%Z ∧
  t_shape out = [2; 2] ∧
  ∀ i d, batch !! i = Some d →
    (∀ idx, Forall2 lt idx (narrowed [true] (t_shape d) [2]) →
       tensor_get out (batch_index 0 i idx) = tensor_get d (broadcast_index (t_shape d) idx)) ∧
    (∀ oidx, Forall2 lt oidx [2; 2] → oidx !! 0 = Some i →
       ¬ Forall2 lt (drop 1 oidx) (narrowed [true] (t_shape d) [2]) →
       tensor_get out oidx = Some 7%Z).
Proof.
  intros batch out.
  assert (H1 : Forall tensor_wf batch) by (repeat constructor).
  assert (H2 : Forall (λ d, length (t_shape d) = 1) batch) by (repeat constructor).
  assert (H3 : _measure_array_max_dim batch = Some ([2], [true])) by reflexivity.
  assert (H4 : (Z.of_nat 1 < 2)%Z) by lia.
  assert (H5 : _merge_var_len_array 0%Z 2%Z (Some 7%Z) batch = Some out) by reflexivity.
  split; [done|].
  destruct (merge_slices_along_batch_dim 0%Z (Some 7%Z) 2%Z 1 batch [2] [true] H1 H2 H3)
    as (_ & Hdim & _ & Hfall).
  split; [exact (Hdim H4)|].
  destruct (Hfall H4 out H5) as (Hshape & _ & Hcells).
  split; [exact Hshape|]. exact Hcells.
Defined.

(** * The claims about the vocabularies *)

(** C3, at the failing input.  The union of the character vocabularies
    over {"a"} and over {"b"} is built from the index values of the two
    tables: its only key is the integer 0, and neither "a" nor "b" is in
    it.  Its length, 1, is still the maximum of the two lengths. *)
Theorem char_union_drops_characters :
  ∃ a b u,
    CharVocabulary_init (Some {[KStr "a"]}) None (Some 0%Z) = Some a ∧
    CharVocabulary_init (Some {[KStr "b"]}) None (Some 0%Z) = Some b ∧
    CharVocabulary_add a b = Some u ∧
    to_index a !! KStr "a" = Some 0%Z ∧
    to_index b !! KStr "b" = Some 0%Z ∧
    to_index u !! KStr "a" = None ∧
    to_index u !! KStr "b" = None ∧
    map_to_list (to_index u) = [(KInt 0, 0%Z)] ∧
    CharVocabulary_len a = Some 1 ∧ CharVocabulary_len b = Some 1 ∧
    CharVocabulary_len u = Some 1.
Proof.
  eexists _, _, _. split; [vm_compute; reflexivity|]. split; [vm_compute; reflexivity|].
  split; [vm_compute; reflexivity|]. repeat split; vm_compute; reflexivity.
Qed.

(** C4, at the failing input.  The vocabularies built from the corpora
    ["a"] and ["b"] both map "<pad>" to 0; their union maps "<pad>" to 1,
    the index it also gives to "a", while index 0 still decodes to
    "<pad>". *)
Theorem word_union_moves_pad :
  ∃ a b u,
    WordVocabulary_init ascii_findall (Some [SRaw "a"]) false true = Some a ∧
    WordVocabulary_init ascii_findall (Some [SRaw "b"]) false true = Some b ∧
    WordVocabulary_add ascii_findall a b = Some u ∧
    words a !! "<pad>" = Some 0%Z ∧
    words b !! "<pad>" = Some 0%Z ∧
    words u !! "<pad>" = Some 1%Z ∧
    words u !! "a" = Some 1%Z ∧
    inv_words u !! 1%Z = Some "a" ∧
    inv_words u !! 0%Z = Some "<pad>".
Proof.
  eexists _, _, _. split; [vm_compute; reflexivity|]. split; [vm_compute; reflexivity|].
  split; [vm_compute; reflexivity|]. repeat split; vm_compute; reflexivity.
Qed.

(** C5 (as amended).  In a finalized vocabulary, encoding a word that is
    present returns its index whenever the allow-any-word policy is on or
    that index is not the unknown-token index; encoding a word that is
    absent fails exactly when the allow-any-word policy is off, whether
    or not an unknown-token mapping exists, and otherwise returns the
    reserved unknown-token index. *)
Theorem process_word_finalized (v0 v : WordVocabulary) (w : string) :
  finalize v0 = Some v →
  (∀ i, words v !! w = Some i →
     allow_any_word v = true ∨ _unk_index v ≠ Some (Some i) →
     _process_word v w = Some (Some i)) ∧
  (words v !! w = None →
     (_process_word v w = None ↔ allow_any_word v = false) ∧
     (allow_any_word v = true →
        ∃ u, _unk_index v = Some (Some u) ∧ _process_word v w = Some (Some u))).
Proof.
  intros (Hw & _ & _ & Hallow & _ & unk & Hunk & _ & Hsome)%finalize_Some. split.
  - intros i Hi Hok. apply (process_word_known v w i unk Hunk Hi).
    destruct Hok as [?|Hne]; [by left|right]. congruence.
  - intros Hi. rewrite (process_word_absent v w unk Hunk Hi). split.
    + destruct (allow_any_word v); split; done.
    + intros Hon. rewrite Hon. rewrite <- Hallow in Hsome.
      destruct (Hsome Hon) as [u ->]. by exists u.
Qed.

Lemma process_word_finalized_witness :
  let v0 := _add_list ["<unk>"; "a"] (_add_word "<pad>" (mkWordVocabulary ∅ ∅ None true false true)) in
  ∃ v, finalize v0 = Some v ∧
       _process_word v "a" = Some (Some 2%Z) ∧
       _process_word v "zzz" = Some (Some 1%Z).
Proof.
  intros v0.
  assert (Hf : finalize v0 = Some (mkWordVocabulary (words v0) (inv_words v0) (Some (Some 1%Z))
                                     true true true)) by (vm_compute; reflexivity).
  eexists. split; [exact Hf|].
  destruct (process_word_finalized v0 _ "a" Hf) as [Hpresent _].
  destruct (process_word_finalized v0 _ "zzz" Hf) as [_ Habsent].
  split.
  - apply Hpresent; [vm_compute; reflexivity | by left].
  - destruct Habsent as [_ Hon]; [vm_compute; reflexivity|].
    destruct (Hon eq_refl) as (u & Hu & ->). simpl in Hu. by injection Hu as <-.
Defined.

(** An unknown-token mapping exists and the allow-any-word policy is
    off: encoding an absent word fails all the same. *)
Lemma process_word_fails_despite_unk :
  ∃ v,
    WordVocabulary_init ascii_findall (Some [STokens ["<unk>"; "a"]]) false true = Some v ∧
    initialized v = true ∧
    words v !! "<unk>" = Some 1%Z ∧
    _unk_index v = Some (Some 1%Z) ∧
    allow_any_word v = false ∧
    words v !! "zzz" = None ∧
    _process_word v "zzz" = None.
Proof.
  eexists. split; [vm_compute; reflexivity|]. repeat split; vm_compute; reflexivity.
Qed.

(** C6 (as amended).  For every word vocabulary built from a corpus in
    which the token "<pad>" does not occur, and every sentence made of
    known tokens none of which sits at the unknown-token index unless the
    allow-any-word policy is on, decoding the encoded sentence gives the
    sentence back; and for every character vocabulary and every string
    whose characters are all in its alphabet, decoding the encoded string
    gives the string back. *)
Theorem encode_decode_round_trip :
  (∀ (findall_words : string → list string) corpus allow split v (s : list string),
     WordVocabulary_init findall_words (Some corpus) allow split = Some v →
     Forall (λ c, "<pad>" ∉ split_sentence findall_words v c) corpus →
     Forall (λ w, w ∈ dom (words v)) s →
     allow_any_word v = true ∨ Forall (λ w, _unk_index v ≠ Some (words v !! w)) s →
     ∃ indices : list Z,
       sentence_to_indices findall_words v (STokens s) = Some (Some <$> indices) ∧
       indices_to_sentence v indices = Some s) ∧
  (∀ v0 chars v (s : string),
     from_set v0 chars = Some v →
     Forall (λ c, KStr c ∈ dom (to_index v)) (chars_of s) →
     ∃ indices : list Z, str_to_ind v s = Some indices ∧ ind_to_str v indices = Some s).
Proof.
  split.
  - intros findall_words corpus allow split v s Hinit Hpad Hknown Hok.
    destruct (init_corpus_consistent findall_words corpus allow split v Hinit Hpad)
      as (Hc & Hi & _).
    unfold WordVocabulary_init in Hinit.
    apply finalize_Some in Hinit as (_ & _ & _ & _ & _ & unk & Hunk & _).
    apply (word_round_trip_consistent findall_words v unk s Hc Hi Hunk Hknown).
    destruct Hok as [?|Hok]; [by left|right].
    eapply Forall_impl; [exact Hok|]. intros w Hw. simpl in Hw. congruence.
  - intros v0 chars v s. apply char_round_trip_from_set.
Qed.

Lemma encode_decode_round_trip_witness :
  (∃ v, WordVocabulary_init ascii_findall (Some [SRaw "a b"; SRaw "b c"]) false true = Some v ∧
        ∃ indices : list Z,
          sentence_to_indices ascii_findall v (STokens ["b"; "a"; "c"]) = Some (Some <$> indices) ∧
          indices_to_sentence v indices = Some ["b"; "a"; "c"]) ∧
  (∃ v, from_set (mkCharVocabulary false (Some (KStr "b")) (Some 1%Z) ∅ ∅)
          {[KStr "a"; KStr "b"; KStr "c"]} = Some v ∧
        ∃ indices : list Z, str_to_ind v "cab" = Some indices ∧ ind_to_str v indices = Some "cab").
Proof.
  split.
  - eexists. split; [vm_compute; reflexivity|].
    eapply (proj1 encode_decode_round_trip ascii_findall [SRaw "a b"; SRaw "b c"] false true).
    + vm_compute; reflexivity.
    + decide_by_compute.
    + decide_by_compute.
    + right. decide_by_compute.
  - eexists. split; [vm_compute; reflexivity|].
    eapply (proj2 encode_decode_round_trip
              (mkCharVocabulary false (Some (KStr "b")) (Some 1%Z) ∅ ∅)
              {[KStr "a"; KStr "b"; KStr "c"]}).
    + vm_compute; reflexivity.
    + decide_by_compute.
Defined.

(** A finalized vocabulary with the allow-any-word policy off in which
    "<unk>" is a known token: the sentence ["<unk>"] cannot even be
    encoded, so it is not recovered. *)
Lemma round_trip_fails_on_unk_token :
  ∃ v,
    WordVocabulary_init ascii_findall (Some [STokens ["<unk>"; "a"]]) false true = Some v ∧
    initialized v = true ∧
    Forall (λ w, w ∈ dom (words v)) ["<unk>"] ∧
    sentence_to_indices ascii_findall v (STokens ["<unk>"]) = None.
Proof.
  eexists. split; [vm_compute; reflexivity|]. split; [reflexivity|]. split.
  - decide_by_compute.
  - vm_compute; reflexivity.
Qed.

(** C7.  In an initialized vocabulary, decoding an integer that has no
    entry returns the placeholder "<!INV: i!>" built from the decimal
    form of the index, and decoding any list of integers succeeds. *)
Theorem decode_never_fails (v : WordVocabulary) :
  initialized v = true →
  (∀ i : Z, inv_words v !! i = None →
     _process_index v i = "<!INV: " +:+ pretty i +:+ "!>" ∧
     indices_to_sentence v [i] = Some ["<!INV: " +:+ pretty i +:+ "!>"]) ∧
  (∀ indices : list Z,
     ∃ ws, indices_to_sentence v indices = Some ws ∧ length ws = length indices).
Proof.
  intros Hinit. split.
  - intros i Hi. unfold indices_to_sentence, _process_index. rewrite Hinit. simpl.
    by rewrite Hi.
  - intros indices. unfold indices_to_sentence. rewrite Hinit. eexists. split; [done|].
    by rewrite length_fmap.
Qed.

Lemma decode_never_fails_witness :
  ∃ v,
    WordVocabulary_init ascii_findall (Some [SRaw "a b"; SRaw "b c"]) false true = Some v ∧
    initialized v = true ∧
    _process_index v 2%Z = "b" ∧
    _process_index v 99%Z = "<!INV: 99!>" ∧
    _process_index v (-3)%Z = "<!INV: -3!>" ∧
    ∃ ws, indices_to_sentence v [2; 99; -3]%Z = Some ws ∧ length ws = 3.
Proof.
  eexists. split; [vm_compute; reflexivity|].
  match goal with |- initialized ?v = true ∧ _ =>
    assert (Hinit : initialized v = true) by reflexivity;
    destruct (decode_never_fails v Hinit) as [Hinv Htotal] end.
  split; [done|]. split; [vm_compute; reflexivity|].
  split; [exact (proj1 (Hinv 99%Z ltac:(vm_compute; reflexivity)))|].
  split; [exact (proj1 (Hinv (-3)%Z ltac:(vm_compute; reflexivity)))|].
  exact (Htotal [2; 99; -3]%Z).
Defined.

(** C9.  Calling a word vocabulary on [None] or on the empty list gives
    the argument back, whatever the state of the vocabulary: no
    initialization check is made on this path. *)
Theorem call_passes_empty_input (findall_words : string → list string)
    (v : WordVocabulary) :
  WordVocabulary_call findall_words v SeqNone = Some SeqNone ∧
  WordVocabulary_call findall_words v (SeqList []) = Some (SeqList []).
Proof. split; reflexivity. Qed.

(** On any other argument the call of a vocabulary that was never
    finalized or loaded stops at the initialization check. *)
Lemma call_checks_initialization (findall_words : string → list string)
    (v : WordVocabulary) (s : string) (x : pyitem) (l : list pyitem) :
  initialized v = false →
  WordVocabulary_call findall_words v (SeqStr s) = None ∧
  WordVocabulary_call findall_words v (SeqList (x :: l)) = None.
Proof.
  intros Hinit. unfold WordVocabulary_call, sentence_to_indices. rewrite Hinit.
  split; [done|]. by destruct x.
Qed.

(** C10.  The snapshot of a character vocabulary holds the set of its
    characters and nothing else.  Restoring it runs [from_set] on that
    set with the restoring instance's own [ignore_char] and
    [ignore_char_idx], which are kept, and it succeeds on every set of
    strings.  When the restoring instance has no [ignore_char], the
    restored tables number the characters in sorted order, whatever the
    indices were in the saved vocabulary.  When it has one, the tables
    number the list made of the other characters in sorted order with the
    ignore character spliced in at the slice position [ignore_char_idx]:
    for an index [k] between 0 and the number of other characters the
    ignore character gets index [k], the characters sorted before
    position [k] keep their rank and the later ones are shifted by one. *)
Theorem snapshot_restore_rebuilds_indices (saved v : CharVocabulary)
    (state : gmap string (gset pykey)) :
  CharVocabulary_state_dict saved = Some state →
  let chars := dom (to_index saved) in
  state = {[ "chars" := chars ]} ∧
  CharVocabulary_load_state_dict v state = from_set v chars ∧
  ((∀ c, c ∈ chars → is_KStr c = true) →
     is_Some (CharVocabulary_load_state_dict v state)) ∧
  ∀ restored, CharVocabulary_load_state_dict v state = Some restored →
    cv_initialized restored = true ∧
    ignore_char restored = ignore_char v ∧
    ignore_char_idx restored = ignore_char_idx v ∧
    (ignore_char v = None →
       ∃ l, Sorted key_le l ∧ l ≡ₚ elements chars ∧
            (∀ c z, to_index restored !! c = Some z ↔ ∃ i, z = Z.of_nat i ∧ l !! i = Some c) ∧
            (∀ z c, from_index restored !! z = Some c ↔ ∃ i, z = Z.of_nat i ∧ l !! i = Some c)) ∧
    (∀ ig, ignore_char v = Some ig →
       ∃ noig, Sorted key_le noig ∧ noig ≡ₚ elements (chars ∖ {[ig]}) ∧
         let l := py_slice_to noig (ignore_char_idx v) ++ [ig]
                  ++ py_slice_from noig (ignore_char_idx v) in
         (∀ z c, from_index restored !! z = Some c ↔ ∃ i, z = Z.of_nat i ∧ l !! i = Some c) ∧
         (∀ c z, to_index restored !! c = Some z ↔
                 ∃ i, z = Z.of_nat i ∧ l !! i = Some c ∧ c ∉ drop (S i) l) ∧
         (∀ k, ignore_char_idx v = Some k →
               (0 ≤ k ≤ Z.of_nat (size (chars ∖ {[ig]})))%Z →
            to_index restored !! ig = Some k ∧
            from_index restored !! k = Some ig ∧
            (∀ c z, to_index restored !! c = Some z ↔ from_index restored !! z = Some c) ∧
            (∀ i c, noig !! i = Some c →
               to_index restored !! c
               = Some (if (Z.of_nat i <? k)%Z then Z.of_nat i else Z.of_nat (S i))))).
Proof.
  intros Hst chars. unfold CharVocabulary_state_dict in Hst.
  destruct (cv_initialized saved); [|done]. injection Hst as <-. fold chars.
  split; [done|].
  unfold CharVocabulary_load_state_dict. rewrite lookup_singleton_eq. cbn [mbind option_bind].
  split; [done|]. split; [apply from_set_is_Some|].
  intros restored Hrest.
  destruct (from_set_list v chars restored Hrest) as (l & Hto & Hfrom & Hinit & Hl).
  assert (Hflags : ignore_char restored = ignore_char v ∧
                   ignore_char_idx restored = ignore_char_idx v).
  { unfold from_set in Hrest. apply bind_Some in Hrest as (l' & _ & [= <-]). done. }
  destruct Hflags as [Hf1 Hf2].
  split; [done|]. split; [done|]. split; [done|]. split.
  - intros Hnone. rewrite Hnone in Hl. exists l.
    pose proof (sorted_keys_NoDup _ _ Hl) as Hnd.
    apply sorted_keys_Some in Hl as [Hsorted Hperm].
    split; [done|]. split; [done|]. rewrite Hto, Hfrom. split.
    + intros c z. by apply to_index_lookup_NoDup.
    + intros z c. apply from_index_lookup.
  - intros ig Hig. rewrite Hig in Hl. destruct Hl as (noig & Hnoig & ->).
    exists noig.
    pose proof (sorted_keys_NoDup _ _ Hnoig) as Hnd.
    pose proof (length_sorted_keys _ _ Hnoig) as Hlen.
    assert (Hnotin : ig ∉ noig).
    { rewrite (elem_of_sorted_keys _ _ ig Hnoig), elem_of_difference, elem_of_singleton. tauto. }
    apply sorted_keys_Some in Hnoig as [Hsorted Hperm].
    split; [done|]. split; [done|]. cbv zeta. rewrite Hto, Hfrom.
    split; [intros z c; apply from_index_lookup|].
    split; [intros c z; apply to_index_lookup_iff|].
    intros k Hk Hrange. rewrite Hk. cbn [py_slice_to py_slice_from].
    assert (Hb : slice_bound (length noig) k = Z.to_nat k).
    { unfold slice_bound. destruct (Z.ltb_spec k 0); [lia|done]. }
    rewrite Hb. set (p := Z.to_nat k).
    assert (Hp : p ≤ length noig) by lia.
    pose proof (pinned_list_NoDup noig ig p Hnd Hnotin) as HL.
    destruct (pinned_list_lookup noig ig p Hp) as [Hpin Hother].
    split; [|split; [|split]].
    + apply to_index_lookup_NoDup; [done|]. exists p. split; [lia|done].
    + apply from_index_lookup. exists p. split; [lia|done].
    + intros c z. by rewrite to_index_lookup_NoDup, from_index_lookup.
    + intros i c Hi. apply to_index_lookup_NoDup; [done|].
      specialize (Hother i c Hi).
      destruct (decide (i < p)) as [Hlt|Hge], (Z.ltb_spec (Z.of_nat i) k); try lia.
      * by exists i.
      * by exists (S i).
Qed.

Lemma snapshot_restore_rebuilds_indices_witness :
  let saved := mkCharVocabulary true (Some (KStr "c")) (Some 0%Z)
                 (py_dict [(KStr "c", 0%Z); (KStr "a", 1%Z); (KStr "b", 2%Z)])
                 (py_dict [(0%Z, KStr "c"); (1%Z, KStr "a"); (2%Z, KStr "b")]) in
  let v := mkCharVocabulary false (Some (KStr "b")) (Some 2%Z) ∅ ∅ in
  let state := {[ "chars" := dom (to_index saved) ]} in
  let restored := mkCharVocabulary true (Some (KStr "b")) (Some 2%Z)
                    (py_dict [(KStr "a", 0%Z); (KStr "c", 1%Z); (KStr "b", 2%Z)])
                    (py_dict [(0%Z, KStr "a"); (1%Z, KStr "c"); (2%Z, KStr "b")]) in
  (CharVocabulary_state_dict saved = Some state ∧
   CharVocabulary_load_state_dict v state = Some restored) ∧
  to_index restored !! KStr "b" = Some 2%Z ∧ from_index restored !! 2%Z = Some (KStr "b").
Proof.
  intros saved v state restored.
  assert (Hst : CharVocabulary_state_dict saved = Some state) by reflexivity.
  assert (Hrest : CharVocabulary_load_state_dict v state = Some restored)
    by (vm_compute; reflexivity).
  split; [exact (conj Hst Hrest)|].
  destruct (snapshot_restore_rebuilds_indices saved v state Hst) as (_ & _ & _ & Hall).
  destruct (Hall restored Hrest) as (_ & _ & _ & _ & Hsome).
  destruct (Hsome (KStr "b") eq_refl) as (noig & _ & _ & _ & _ & Hpin).
  assert (Hrange : (0 ≤ 2 ≤ Z.of_nat (size (dom (to_index saved) ∖ {[KStr "b"]})))%Z)
    by (vm_compute; split; discriminate).
  destruct (Hpin 2%Z eq_refl Hrange) as (H1 & H2 & _).
  exact (conj H1 H2).
Defined.

(** * Further properties of the collator *)

Lemma foldM_elem_None {A B : Type} (f : B → A → option B) (l : list A) (x : A) :
  x ∈ l → (∀ b, f b x = None) → ∀ b, foldM f b l = None.
Proof.
  intros Hin Hx. induction l as [|a l IH]; intros b; [by apply elem_of_nil in Hin|].
  cbn [foldM]. apply elem_of_cons in Hin as [<-|Hin].
  - by rewrite Hx.
  - destruct (f b a); [by apply IH | done].
Qed.

Lemma batch_index_restore bd i oidx :
  oidx !! bd = Some i → batch_index bd i (delete bd oidx) = oidx.
Proof.
  revert oidx. unfold batch_index. induction bd as [|bd IH]; intros oidx H.
  - destruct oidx; [done|]. simpl in *. rewrite drop_0. congruence.
  - destruct oidx as [|a oidx]; [done|]. simpl in *. f_equal. by apply IH.
Qed.

Lemma attained_step max_size different ns seen :
  length different = length max_size → length ns = length max_size →
  Forall (covered max_size different) seen →
  attained max_size different seen →
  attained (max_shapes max_size ns) (mark_different different max_size ns) (seen ++ [ns]).
Proof.
  intros Hd Hn Hcov Hatt j m Hm. unfold max_shapes, mark_different in *.
  rewrite lookup_zip_with in Hm. rewrite !lookup_zip_with.
  destruct (max_size !! j) as [sj|] eqn:Hs; simpl in *; [|done].
  destruct (ns !! j) as [nj|] eqn:Hnj; simpl in *; [|done].
  injection Hm as <-. destruct (Hatt j sj Hs) as [(sh & Hsh & Hshj) Htrue].
  assert (Hmax : ∃ sh', sh' ∈ seen ++ [ns] ∧ sh' !! j = Some (sj `max` nj)).
  { destruct (Nat.max_spec sj nj) as [[_ ->]|[_ ->]].
    - exists ns. split; [|done]. apply elem_of_app. right. by apply list_elem_of_singleton.
    - exists sh. split; [|done]. apply elem_of_app. by left. }
  split; [done|].
  destruct (different !! j) as [dj|]; simpl; [|done]. intros [= Hor].
  apply orb_true_iff in Hor as [->|Hne].
  - destruct (Htrue eq_refl) as (sh' & x & Hsh' & Hx & Hlt).
    exists sh', x. split; [apply elem_of_app; by left|]. split; [done|lia].
  - apply negb_true_iff, Nat.eqb_neq in Hne.
    destruct (decide (sj < nj)).
    + exists sh, sj. split; [apply elem_of_app; by left|]. split; [done|lia].
    + exists ns, nj. split; [apply elem_of_app; right; by apply list_elem_of_singleton|].
      split; [done|lia].
Qed.

Section MeasureProofs.
Context {V : Type}.
Implicit Types (d : tensor V) (batch : list (tensor V)).

Lemma measure_fold_attained rest : ∀ s different seen max_size different',
  length different = length s →
  Forall (λ d, length (t_shape d) = length s) rest →
  Forall (covered s different) seen →
  attained s different seen →
  foldM (λ acc b, measure_step acc (t_shape b)) (s, different) rest
    = Some (max_size, different') →
  attained max_size different' (seen ++ (t_shape <$> rest)).
Proof.
  induction rest as [|b rest IH]; intros s different seen M D Hd Hr Hseen Hatt; cbn [foldM].
  - intros [= <- <-]. simpl. by rewrite app_nil_r.
  - inversion Hr as [|? ? Hb Hrest]; subst.
    rewrite measure_step_Some by done. cbn [mbind option_bind]. intros HM.
    assert (Hl1 : length (mark_different different s (t_shape b)) = length s).
    { unfold mark_different. rewrite !length_zip_with. lia. }
    assert (Hl2 : length (max_shapes s (t_shape b)) = length s).
    { unfold max_shapes. rewrite length_zip_with. lia. }
    cbn [fmap list_fmap]. rewrite (cons_middle (t_shape b)), app_assoc.
    apply (IH (max_shapes s (t_shape b)) (mark_different different s (t_shape b))); try done.
    + lia.
    + eapply Forall_impl; [exact Hrest|]. simpl. intros; lia.
    + apply Forall_app. split.
      * eapply Forall_impl; [exact Hseen|]. intros sh. by apply covered_step.
      * constructor; [|constructor]. by apply covered_new.
    + by apply attained_step.
Qed.

(** X1.  On a non-empty batch of arrays of one rank [r],
    [_measure_array_max_dim] returns two lists of length [r]: in every
    dimension the first holds the largest size found in the batch, a
    size that some element has, and the second is [True] exactly when
    some element is smaller than that in this dimension, that is when
    the sizes are not all equal. *)
Theorem measure_array_max_dim_characterised batch (r : nat) :
  batch ≠ [] →
  Forall (λ d, length (t_shape d) = r) batch →
  ∃ max_size different,
    _measure_array_max_dim batch = Some (max_size, different) ∧
    length max_size = r ∧ length different = r ∧
    ∀ j, j < r →
      ∃ m b, max_size !! j = Some m ∧ different !! j = Some b ∧
        (∀ d, d ∈ batch → ∃ x, t_shape d !! j = Some x ∧ x ≤ m) ∧
        (∃ d, d ∈ batch ∧ t_shape d !! j = Some m) ∧
        (b = true ↔ ∃ d, d ∈ batch ∧ t_shape d !! j ≠ Some m).
Proof.
  intros Hne Hr.
  destruct (measure_array_max_dim_Some batch r Hne Hr) as (M & D & Hm & HlM & HlD & Hcov).
  exists M, D. split; [done|]. split; [done|]. split; [done|]. intros j Hj.
  destruct (lookup_lt_is_Some_2 M j) as [m Hmj]; [lia|].
  destruct (lookup_lt_is_Some_2 D j) as [b Hbj]; [lia|].
  exists m, b. split; [done|]. split; [done|].
  assert (Hatt : attained M D (t_shape <$> batch)).
  { destruct batch as [|b0 rest]; [done|]. pose proof Hr as [Hb0 Hrest]%Forall_cons.
    simpl in Hm. change (t_shape <$> b0 :: rest) with ([t_shape b0] ++ (t_shape <$> rest)).
    apply (measure_fold_attained rest (t_shape b0) (replicate (length (t_shape b0)) false)
             [t_shape b0] M D).
    - by rewrite length_replicate.
    - eapply Forall_impl; [exact Hrest|]. simpl. intros; congruence.
    - constructor; [|constructor]. split; [done|]. intros k x m' Hx Hm'.
      rewrite Hx in Hm'. injection Hm' as <-. split; [lia|done].
    - intros k m' Hm'. split.
      + exists (t_shape b0). split; [by apply list_elem_of_singleton|done].
      + intros Htrue. apply lookup_replicate in Htrue as [? _]. done.
    - exact Hm. }
  destruct (Hatt j m Hmj) as [(sh & Hsh & Hshj) Htrue].
  split; [|split; [|split]].
  - intros d Hd. destruct (proj1 (Forall_forall _ _) Hcov d Hd) as [Hlen Hc].
    destruct (lookup_lt_is_Some_2 (t_shape d) j) as [x Hx]; [lia|].
    exists x. split; [done|]. by destruct (Hc j x m Hx Hmj).
  - apply list_elem_of_fmap in Hsh as (d & -> & Hd). by exists d.
  - intros ->. destruct (Htrue Hbj) as (sh' & x & Hsh' & Hx & Hlt).
    apply list_elem_of_fmap in Hsh' as (d & -> & Hd). exists d. split; [done|].
    rewrite Hx. intros [= ->]. lia.
  - intros (d & Hd & Hne'). destruct b; [done|]. exfalso. apply Hne'.
    destruct (proj1 (Forall_forall _ _) Hcov d Hd) as [Hlen Hc].
    destruct (lookup_lt_is_Some_2 (t_shape d) j) as [x Hx]; [lia|].
    destruct (Hc j x m Hx Hmj) as [_ Heq]. rewrite Hx. f_equal. by apply Heq.
Qed.
End MeasureProofs.

Lemma measure_array_max_dim_characterised_witness :
  let batch := [Tensor [2; 3] (replicate 6 0%Z); Tensor [4; 3] (replicate 12 0%Z)] in
  (batch ≠ [] ∧ Forall (λ d, length (t_shape d) = 2) batch) ∧
  _measure_array_max_dim batch = Some ([4; 3], [true; false]) ∧
  ∃ max_size different,
    _measure_array_max_dim batch = Some (max_size, different) ∧
    length max_size = 2 ∧ length different = 2 ∧
    ∀ j, j < 2 →
      ∃ m b, max_size !! j = Some m ∧ different !! j = Some b ∧
        (∀ d, d ∈ batch → ∃ x, t_shape d !! j = Some x ∧ x ≤ m) ∧
        (∃ d, d ∈ batch ∧ t_shape d !! j = Some m) ∧
        (b = true ↔ ∃ d, d ∈ batch ∧ t_shape d !! j ≠ Some m).
Proof.
  intros batch.
  assert (H1 : batch ≠ []) by done.
  assert (H2 : Forall (λ d, length (t_shape d) = 2) batch) by (repeat constructor).
  split; [done|]. split; [reflexivity|].
  exact (measure_array_max_dim_characterised batch 2 H1 H2).
Defined.

Lemma length_indices s : length (indices s) = numel s.
Proof. by rewrite <- (length_fmap (λ idx, dot idx (contiguous_strides s))), dot_indices, length_seq. Qed.

Lemma numel_batch_index bd n s : numel (batch_index bd n s) = n * numel s.
Proof.
  unfold batch_index. revert s. induction bd as [|bd IH]; intros s.
  - by rewrite drop_0.
  - destruct s as [|a s]; [simpl; lia|]. simpl. fold (numel s).
    change (foldr Nat.mul 1 (take bd s ++ n :: drop bd s)) with (numel (take bd s ++ n :: drop bd s)).
    rewrite IH. lia.
Qed.

Lemma concat_lookup_uniform {A : Type} (ls : list (list A)) (P i q : nat) (l : list A) :
  Forall (λ x, length x = P) ls → ls !! i = Some l → q < P →
  concat ls !! (i * P + q) = l !! q.
Proof.
  intros Hall. revert i. induction Hall as [|x ls Hx _ IH]; intros i Hi Hq; [done|].
  destruct i as [|i]; simpl in *.
  - injection Hi as ->. rewrite lookup_app_l by lia. done.
  - rewrite lookup_app_r by lia. rewrite <- (IH i Hi Hq). f_equal. lia.
Qed.

Lemma length_concat_uniform {A : Type} (P : nat) (ls : list (list A)) :
  Forall (λ x, length x = P) ls → length (concat ls) = length ls * P.
Proof.
  induction 1 as [|x ls Hx _ IH]; [done|]. simpl. rewrite length_app, IH. lia.
Qed.

Section CollateExtras.
Context {V : Type}.
Variable zero : V.
Implicit Types (d : tensor V) (batch : list (tensor V)).

(** Two well-formed tensors of one shape that agree at every multi-index are equal. *)
Lemma tensor_ext (t1 t2 : tensor V) :
  t_shape t1 = t_shape t2 → tensor_wf t1 → tensor_wf t2 →
  (∀ idx, Forall2 lt idx (t_shape t1) → tensor_get t1 idx = tensor_get t2 idx) →
  t1 = t2.
Proof.
  destruct t1 as [s1 d1], t2 as [s2 d2]. unfold tensor_wf, tensor_get. simpl.
  intros <- Hw1 Hw2 Hget. f_equal. apply list_eq. intros p.
  destruct (decide (p < numel s1)) as [Hp|Hp].
  - destruct (lookup_lt_is_Some_2 (indices s1) p) as [idx Hidx]; [by rewrite length_indices|].
    assert (Hdot : dot idx (contiguous_strides s1) = p).
    { pose proof (f_equal (λ l, l !! p) (dot_indices s1)) as Hl. simpl in Hl.
      rewrite list_lookup_fmap, Hidx, lookup_seq_lt in Hl by done. simpl in Hl. congruence. }
    rewrite <- Hdot. apply Hget. apply elem_of_indices. by eapply list_elem_of_lookup_2.
  - rewrite !lookup_ge_None_2 by lia. done.
Qed.

Lemma measure_same_shape batch sh :
  batch ≠ [] → Forall (λ d, t_shape d = sh) batch →
  ∃ different, _measure_array_max_dim batch = Some (sh, different).
Proof.
  intros Hne Hall.
  destruct (measure_array_max_dim_Some batch (length sh) Hne) as (M & D & Hm & HlM & _ & Hcov).
  { eapply Forall_impl; [exact Hall|]. by intros d ->. }
  exists D. rewrite Hm. do 2 f_equal.
  destruct batch as [|b0 rest]; [done|]. apply Forall_cons in Hall as [Hb0 Hrest].
  simpl in Hm.
  assert (Hgen : ∀ rest' s diff M' D',
    Forall (λ d, t_shape d = sh) rest' → s = sh → length diff = length sh →
    foldM (λ acc b, measure_step acc (t_shape b)) (s, diff) rest' = Some (M', D') → M' = sh).
  { clear. induction rest' as [|b rest' IH]; intros s diff M' D' Hall -> Hd; cbn [foldM].
    - by intros [= <- _].
    - apply Forall_cons in Hall as [Hb Hall]. rewrite Hb.
      rewrite measure_step_Some by done. cbn [mbind option_bind].
      apply IH; [done | | unfold mark_different; rewrite !length_zip_with; lia].
      unfold max_shapes. apply list_eq. intros j. rewrite lookup_zip_with.
      destruct (sh !! j); simpl; [|done]. by rewrite Nat.max_id. }
  eapply (Hgen rest); [exact Hrest | exact Hb0 | | exact Hm].
  by rewrite length_replicate, Hb0.
Qed.

Lemma in_bounds_split bd n s oidx :
  bd ≤ length s → Forall2 lt oidx (batch_index bd n s) →
  ∃ i, oidx !! bd = Some i ∧ i < n ∧ Forall2 lt (delete bd oidx) s.
Proof.
  intros Hbd Hin. pose proof (Forall2_length _ _ _ Hin) as Hlen.
  rewrite length_batch_index in Hlen.
  destruct (lookup_lt_is_Some_2 oidx bd) as [i Hi]; [lia|]. exists i. split; [done|].
  rewrite <- (batch_index_restore bd i oidx Hi) in Hin.
  apply batch_index_Forall2 in Hin; [done|].
  rewrite length_delete by (by exists i). lia.
Qed.
End CollateExtras.

Section CollateExtraTheorems.
Context {V : Type}.
Variable zero : V.
Implicit Types (d : tensor V) (batch : list (tensor V)).

(** X2.  For a non-empty batch of well-formed arrays of one rank [r] and
    a batch dimension [0 <= bd <= r], the merge succeeds and returns one
    well-formed array: its shape is the list of largest sizes with the
    number of elements inserted at position [bd], and its storage has
    exactly [len(batch) * prod(max_size)] cells. *)
Theorem merge_output_shape (bd r : nat) (ignore_symbol : option V) batch :
  batch ≠ [] → Forall tensor_wf batch →
  Forall (λ d, length (t_shape d) = r) batch → bd ≤ r →
  ∃ max_size different out,
    _measure_array_max_dim batch = Some (max_size, different) ∧
    _merge_var_len_array zero (Z.of_nat bd) ignore_symbol batch = Some out ∧
    t_shape out = take bd max_size ++ length batch :: drop bd max_size ∧
    length (t_data out) = length batch * numel max_size.
Proof.
  intros Hne Hwf Hrank Hbd.
  destruct (merge_var_len_array_spec zero bd r (default zero ignore_symbol) batch
              Hne Hwf Hrank Hbd) as (M & D & out & Hm & Hout & Hshape & Hwfo & _).
  exists M, D, out. split; [done|]. split.
  - destruct ignore_symbol; exact Hout.
  - split; [done|]. rewrite Hwfo, Hshape. apply numel_batch_index.
Qed.

Lemma merge_same_shape_stack (ignore_symbol : option V) batch (sh : list nat) :
  batch ≠ [] → Forall tensor_wf batch → Forall (λ d, t_shape d = sh) batch →
  _merge_var_len_array zero 0%Z ignore_symbol batch
    = Some (Tensor (length batch :: sh) (concat (t_data <$> batch))).
Proof.
  intros Hne Hwf Hsh.
  assert (Hrank : Forall (λ d, length (t_shape d) = length sh) batch).
  { eapply Forall_impl; [exact Hsh|]. by intros d ->. }
  destruct (merge_var_len_array_spec zero 0 (length sh) (default zero ignore_symbol) batch
              Hne Hwf Hrank (Nat.le_0_l _)) as (M & D & out & Hm & Hout & Hshape & Hwfo & Hhit & _).
  destruct (measure_same_shape batch sh Hne Hsh) as [D' Hm'].
  rewrite Hm in Hm'. injection Hm' as -> _.
  assert (Hlens : Forall (λ x, length x = numel sh) (t_data <$> batch)).
  { apply Forall_fmap, Forall_forall. intros d Hd. simpl.
    rewrite (proj1 (Forall_forall _ _) Hwf d Hd). f_equal.
    by apply (proj1 (Forall_forall _ _) Hsh d Hd). }
  replace (_merge_var_len_array zero 0%Z ignore_symbol batch) with (Some out)
    by (destruct ignore_symbol; by rewrite <- Hout).
  f_equal. apply tensor_ext.
  - by rewrite Hshape.
  - done.
  - unfold tensor_wf. cbn [t_shape t_data].
    change (numel (length batch :: sh)) with (length batch * numel sh).
    rewrite (length_concat_uniform (numel sh)); [by rewrite length_fmap|done].
  - intros oidx Hoidx. rewrite Hshape in Hoidx.
    destruct (in_bounds_split 0 (length batch) sh oidx (Nat.le_0_l _) Hoidx) as (i & Hi & Hlt & Hin).
    destruct (lookup_lt_is_Some_2 batch i Hlt) as [d Hd].
    assert (Hshd : t_shape d = sh) by (by apply (proj1 (Forall_lookup _ _) Hsh i d)).
    rewrite <- (batch_index_restore 0 i oidx Hi) at 1.
    rewrite (Hhit i d (delete 0 oidx) Hd) by (by rewrite Hshd).
    destruct oidx as [|i' idx]; [done|]. simpl in Hi. injection Hi as ->.
    cbn [delete list_delete] in *. unfold tensor_get. cbn [t_shape t_data contiguous_strides].
    rewrite dot_cons, Hshd. symmetry. apply concat_lookup_uniform; [done| |by apply dot_lt].
    by rewrite list_lookup_fmap, Hd.
Qed.


(** X3.  A batch of identically shaped arrays merged along batch
    dimension 0 is their plain stack: the shape is the common shape
    behind the number of elements and the data is the concatenation of
    the elements' data, whatever the pad value. *)
Theorem merge_identical_shapes_stack (ignore_symbol : option V) batch (sh : list nat) :
  batch ≠ [] → Forall tensor_wf batch → Forall (λ d, t_shape d = sh) batch →
  _merge_var_len_array zero 0%Z ignore_symbol batch
    = Some (Tensor (length batch :: sh) (concat (t_data <$> batch))).
Proof. apply merge_same_shape_stack. Qed.

(** X4.  In the merge of identically shaped arrays no cell is padding:
    for a batch dimension within the rank, every cell of the output is
    the cell of the element whose batch index it carries, and the output
    is the same for every pad value. *)
Theorem merge_identical_shapes_no_padding (bd : nat) (pad pad' : V) batch (sh : list nat) :
  batch ≠ [] → Forall tensor_wf batch → Forall (λ d, t_shape d = sh) batch →
  bd ≤ length sh →
  ∃ out,
    _merge_var_len_array zero (Z.of_nat bd) (Some pad) batch = Some out ∧
    _merge_var_len_array zero (Z.of_nat bd) (Some pad') batch = Some out ∧
    ∀ oidx, Forall2 lt oidx (t_shape out) →
      ∃ i d, oidx !! bd = Some i ∧ batch !! i = Some d ∧
             tensor_get out oidx = tensor_get d (delete bd oidx).
Proof.
  intros Hne Hwf Hsh Hbd.
  assert (Hrank : Forall (λ d, length (t_shape d) = length sh) batch).
  { eapply Forall_impl; [exact Hsh|]. by intros d ->. }
  destruct (measure_same_shape batch sh Hne Hsh) as [D' Hm'].
  assert (Hcells : ∀ p out,
    _merge_var_len_array zero (Z.of_nat bd) (Some p) batch = Some out →
    t_shape out = batch_index bd (length batch) sh ∧ tensor_wf out ∧
    ∀ oidx, Forall2 lt oidx (t_shape out) →
      ∃ i d, oidx !! bd = Some i ∧ batch !! i = Some d ∧
             tensor_get out oidx = tensor_get d (delete bd oidx)).
  { intros p out Hout.
    destruct (merge_var_len_array_spec zero bd (length sh) p batch Hne Hwf Hrank Hbd)
      as (M & D & out' & Hm & Hout' & Hshape & Hwfo & Hhit & _).
    rewrite Hout in Hout'. injection Hout' as <-.
    rewrite Hm in Hm'. injection Hm' as -> _.
    split; [done|]. split; [done|]. intros oidx Hoidx. rewrite Hshape in Hoidx.
    destruct (in_bounds_split bd (length batch) sh oidx Hbd Hoidx) as (i & Hi & Hlt & Hin).
    destruct (lookup_lt_is_Some_2 batch i Hlt) as [d Hd]. exists i, d.
    split; [done|]. split; [done|].
    rewrite <- (batch_index_restore bd i oidx Hi) at 1. apply (Hhit i d _ Hd).
    by rewrite (proj1 (Forall_lookup _ _) Hsh i d Hd). }
  destruct (merge_var_len_array_spec zero bd (length sh) pad batch Hne Hwf Hrank Hbd)
    as (_ & _ & out & _ & Hout & _).
  destruct (merge_var_len_array_spec zero bd (length sh) pad' batch Hne Hwf Hrank Hbd)
    as (_ & _ & out' & _ & Hout' & _).
  destruct (Hcells pad out Hout) as (Hs1 & Hw1 & Hc1).
  destruct (Hcells pad' out' Hout') as (Hs2 & Hw2 & Hc2).
  assert (out' = out) as ->.
  { apply tensor_ext; [congruence | done | done |].
    intros oidx Hoidx.
    destruct (Hc2 oidx Hoidx) as (i & d & Hi & Hd & ->).
    destruct (Hc1 oidx) as (i' & d' & Hi' & Hd' & ->); [congruence|].
    congruence. }
  by exists out.
Qed.
End CollateExtraTheorems.

Lemma foldM_ext {A B : Type} (f g : B → A → option B) (l : list A) (b : B) :
  (∀ b x, f b x = g b x) → foldM f b l = foldM g b l.
Proof.
  intros Hfg. revert b. induction l as [|x l IH]; intros b; [done|].
  cbn [foldM]. rewrite Hfg. destruct (g b x); [apply IH | done].
Qed.

Lemma wrap_dim_lt n dim d : wrap_dim n dim = Some d → d < n.
Proof.
  unfold wrap_dim. case_bool_decide as H; [|done]. intros [= <-].
  destruct (Z.ltb_spec dim 0); lia.
Qed.

Lemma measure_step_length s diff ns s' diff' :
  measure_step (s, diff) ns = Some (s', diff') → length s' = length s.
Proof.
  unfold measure_step. intros (k1 & _ & (k2 & Hk2 & [= <- _])%bind_Some)%bind_Some.
  apply length_mapM in Hk2. rewrite length_seq in Hk2. congruence.
Qed.

Lemma measure_step_short s diff ns :
  length ns < length s → measure_step (s, diff) ns = None.
Proof.
  intros Hlt. unfold measure_step.
  assert (Hmax : mapM (λ j, sj ← s !! j; nj ← ns !! j; Some (sj `max` nj)) (seq 0 (length s))
                 = None).
  { apply mapM_None, Exists_exists. exists (length ns). split.
    - apply elem_of_seq. lia.
    - destruct (s !! length ns); [|done]. simpl. by rewrite lookup_ge_None_2. }
  rewrite Hmax. clear Hmax. destruct (mapM _ _); reflexivity.
Qed.

Lemma narrow_Some v dim start len v' :
  narrow v dim start len = Some v' →
  ∃ d, wrap_dim (length (v_sizes v)) dim = Some d ∧
       v_sizes v' = <[d := len]> (v_sizes v).
Proof.
  unfold narrow. destruct (wrap_dim _ dim) as [d|]; [|done]. cbn [mbind option_bind].
  destruct (v_sizes v !! d); [|done]. cbn [mbind option_bind].
  destruct (v_strides v !! d); [|done]. cbn [mbind option_bind].
  case_bool_decide; [|done]. intros [= <-]. by exists d.
Qed.

Lemma narrow_squeeze_length out bdim i v1 v2 :
  narrow out bdim i 1 = Some v1 → squeeze v1 bdim = Some v2 →
  S (length (v_sizes v2)) = length (v_sizes out).
Proof.
  intros (d & Hd & Hs)%narrow_Some. pose proof (wrap_dim_lt _ _ _ Hd) as Hlt.
  unfold squeeze. rewrite Hs, length_insert, Hd.
  destruct (<[d:=1]> (v_sizes out)) as [|a l] eqn:Hl.
  { apply (f_equal length) in Hl. rewrite length_insert in Hl. simpl in Hl. lia. }
  rewrite <- Hl. cbn [mbind option_bind].
  rewrite bool_decide_eq_true_2 by (by apply list_lookup_insert_eq).
  intros [= <-]. cbn [v_sizes]. rewrite length_delete, length_insert.
  - lia.
  - apply lookup_lt_is_Some_2. by rewrite length_insert.
Qed.

Section RankMismatch.
Context {V : Type}.
Variable zero : V.
Implicit Types (d : tensor V) (batch : list (tensor V)).

Lemma measure_fold_rank rest : ∀ s diff max_size different,
  foldM (λ acc b, measure_step acc (t_shape b)) (s, diff) rest = Some (max_size, different) →
  length max_size = length s ∧ Forall (λ d, length s ≤ length (t_shape d)) rest.
Proof.
  induction rest as [|b rest IH]; intros s diff M D; cbn [foldM].
  - intros [= <- _]. by split.
  - destruct (measure_step (s, diff) (t_shape b)) as [[s' diff']|] eqn:Hstep; [|done].
    cbn [mbind option_bind]. intros HM. apply IH in HM as [HlM Hrest].
    pose proof (measure_step_length _ _ _ _ _ Hstep) as Hl. split; [congruence|].
    constructor.
    + destruct (decide (length s ≤ length (t_shape b))); [done|].
      rewrite measure_step_short in Hstep by lia. done.
    + eapply Forall_impl; [exact Hrest|]. simpl. intros; lia.
Qed.

Lemma narrow_different_length different d : ∀ v v',
  narrow_different different d v = Some v' → length (v_sizes v') = length (v_sizes v).
Proof.
  unfold narrow_different. induction (seq 0 (length different)) as [|j js IH]; intros v v'.
  - by intros [= <-].
  - cbn [foldM]. destruct (match different !! j with Some true => _ | _ => _ end) as [v1|] eqn:Hv1;
      [|done]. cbn [mbind option_bind]. intros Hv'. rewrite (IH _ _ Hv').
    destruct (different !! j) as [[]|]; try (by injection Hv1 as <-).
    destruct (tensor_size d (Z.of_nat j)) as [n|]; [|done]. cbn [mbind option_bind] in Hv1.
    apply narrow_Some in Hv1 as (k & _ & ->). by rewrite length_insert.
Qed.

Lemma merge_element_higher_rank batch_dim different out storage i d :
  length (v_sizes out) ≤ length (t_shape d) →
  merge_element batch_dim different out storage i d = None.
Proof.
  intros Hrank. unfold merge_element.
  destruct (narrow out _ i 1) as [v1|] eqn:H1; [|done]. cbn [mbind option_bind].
  destruct (squeeze v1 _) as [v2|] eqn:H2; [|done]. cbn [mbind option_bind].
  destruct (narrow_different different d v2) as [v3|] eqn:H3; [|done]. cbn [mbind option_bind].
  pose proof (narrow_squeeze_length _ _ _ _ _ H1 H2) as Hl.
  apply narrow_different_length in H3.
  unfold copy_, broadcastable. rewrite bool_decide_eq_false_2 by lia. done.
Qed.

(** X5.  A batch in which some element has another rank than the first
    one is never merged: whatever the batch dimension and the pad value,
    [_merge_var_len_array] raises. *)
Theorem merge_rank_mismatch (batch_dim : Z) (ignore_symbol : option V) (b0 d : tensor V)
    (rest : list (tensor V)) :
  d ∈ rest → length (t_shape d) ≠ length (t_shape b0) →
  _merge_var_len_array zero batch_dim ignore_symbol (b0 :: rest) = None.
Proof.
  intros Hd Hne. unfold _merge_var_len_array.
  destruct (_measure_array_max_dim (b0 :: rest)) as [[M D]|] eqn:Hm; [|done].
  cbn [mbind option_bind]. simpl in Hm. apply measure_fold_rank in Hm as [HlM Hrest].
  pose proof (proj1 (Forall_forall _ _) Hrest d Hd) as Hge. simpl in Hge.
  apply list_elem_of_lookup in Hd as [i Hi].
  unfold merge_loop. rewrite (foldM_elem_None _ _ (S i, d)).
  - done.
  - apply list_elem_of_lookup. exists (S i). apply lookup_zip_with_Some.
    exists (S i), d. split; [done|]. split; [|done].
    apply lookup_seq. split; [done|]. apply lookup_lt_Some in Hi. simpl. lia.
  - intros st. cbn [fst snd]. apply merge_element_higher_rank.
    cbn [v_sizes]. rewrite length_out_shape. lia.
Qed.
End RankMismatch.

Lemma merge_rank_mismatch_witness :
  let b0 := Tensor [2] [1; 2]%Z in
  let d := Tensor [1; 2] [3; 4]%Z in
  (d ∈ [d] ∧ length (t_shape d) ≠ length (t_shape b0)) ∧
  _merge_var_len_array 0%Z 1%Z (Some 0%Z) [b0; d] = None.
Proof.
  intros b0 d.
  assert (H1 : d ∈ [d]) by (apply list_elem_of_singleton; reflexivity).
  assert (H2 : length (t_shape d) ≠ length (t_shape b0)) by (simpl; lia).
  split; [done|]. exact (merge_rank_mismatch 0%Z 1%Z (Some 0%Z) b0 d [d] H1 H2).
Defined.

Section ScalarBatch.
Context {V : Type}.
Variable zero : V.
Implicit Types (d : tensor V) (batch : list (tensor V)).

(** For 0-dim elements the slice is taken along dimension 0 whatever the
    non-negative batch dimension, so every such merge is the merge along
    dimension 0. *)
Lemma merge_scalars_any_batch_dim (batch_dim : Z) (ignore_symbol : option V) batch :
  (0 ≤ batch_dim)%Z → Forall (λ d, t_shape d = []) batch →
  _merge_var_len_array zero batch_dim ignore_symbol batch
    = _merge_var_len_array zero 0%Z ignore_symbol batch.
Proof.
  intros Hbd Hsh. destruct batch as [|b0 rest]; [done|].
  destruct (measure_same_shape (b0 :: rest) [] ltac:(done) Hsh) as [D Hm].
  unfold _merge_var_len_array. rewrite Hm. cbn [mbind option_bind].
  assert (Hs : ∀ bd n, out_shape bd [] n = [n]).
  { intros bd n. unfold out_shape, py_slice_to, py_slice_from. by rewrite take_nil, drop_nil. }
  rewrite !Hs. unfold merge_loop.
  rewrite (foldM_ext _ (λ st p, merge_element 0%Z D
             (View 0 [length (b0 :: rest)] (contiguous_strides [length (b0 :: rest)]))
             st p.1 p.2)); [done|].
  intros st p. unfold merge_element, slice_dim. cbn [v_sizes length].
  destruct (Z.gtb_spec (Z.of_nat 1) batch_dim) as [Hgt|Hle]; [|done].
  by replace batch_dim with 0%Z by lia.
Qed.

(** X6.  A batch of 0-dim arrays is merged into the vector of their
    values for every batch dimension [>= 0]: with no dimension to insert
    the batch dimension into, the slice falls back to dimension 0. *)
Theorem merge_scalars (batch_dim : Z) (ignore_symbol : option V) batch :
  (0 ≤ batch_dim)%Z → batch ≠ [] → Forall tensor_wf batch →
  Forall (λ d, t_shape d = []) batch →
  _merge_var_len_array zero batch_dim ignore_symbol batch
    = Some (Tensor [length batch] (concat (t_data <$> batch))).
Proof.
  intros Hbd Hne Hwf Hsh. rewrite merge_scalars_any_batch_dim by done.
  by apply merge_same_shape_stack.
Qed.
End ScalarBatch.

Lemma merge_scalars_witness :
  let batch := [Tensor [] [5%Z]; Tensor [] [6%Z]; Tensor [] [7%Z]] in
  ((0 ≤ 1)%Z ∧ batch ≠ [] ∧ Forall tensor_wf batch ∧ Forall (λ d, t_shape d = []) batch) ∧
  _merge_var_len_array 0%Z 1%Z (Some 9%Z) batch = Some (Tensor [3] [5; 6; 7]%Z).
Proof.
  intros batch.
  assert (H1 : (0 ≤ 1)%Z) by lia.
  assert (H2 : batch ≠ []) by done.
  assert (H3 : Forall tensor_wf batch) by (repeat constructor).
  assert (H4 : Forall (λ d, t_shape d = []) batch) by (repeat constructor).
  split; [done|]. exact (merge_scalars 0%Z 1%Z (Some 9%Z) batch H1 H2 H3 H4).
Defined.

Lemma merge_output_shape_witness :
  let batch := [Tensor [2; 1] [1; 2]%Z; Tensor [1; 3] [4; 5; 6]%Z] in
  (batch ≠ [] ∧ Forall tensor_wf batch ∧ Forall (λ d, length (t_shape d) = 2) batch ∧ 1 ≤ 2) ∧
  ∃ max_size different out,
    _measure_array_max_dim batch = Some (max_size, different) ∧
    _merge_var_len_array 0%Z (Z.of_nat 1) (Some 9%Z) batch = Some out ∧
    t_shape out = take 1 max_size ++ length batch :: drop 1 max_size ∧
    length (t_data out) = length batch * numel max_size.
Proof.
  intros batch.
  assert (H1 : batch ≠ []) by done.
  assert (H2 : Forall tensor_wf batch) by (repeat constructor).
  assert (H3 : Forall (λ d, length (t_shape d) = 2) batch) by (repeat constructor).
  assert (H4 : 1 ≤ 2) by lia.
  split; [done|]. exact (merge_output_shape 0%Z 1 2 (Some 9%Z) batch H1 H2 H3 H4).
Defined.

Lemma merge_identical_shapes_stack_witness :
  let batch := [Tensor [2] [1; 2]%Z; Tensor [2] [3; 4]%Z; Tensor [2] [5; 6]%Z] in
  (batch ≠ [] ∧ Forall tensor_wf batch ∧ Forall (λ d, t_shape d = [2]) batch) ∧
  _merge_var_len_array 0%Z 0%Z None batch = Some (Tensor [3; 2] [1; 2; 3; 4; 5; 6]%Z).
Proof.
  intros batch.
  assert (H1 : batch ≠ []) by done.
  assert (H2 : Forall tensor_wf batch) by (repeat constructor).
  assert (H3 : Forall (λ d, t_shape d = [2]) batch) by (repeat constructor).
  split; [done|]. exact (merge_identical_shapes_stack 0%Z None batch [2] H1 H2 H3).
Defined.

Lemma merge_identical_shapes_no_padding_witness :
  let batch := [Tensor [2] [1; 2]%Z; Tensor [2] [3; 4]%Z; Tensor [2] [5; 6]%Z] in
  (batch ≠ [] ∧ Forall tensor_wf batch ∧ Forall (λ d, t_shape d = [2]) batch ∧ 1 ≤ length [2]) ∧
  ∃ out,
    _merge_var_len_array 0%Z (Z.of_nat 1) (Some 8%Z) batch = Some out ∧
    _merge_var_len_array 0%Z (Z.of_nat 1) (Some 9%Z) batch = Some out ∧
    ∀ oidx, Forall2 lt oidx (t_shape out) →
      ∃ i d, oidx !! 1 = Some i ∧ batch !! i = Some d ∧
             tensor_get out oidx = tensor_get d (delete 1 oidx).
Proof.
  intros batch.
  assert (H1 : batch ≠ []) by done.
  assert (H2 : Forall tensor_wf batch) by (repeat constructor).
  assert (H3 : Forall (λ d, t_shape d = [2]) batch) by (repeat constructor).
  assert (H4 : 1 ≤ length [2]) by (simpl; lia).
  split; [done|].
  exact (merge_identical_shapes_no_padding 0%Z 1 8%Z 9%Z batch [2] H1 H2 H3 H4).
Defined.

(** * Further properties of the vocabularies *)

Lemma add_list_cons a l v : _add_list (a :: l) v = _add_list l (_add_word a v).
Proof. reflexivity. Qed.

Lemma add_list_lookup_notin l : ∀ v w,
  w ∉ l → words (_add_list l v) !! w = words v !! w.
Proof.
  induction l as [|a l IH]; intros v w Hw; [done|].
  rewrite add_list_cons, IH by set_solver. apply add_word_lookup_ne. set_solver.
Qed.

Lemma add_list_inv_lookup_lt l : ∀ v i,
  (i < Z.of_nat (size (words v)))%Z →
  inv_words (_add_list l v) !! i = inv_words v !! i.
Proof.
  induction l as [|a l IH]; intros v i Hi; [done|].
  rewrite add_list_cons, IH.
  - unfold _add_word. cbn [inv_words]. apply lookup_insert_ne. lia.
  - pose proof (add_list_size [a] v) as Hs. change (_add_list [a] v) with (_add_word a v) in Hs.
    lia.
Qed.

(** Adding a list of new, distinct words numbers them consecutively from
    the current size on. *)
Lemma add_list_fresh_index l : ∀ v k w,
  NoDup l → Forall (λ w, words v !! w = None) l → l !! k = Some w →
  words (_add_list l v) !! w = Some (Z.of_nat (size (words v) + k)) ∧
  inv_words (_add_list l v) !! Z.of_nat (size (words v) + k) = Some w.
Proof.
  induction l as [|a l IH]; intros v k w Hnd Hfresh Hk; [done|].
  apply NoDup_cons in Hnd as [Ha Hnd]. apply Forall_cons in Hfresh as [Hfa Hfresh].
  assert (Hsize : size (words (_add_word a v)) = S (size (words v))).
  { unfold _add_word. cbn [words]. by apply map_size_insert_None. }
  rewrite add_list_cons. destruct k as [|k]; simpl in Hk.
  - injection Hk as ->. rewrite Nat.add_0_r, add_list_lookup_notin by done.
    rewrite add_list_inv_lookup_lt by lia.
    unfold _add_word. cbn [words inv_words]. by rewrite !lookup_insert_eq.
  - destruct (IH (_add_word a v) k w Hnd) as [Hw Hi]; [|done|].
    + apply Forall_forall. intros w' Hw'. rewrite add_word_lookup_ne.
      * by apply (proj1 (Forall_forall _ _) Hfresh).
      * intros ->. done.
    + rewrite Hsize in Hw, Hi. by replace (size (words v) + S k) with (S (size (words v)) + k) by lia.
Qed.

Lemma add_list_fresh_size l : ∀ v,
  NoDup l → Forall (λ w, words v !! w = None) l →
  size (words (_add_list l v)) = size (words v) + length l.
Proof.
  induction l as [|a l IH]; intros v Hnd Hfresh; [simpl; lia|].
  apply NoDup_cons in Hnd as [Ha Hnd]. apply Forall_cons in Hfresh as [Hfa Hfresh].
  rewrite add_list_cons, IH; [| done |].
  - unfold _add_word. cbn [words length]. rewrite map_size_insert_None by done. lia.
  - apply Forall_forall. intros w' Hw'. rewrite add_word_lookup_ne.
    + by apply (proj1 (Forall_forall _ _) Hfresh).
    + intros ->. done.
Qed.

(** The converse of [consistent], and the density of the indices. *)
Lemma add_list_fresh_inverse l : ∀ v,
  NoDup l → Forall (λ w, words v !! w = None) l →
  (∀ i w, inv_words v !! i = Some w → words v !! w = Some i) →
  (∀ i, (0 ≤ i < Z.of_nat (size (words v)))%Z → is_Some (inv_words v !! i)) →
  (∀ i w, inv_words (_add_list l v) !! i = Some w → words (_add_list l v) !! w = Some i) ∧
  (∀ i, (0 ≤ i < Z.of_nat (size (words (_add_list l v))))%Z →
        is_Some (inv_words (_add_list l v) !! i)).
Proof.
  induction l as [|a l IH]; intros v Hnd Hfresh Hinv Hdense; [done|].
  apply NoDup_cons in Hnd as [Ha Hnd]. apply Forall_cons in Hfresh as [Hfa Hfresh].
  rewrite add_list_cons. apply IH; [done | | |].
  - apply Forall_forall. intros w' Hw'. rewrite add_word_lookup_ne.
    + by apply (proj1 (Forall_forall _ _) Hfresh).
    + intros ->. done.
  - intros i w. unfold _add_word. cbn [words inv_words].
    destruct (decide (Z.of_nat (size (words v)) = i)) as [<-|Hne].
    + rewrite lookup_insert_eq. intros [= <-]. by rewrite lookup_insert_eq.
    + rewrite lookup_insert_ne by done. intros Hw. apply Hinv in Hw.
      rewrite lookup_insert_ne; [done|]. intros <-. congruence.
  - intros i. unfold _add_word. cbn [words inv_words].
    rewrite map_size_insert_None by done. intros Hi.
    destruct (decide (Z.of_nat (size (words v)) = i)) as [<-|Hne].
    + rewrite lookup_insert_eq. by eexists.
    + rewrite lookup_insert_ne by done. apply Hdense. lia.
Qed.

Section WordExtras.
Variable findall_words : string → list string.

Lemma corpus_words_flag v v' corpus :
  split_punctuation v = split_punctuation v' →
  corpus_words findall_words v corpus = corpus_words findall_words v' corpus.
Proof.
  intros H. unfold corpus_words. generalize (∅ : gset string).
  induction corpus as [|s ss IH]; intros acc; [done|]. simpl.
  by rewrite IH, (split_sentence_flag findall_words v v' s H).
Qed.

Lemma elem_of_corpus_words' v corpus w :
  w ∈ corpus_words findall_words v corpus ↔
  ∃ s, s ∈ corpus ∧ w ∈ split_sentence findall_words v s.
Proof.
  unfold corpus_words. split.
  - intros H. apply elem_of_corpus_words in H as [H|H]; [|done].
    by apply not_elem_of_empty in H.
  - intros H. apply elem_of_corpus_words. by right.
Qed.

(** The tables of a vocabulary built from a corpus are those obtained by
    adding the sorted corpus words behind ["<pad>"]. *)
Lemma init_corpus_tables corpus allow split v :
  WordVocabulary_init findall_words (Some corpus) allow split = Some v →
  let v0 := _add_word "<pad>" (mkWordVocabulary ∅ ∅ None allow false split) in
  let l := sorted_strings (corpus_words findall_words v corpus) in
  words v = words (_add_list l v0) ∧ inv_words v = inv_words (_add_list l v0) ∧
  initialized v = true ∧ allow_any_word v = allow.
Proof.
  intros Hfin v0 l. unfold WordVocabulary_init in Hfin.
  apply finalize_Some in Hfin as (Hw & Hinv & Hinit & Hallow & Hsplit & _).
  unfold _add_set in *.
  destruct (add_list_flags (sorted_strings (foldl (λ acc s, acc ∪ list_to_set
              (split_sentence findall_words v0 s)) ∅ corpus)) v0) as (_ & Ha & _ & Hs).
  assert (Hl : l = sorted_strings (corpus_words findall_words v0 corpus)).
  { unfold l. f_equal. apply corpus_words_flag. rewrite Hsplit. exact Hs. }
  rewrite Hl. split; [exact Hw|]. split; [exact Hinv|]. split; [done|].
  rewrite Hallow. exact Ha.
Qed.

Lemma pad_vocabulary_facts allow split :
  let v0 := _add_word "<pad>" (mkWordVocabulary ∅ ∅ None allow false split) in
  size (words v0) = 1 ∧ words v0 !! "<pad>" = Some 0%Z ∧ inv_words v0 !! 0%Z = Some "<pad>" ∧
  (∀ w, w ≠ "<pad>" → words v0 !! w = None).
Proof.
  intros v0. unfold v0, _add_word. cbn [words inv_words].
  rewrite map_size_insert_None, map_size_empty by done.
  split; [done|]. split; [done|]. split; [done|].
  intros w Hw. by rewrite lookup_insert_ne.
Qed.

(** X7.  A vocabulary built from a corpus in which the token "<pad>"
    does not occur maps "<pad>" to 0 and the k-th corpus word in sorted
    order to k + 1, in both tables; its length is one more than the
    number of distinct corpus words. *)
Theorem corpus_vocabulary_sorted_indices corpus allow split v :
  WordVocabulary_init findall_words (Some corpus) allow split = Some v →
  "<pad>" ∉ corpus_words findall_words v corpus →
  let l := sorted_strings (corpus_words findall_words v corpus) in
  Sorted str_le l ∧ l ≡ₚ elements (corpus_words findall_words v corpus) ∧
  words v !! "<pad>" = Some 0%Z ∧ inv_words v !! 0%Z = Some "<pad>" ∧
  (∀ k w, l !! k = Some w →
     words v !! w = Some (Z.of_nat (S k)) ∧ inv_words v !! Z.of_nat (S k) = Some w) ∧
  WordVocabulary_len v = S (size (corpus_words findall_words v corpus)).
Proof.
  intros Hinit Hpad l.
  destruct (init_corpus_tables corpus allow split v Hinit) as (Hw & Hinv & _).
  destruct (pad_vocabulary_facts allow split) as (Hsize & Hp0 & Hi0 & Hother).
  fold l in Hw, Hinv.
  assert (Hnd : NoDup l) by apply sorted_strings_NoDup.
  assert (Hfresh : Forall (λ w, words (_add_word "<pad>"
            (mkWordVocabulary ∅ ∅ None allow false split)) !! w = None) l).
  { apply Forall_forall. intros w Hin%elem_of_sorted_strings. apply Hother. intros ->. exact (Hpad Hin). }
  split; [apply (Sorted_merge_sort str_le)|]. split; [apply merge_sort_Permutation|].
  split; [|split; [|split]].
  - rewrite Hw, add_list_lookup_notin; [done|]. intros Hin%elem_of_sorted_strings.
    exact (Hpad Hin).
  - rewrite Hinv, add_list_inv_lookup_lt; [done|]. rewrite Hsize. lia.
  - intros k w Hk. rewrite Hw, Hinv.
    destruct (add_list_fresh_index l _ k w Hnd Hfresh Hk) as [H1 H2].
    rewrite Hsize in H1, H2. cbn [Nat.add] in H1, H2. exact (conj H1 H2).
  - unfold WordVocabulary_len. rewrite Hw, add_list_fresh_size, Hsize by done.
    f_equal. unfold l, sorted_strings. by rewrite merge_sort_Permutation.
Qed.

(** X8.  In a vocabulary built from a corpus without the token "<pad>"
    the two tables are inverse to each other and the indices in use are
    exactly 0, ..., len - 1. *)
Theorem corpus_vocabulary_tables_inverse corpus allow split v :
  WordVocabulary_init findall_words (Some corpus) allow split = Some v →
  "<pad>" ∉ corpus_words findall_words v corpus →
  (∀ i w, inv_words v !! i = Some w ↔ words v !! w = Some i) ∧
  (∀ i, is_Some (inv_words v !! i) ↔ (0 ≤ i < Z.of_nat (WordVocabulary_len v))%Z).
Proof.
  intros Hinit Hpad.
  assert (Hcons : consistent v).
  { apply (init_corpus_consistent findall_words corpus allow split v Hinit).
    apply Forall_forall. intros s Hs Hin. apply Hpad, elem_of_corpus_words'. by exists s. }
  destruct (init_corpus_tables corpus allow split v Hinit) as (Hw & Hinv & _).
  destruct (pad_vocabulary_facts allow split) as (Hsize & Hp0 & Hi0 & Hother).
  set (l := sorted_strings (corpus_words findall_words v corpus)) in *.
  destruct (add_list_fresh_inverse l (_add_word "<pad>"
              (mkWordVocabulary ∅ ∅ None allow false split))) as [Hconv Hdense].
  - apply sorted_strings_NoDup.
  - apply Forall_forall. intros w Hin%elem_of_sorted_strings. apply Hother. intros ->. exact (Hpad Hin).
  - intros i w. unfold _add_word. cbn [words inv_words]. rewrite map_size_empty.
    destruct (decide (0%Z = i)) as [<-|Hne].
    + rewrite lookup_insert_eq. intros [= <-]. by rewrite lookup_insert_eq.
    + by rewrite lookup_insert_ne.
  - intros i. rewrite Hsize. intros Hi. replace i with 0%Z by lia. by rewrite Hi0.
  - rewrite <- Hw, <- Hinv in Hconv. rewrite <- Hw, <- Hinv in Hdense.
    split.
    + intros i w. split; [apply Hconv|]. intros H. by apply Hcons in H as [? _].
    + intros i. unfold WordVocabulary_len. split; [|apply Hdense].
      intros [w Hi]. apply Hconv in Hi. by apply Hcons in Hi as [_ ?].
Qed.

(** X9.  Index 0 decodes to "<pad>" in every vocabulary built from a
    corpus; but when the token "<pad>" occurs in the corpus, "<pad>"
    itself is encoded to an index that is at least 1. *)
Theorem corpus_vocabulary_pad corpus allow split v :
  WordVocabulary_init findall_words (Some corpus) allow split = Some v →
  inv_words v !! 0%Z = Some "<pad>" ∧
  ("<pad>" ∈ corpus_words findall_words v corpus →
     ∃ k, words v !! "<pad>" = Some k ∧ (1 ≤ k)%Z).
Proof.
  intros Hinit.
  destruct (init_corpus_tables corpus allow split v Hinit) as (Hw & Hinv & _).
  destruct (pad_vocabulary_facts allow split) as (Hsize & Hp0 & Hi0 & Hother).
  split.
  - rewrite Hinv, add_list_inv_lookup_lt; [done|]. rewrite Hsize. lia.
  - intros Hin. rewrite Hw. apply add_list_pad; [lia|]. by apply elem_of_sorted_strings.
Qed.

End WordExtras.

(** X11.  The snapshot of a finalized vocabulary restores it: loading
    [state_dict()] into any vocabulary object gives a vocabulary equal to
    the saved one, attribute by attribute. *)
Theorem word_state_round_trip (v0 v v' : WordVocabulary) :
  finalize v0 = Some v →
  ∃ state, WordVocabulary_state_dict v = Some state ∧
           WordVocabulary_load_state_dict v' state = v.
Proof.
  unfold finalize. destruct (_ && _); [done|]. intros [= <-].
  eexists. split; reflexivity.
Qed.

Lemma word_state_round_trip_witness :
  let v0 := _add_list ["a"; "b"] (_add_word "<pad>" (mkWordVocabulary ∅ ∅ None false false true)) in
  let v := mkWordVocabulary (words v0) (inv_words v0) (Some None) false true true in
  let blank := _add_word "<pad>" (mkWordVocabulary ∅ ∅ None true false false) in
  finalize v0 = Some v ∧
  ∃ state, WordVocabulary_state_dict v = Some state ∧
           WordVocabulary_load_state_dict blank state = v.
Proof.
  intros v0 v blank.
  assert (H : finalize v0 = Some v) by (vm_compute; reflexivity).
  split; [exact H|]. exact (word_state_round_trip v0 v blank H).
Defined.

(** A vocabulary that was never finalized has no [_unk_index] to save. *)
Lemma word_state_dict_unfinalized (findall_words : string → list string) allow split v :
  WordVocabulary_init findall_words None allow split = Some v →
  WordVocabulary_state_dict v = None.
Proof. by intros [= <-]. Qed.

Lemma mapfrom_keys_NoDup (other : WordVocabulary) (items : list (string * Z)) :
  NoDup items.*1 →
  (∀ w w' j, words other !! w = Some j → words other !! w' = Some j → w = w') →
  NoDup (omap (λ p, j ← words other !! p.1; Some (j, p.2)) items).*1.
Proof.
  intros Hnd Hinj. induction items as [|[w i] items IH]; [constructor|].
  cbn [fmap list_fmap fst] in Hnd. apply NoDup_cons in Hnd as [Hw Hnd].
  cbn [omap list_omap fst snd]. destruct (words other !! w) as [j|] eqn:Hj; simpl; [|by apply IH].
  apply NoDup_cons. split; [|by apply IH].
  intros Hin. apply list_elem_of_fmap in Hin as ([j' i'] & -> & Hin). simpl in Hj.
  apply list_elem_of_omap in Hin as ([w' i''] & Hin & Hf). simpl in Hf.
  destruct (words other !! w') as [j''|] eqn:Hj'; [|done]. injection Hf as -> ->.
  apply Hw. rewrite (Hinj w w' j' Hj Hj'). apply list_elem_of_fmap. by exists (w', i').
Qed.

(** X12.  When no two words of [other] share an index, [mapfrom] sends
    the index a word has in [other] to the index the same word has in
    [self], for exactly the words both vocabularies know, in whatever
    order the items of [self.words] are visited. *)
Theorem mapfrom_translates (self other : WordVocabulary) (items : list (string * Z)) :
  items ≡ₚ map_to_list (words self) →
  (∀ w w' j, words other !! w = Some j → words other !! w' = Some j → w = w') →
  ∀ j i, mapfrom items other !! j = Some i ↔
         ∃ w, words other !! w = Some j ∧ words self !! w = Some i.
Proof.
  intros Hperm Hinj j i. unfold mapfrom. split.
  - intros Hl%py_dict_lookup_elem. apply list_elem_of_omap in Hl as ([w i'] & Hin & Hf).
    simpl in Hf. destruct (words other !! w) as [j'|] eqn:Hj; [|done]. injection Hf as -> ->.
    exists w. split; [done|]. rewrite Hperm in Hin. by apply elem_of_map_to_list in Hin.
  - intros (w & Hj & Hi). apply py_dict_lookup_NoDup.
    + apply mapfrom_keys_NoDup; [|done]. rewrite Hperm. apply NoDup_fst_map_to_list.
    + apply list_elem_of_omap. exists (w, i). split.
      * rewrite Hperm. by apply elem_of_map_to_list.
      * simpl. by rewrite Hj.
Qed.

Lemma mapfrom_translates_witness :
  let self := _add_list ["a"; "b"; "c"] (_add_word "<pad>" (mkWordVocabulary ∅ ∅ None false false true)) in
  let other := _add_list ["b"; "c"; "d"] (_add_word "<pad>" (mkWordVocabulary ∅ ∅ None false false true)) in
  let items := [("<pad>", 0%Z); ("a", 1%Z); ("b", 2%Z); ("c", 3%Z)] in
  items ≡ₚ map_to_list (words self) ∧
  (∀ w w' j, words other !! w = Some j → words other !! w' = Some j → w = w') ∧
  (mapfrom items other !! 1%Z = Some 2%Z ↔
   ∃ w, words other !! w = Some 1%Z ∧ words self !! w = Some 2%Z).
Proof.
  intros self other items.
  assert (H1 : items ≡ₚ map_to_list (words self)).
  { apply (bool_decide_unpack _). vm_compute. exact I. }
  assert (H2 : ∀ w w' j, words other !! w = Some j → words other !! w' = Some j → w = w').
  { assert (Hc : consistent other).
    { apply consistent_add_list; [apply consistent_pad | |].
      - apply (bool_decide_unpack _). vm_compute. exact I.
      - apply (bool_decide_unpack _). vm_compute. exact I. }
    intros w w' j Hw Hw'. apply Hc in Hw as [Hw _]. apply Hc in Hw' as [Hw' _]. congruence. }
  split; [exact H1|]. split; [exact H2|].
  exact (mapfrom_translates self other items H1 H2 1%Z 2%Z).
Defined.

Section GetItem.
Variable findall_words : string → list string.

(** X13.  In a vocabulary built from a corpus without the token "<pad>",
    indexing is its own inverse: [v[w]] is the index of a known word [w]
    and [v[v[w]]] is [w] again, provided unknown words are allowed or [w]
    does not sit at the unknown-token index. *)
Theorem getitem_round_trip corpus allow split v (w : string) (i : Z) :
  WordVocabulary_init findall_words (Some corpus) allow split = Some v →
  "<pad>" ∉ corpus_words findall_words v corpus →
  words v !! w = Some i →
  allow_any_word v = true ∨ _unk_index v ≠ Some (Some i) →
  WordVocabulary_getitem v (IStr w) = Some (IInt i) ∧
  WordVocabulary_getitem v (IInt i) = Some (IStr w).
Proof.
  intros Hinit Hpad Hw Hok.
  assert (Hcons : consistent v).
  { apply (init_corpus_consistent findall_words corpus allow split v Hinit).
    apply Forall_forall. intros s Hs Hin. apply Hpad, elem_of_corpus_words'. by exists s. }
  unfold WordVocabulary_init in Hinit.
  apply finalize_Some in Hinit as (_ & _ & _ & _ & _ & unk & Hunk & _).
  unfold WordVocabulary_getitem, process_word_item, process_index_item. split.
  - rewrite (process_word_known v w i unk Hunk Hw); [done|].
    destruct Hok as [?|Hne]; [by left|right]. congruence.
  - unfold _process_index. by destruct (Hcons w i Hw) as [-> _].
Qed.
End GetItem.

Lemma corpus_vocabulary_sorted_indices_witness :
  let corpus := [SRaw "b a"; STokens ["c"; "a"]] in
  let vl := _add_list ["a"; "b"; "c"]
              (_add_word "<pad>" (mkWordVocabulary ∅ ∅ None false false true)) in
  let v := mkWordVocabulary (words vl) (inv_words vl) (Some None) false true true in
  (WordVocabulary_init ascii_findall (Some corpus) false true = Some v ∧
   "<pad>" ∉ corpus_words ascii_findall v corpus) ∧
  let l := sorted_strings (corpus_words ascii_findall v corpus) in
  Sorted str_le l ∧ l ≡ₚ elements (corpus_words ascii_findall v corpus) ∧
  words v !! "<pad>" = Some 0%Z ∧ inv_words v !! 0%Z = Some "<pad>" ∧
  (∀ k w, l !! k = Some w →
     words v !! w = Some (Z.of_nat (S k)) ∧ inv_words v !! Z.of_nat (S k) = Some w) ∧
  WordVocabulary_len v = S (size (corpus_words ascii_findall v corpus)).
Proof.
  intros corpus vl v.
  assert (H1 : WordVocabulary_init ascii_findall (Some corpus) false true = Some v)
    by (vm_compute; reflexivity).
  assert (H2 : "<pad>" ∉ corpus_words ascii_findall v corpus) by decide_by_compute.
  split; [exact (conj H1 H2)|].
  exact (corpus_vocabulary_sorted_indices ascii_findall corpus false true v H1 H2).
Defined.

Lemma corpus_vocabulary_tables_inverse_witness :
  let corpus := [SRaw "b a"; STokens ["c"; "a"]] in
  let vl := _add_list ["a"; "b"; "c"]
              (_add_word "<pad>" (mkWordVocabulary ∅ ∅ None false false true)) in
  let v := mkWordVocabulary (words vl) (inv_words vl) (Some None) false true true in
  (WordVocabulary_init ascii_findall (Some corpus) false true = Some v ∧
   "<pad>" ∉ corpus_words ascii_findall v corpus) ∧
  (∀ i w, inv_words v !! i = Some w ↔ words v !! w = Some i) ∧
  (∀ i, is_Some (inv_words v !! i) ↔ (0 ≤ i < Z.of_nat (WordVocabulary_len v))%Z).
Proof.
  intros corpus vl v.
  assert (H1 : WordVocabulary_init ascii_findall (Some corpus) false true = Some v)
    by (vm_compute; reflexivity).
  assert (H2 : "<pad>" ∉ corpus_words ascii_findall v corpus) by decide_by_compute.
  split; [exact (conj H1 H2)|].
  exact (corpus_vocabulary_tables_inverse ascii_findall corpus false true v H1 H2).
Defined.

Lemma corpus_vocabulary_pad_witness :
  let corpus := [STokens ["<pad>"; "a"]] in
  let vl := _add_list ["<pad>"; "a"]
              (_add_word "<pad>" (mkWordVocabulary ∅ ∅ None false false false)) in
  let v := mkWordVocabulary (words vl) (inv_words vl) (Some None) false true false in
  WordVocabulary_init ascii_findall (Some corpus) false false = Some v ∧
  inv_words v !! 0%Z = Some "<pad>" ∧
  ("<pad>" ∈ corpus_words ascii_findall v corpus →
     ∃ k, words v !! "<pad>" = Some k ∧ (1 ≤ k)%Z).
Proof.
  intros corpus vl v.
  assert (H1 : WordVocabulary_init ascii_findall (Some corpus) false false = Some v)
    by (vm_compute; reflexivity).
  split; [exact H1|].
  exact (corpus_vocabulary_pad ascii_findall corpus false false v H1).
Defined.


Lemma getitem_round_trip_witness :
  let corpus := [SRaw "b a"; STokens ["c"; "a"]] in
  let vl := _add_list ["a"; "b"; "c"]
              (_add_word "<pad>" (mkWordVocabulary ∅ ∅ None false false true)) in
  let v := mkWordVocabulary (words vl) (inv_words vl) (Some None) false true true in
  (WordVocabulary_init ascii_findall (Some corpus) false true = Some v ∧
   ("<pad>" ∉ corpus_words ascii_findall v corpus) ∧
   words v !! "b" = Some 2%Z ∧
   (allow_any_word v = true ∨ _unk_index v ≠ Some (Some 2%Z))) ∧
  WordVocabulary_getitem v (IStr "b") = Some (IInt 2%Z) ∧
  WordVocabulary_getitem v (IInt 2%Z) = Some (IStr "b").
Proof.
  intros corpus vl v.
  assert (H1 : WordVocabulary_init ascii_findall (Some corpus) false true = Some v)
    by (vm_compute; reflexivity).
  assert (H2 : "<pad>" ∉ corpus_words ascii_findall v corpus) by decide_by_compute.
  assert (H3 : words v !! "b" = Some 2%Z) by (vm_compute; reflexivity).
  assert (H4 : allow_any_word v = true ∨ _unk_index v ≠ Some (Some 2%Z))
    by (right; discriminate).
  split; [exact (conj H1 (conj H2 (conj H3 H4)))|].
  exact (getitem_round_trip ascii_findall corpus false true v "b" 2%Z H1 H2 H3 H4).
Defined.

(** X14.  When [from_set] succeeds with an [ignore_char] and an integer
    [ignore_char_idx], the alphabet is the given set together with the
    ignore character, and the ignore character gets the index
    [ignore_char_idx] if that lies between 0 and the number of other
    characters; an index beyond is clipped to that number, a negative one
    counts from the end. *)
Theorem from_set_pins_ignore_char (v v' : CharVocabulary) (chars : gset pykey)
    (ig : pykey) (k : Z) :
  from_set v chars = Some v' →
  ignore_char v = Some ig → ignore_char_idx v = Some k →
  let n := size (chars ∖ {[ig]}) in
  let pos := slice_bound n k `min` n in
  dom (to_index v') = chars ∪ {[ig]} ∧
  CharVocabulary_len v' = Some (S n) ∧
  to_index v' !! ig = Some (Z.of_nat pos) ∧
  from_index v' !! Z.of_nat pos = Some ig ∧
  ((0 ≤ k ≤ Z.of_nat n)%Z → Z.of_nat pos = k).
Proof.
  intros Hv Hig Hk n pos.
  destruct (from_set_list v chars v' Hv) as (l & Hto & Hfrom & Hinit & Hl).
  rewrite Hig, Hk in Hl. destruct Hl as (noig & Hnoig & ->).
  pose proof (sorted_keys_NoDup _ _ Hnoig) as Hnd.
  pose proof (length_sorted_keys _ _ Hnoig) as Hlen. fold n in Hlen.
  assert (Hnotin : ig ∉ noig).
  { rewrite (elem_of_sorted_keys _ _ ig Hnoig), elem_of_difference, elem_of_singleton. tauto. }
  cbn [py_slice_to py_slice_from] in *. rewrite Hlen in *.
  set (L := take (slice_bound n k) noig ++ [ig] ++ drop (slice_bound n k) noig) in *.
  assert (HL : NoDup L) by (by apply pinned_list_NoDup).
  destruct (table_lookups L HL) as (Hinv & Hsize & _).
  assert (Hpos : L !! pos = Some ig).
  { unfold L. rewrite lookup_app_r; rewrite length_take, Hlen; [|done].
    fold pos. by rewrite Nat.sub_diag. }
  assert (HlenL : length L = S n).
  { unfold L. rewrite !length_app, length_take, length_drop, Hlen. simpl. lia. }
  split; [|split; [|split; [|split]]].
  - apply set_eq. intros c. rewrite Hto, elem_of_dom. unfold is_Some.
    setoid_rewrite (to_index_lookup_NoDup L _ c HL).
    rewrite elem_of_union, elem_of_singleton.
    transitivity (c ∈ L).
    { rewrite list_elem_of_lookup. split.
      - intros (z & i & _ & Hi). by exists i.
      - intros [i Hi]. by exists (Z.of_nat i), i. }
    unfold L. rewrite !elem_of_app, list_elem_of_singleton.
    assert (Hc : c ∈ take (slice_bound n k) noig ∨ c ∈ drop (slice_bound n k) noig ↔ c ∈ noig).
    { by rewrite <- elem_of_app, take_drop. }
    rewrite (elem_of_sorted_keys _ _ c Hnoig), elem_of_difference, elem_of_singleton in Hc.
    destruct (decide (c = ig)); tauto.
  - unfold CharVocabulary_len. by rewrite Hinit, Hto, Hsize, HlenL.
  - rewrite Hto. apply to_index_lookup_NoDup; [done|]. by exists pos.
  - rewrite Hfrom. apply from_index_lookup. by exists pos.
  - intros Hrange. unfold pos, slice_bound. destruct (Z.ltb_spec k 0); lia.
Qed.

(** X15.  The two tables [from_set] builds are inverse to each other and
    the indices in use are exactly 0, ..., len - 1, as long as no
    [ignore_char] is set or [ignore_char_idx] is an integer. *)
Theorem from_set_tables_inverse (v v' : CharVocabulary) (chars : gset pykey) :
  from_set v chars = Some v' →
  ignore_char v = None ∨ is_Some (ignore_char_idx v) →
  (∀ c z, to_index v' !! c = Some z ↔ from_index v' !! z = Some c) ∧
  (∀ z, is_Some (from_index v' !! z) ↔ (0 ≤ z < Z.of_nat (size (to_index v')))%Z).
Proof.
  intros Hv Hcase.
  destruct (from_set_list v chars v' Hv) as (l & Hto & Hfrom & Hinit & Hl).
  assert (HL : NoDup l).
  { destruct (ignore_char v) as [ig|] eqn:Hig.
    - destruct Hcase as [?|[k Hk]]; [done|]. rewrite Hk in Hl.
      destruct Hl as (noig & Hnoig & ->). apply pinned_list_NoDup.
      + by eapply sorted_keys_NoDup.
      + rewrite (elem_of_sorted_keys _ _ ig Hnoig), elem_of_difference, elem_of_singleton. tauto.
    - by eapply sorted_keys_NoDup. }
  destruct (table_lookups l HL) as (Hinv & Hsize & Hdense).
  rewrite Hto, Hfrom, Hsize. by split.
Qed.

Lemma from_set_pins_ignore_char_witness :
  let v := mkCharVocabulary false (Some (KStr "b")) (Some 5%Z) ∅ ∅ in
  let chars : gset pykey := {[KStr "a"; KStr "b"; KStr "c"]} in
  let l := [KStr "a"; KStr "c"; KStr "b"] in
  let v' := mkCharVocabulary true (Some (KStr "b")) (Some 5%Z)
              (py_dict ((λ p, (p.2, p.1)) <$> enumerate l)) (py_dict (enumerate l)) in
  (from_set v chars = Some v' ∧ ignore_char v = Some (KStr "b") ∧
   ignore_char_idx v = Some 5%Z) ∧
  to_index v' !! KStr "b" = Some 2%Z.
Proof.
  intros v chars l v'.
  assert (H1 : from_set v chars = Some v') by (vm_compute; reflexivity).
  assert (H2 : ignore_char v = Some (KStr "b")) by reflexivity.
  assert (H3 : ignore_char_idx v = Some 5%Z) by reflexivity.
  split; [done|].
  destruct (from_set_pins_ignore_char v v' chars (KStr "b") 5%Z H1 H2 H3)
    as (_ & _ & Hpos & _).
  assert (Hn : size (chars ∖ {[KStr "b"]}) = 2) by (vm_compute; reflexivity).
  rewrite Hn in Hpos. exact Hpos.
Defined.

Lemma from_set_tables_inverse_witness :
  let v := mkCharVocabulary false (Some (KStr "b")) (Some 1%Z) ∅ ∅ in
  let chars : gset pykey := {[KStr "a"; KStr "b"; KStr "c"]} in
  let l := [KStr "a"; KStr "b"; KStr "c"] in
  let v' := mkCharVocabulary true (Some (KStr "b")) (Some 1%Z)
              (py_dict ((λ p, (p.2, p.1)) <$> enumerate l)) (py_dict (enumerate l)) in
  (from_set v chars = Some v' ∧ (ignore_char v = None ∨ is_Some (ignore_char_idx v))) ∧
  (∀ c z, to_index v' !! c = Some z ↔ from_index v' !! z = Some c) ∧
  (∀ z, is_Some (from_index v' !! z) ↔ (0 ≤ z < Z.of_nat (size (to_index v')))%Z).
Proof.
  intros v chars l v'.
  assert (H1 : from_set v chars = Some v') by (vm_compute; reflexivity).
  assert (H2 : ignore_char v = None ∨ is_Some (ignore_char_idx v)) by (right; by eexists).
  split; [done|]. exact (from_set_tables_inverse v v' chars H1 H2).
Defined.

(** X16.  Encoding a string is defined exactly when the vocabulary is
    initialized and knows every character of it, or the string is empty;
    decoding an index list is defined exactly when every index has a
    character: unlike the word vocabulary, nothing is substituted. *)
Theorem char_encode_decode_defined (v : CharVocabulary) (s : string) (data : list Z) :
  (is_Some (str_to_ind v s) ↔
   Forall (λ c, cv_initialized v = true ∧ KStr c ∈ dom (to_index v)) (chars_of s)) ∧
  (is_Some (ind_to_str v data) ↔
   Forall (λ i, cv_initialized v = true ∧ ∃ c, from_index v !! i = Some (KStr c)) data).
Proof.
  split.
  - unfold str_to_ind. rewrite mapM_is_Some. apply Forall_proper; [|done].
    intros c. simpl. destruct (cv_initialized v).
    + rewrite elem_of_dom. split; [intros H; by split | by intros [_ H]].
    + split; [by intros [? ?] | by intros [? _]].
  - unfold ind_to_str. transitivity (is_Some (mapM (λ i, if cv_initialized v
                 then k ← from_index v !! i;
                      match k with KStr s => Some s | KInt _ => None end
                 else None) data)).
    { destruct (mapM _ data) as [l|]; simpl; [|split; by intros [? ?]].
      split; intros _; [by exists l | by exists (foldr String.append EmptyString l)]. }
    rewrite mapM_is_Some. apply Forall_proper; [|done].
    intros i. simpl. destruct (cv_initialized v).
    + destruct (from_index v !! i) as [[c|z]|]; simpl.
      * split; [intros _; split; [done|by exists c] | intros _; by exists c].
      * split; [by intros [? ?] | by intros [_ [? ?]]].
      * split; [by intros [? ?] | by intros [_ [? ?]]].
    + split; [by intros [? ?] | by intros [? _]].
Qed.

Lemma mapM_fmap_Some_id {A B : Type} (f : B → option A) (g : A → B) (l : list A) :
  (∀ x, f (g x) = Some x) → mapM f (g <$> l) = Some l.
Proof.
  intros Hfg. induction l as [|x l IH]; [done|].
  rewrite fmap_cons, mapM_cons_eq, Hfg, IH. done.
Qed.

Lemma chars_of_nonempty s : s ≠ EmptyString → chars_of s ≠ [].
Proof. by destruct s. Qed.

(** X17.  The dual-mode call of an initialized character vocabulary is
    its own inverse on every non-empty string over the alphabet; the
    empty string is encoded to the empty list, which the call hands back
    as a list and not as a string. *)
Theorem char_call_round_trip (v0 v : CharVocabulary) (chars : gset pykey) :
  from_set v0 chars = Some v →
  (∀ s, s ≠ EmptyString → Forall (λ c, KStr c ∈ dom (to_index v)) (chars_of s) →
     ∃ l, CharVocabulary_call v (SeqStr s) = Some (SeqList l) ∧
          CharVocabulary_call v (SeqList l) = Some (SeqStr s)) ∧
  CharVocabulary_call v (SeqStr EmptyString) = Some (SeqList []) ∧
  CharVocabulary_call v (SeqList []) = Some (SeqList []).
Proof.
  intros Hv. destruct (from_set_tables _ _ _ Hv) as [Hinit _].
  unfold CharVocabulary_call. rewrite Hinit. split; [|by split].
  intros s Hs Hin.
  destruct (char_round_trip_from_set v0 chars v s Hv Hin) as (ixs & Hen & Hde).
  exists (IInt <$> ixs). rewrite Hen. split; [done|].
  destruct ixs as [|i ixs].
  { exfalso. apply (chars_of_nonempty s Hs). unfold str_to_ind in Hen.
    apply length_mapM in Hen. by destruct (chars_of s). }
  rewrite fmap_cons. rewrite <- (fmap_cons IInt).
  rewrite (mapM_fmap_Some_id _ IInt (i :: ixs)) by done.
  cbn [mbind option_bind]. by rewrite Hde.
Qed.

Lemma char_call_round_trip_witness :
  let v0 := mkCharVocabulary false None (Some 0%Z) ∅ ∅ in
  let chars : gset pykey := {[KStr "a"; KStr "b"; KStr "c"]} in
  let l := [KStr "a"; KStr "b"; KStr "c"] in
  let v := mkCharVocabulary true None (Some 0%Z)
             (py_dict ((λ p, (p.2, p.1)) <$> enumerate l)) (py_dict (enumerate l)) in
  from_set v0 chars = Some v ∧
  ∃ l, CharVocabulary_call v (SeqStr "cab") = Some (SeqList l) ∧
       CharVocabulary_call v (SeqList l) = Some (SeqStr "cab").
Proof.
  intros v0 chars l v.
  assert (H1 : from_set v0 chars = Some v) by (vm_compute; reflexivity).
  split; [exact H1|].
  apply (proj1 (char_call_round_trip v0 v chars H1) "cab"); [done|decide_by_compute].
Defined.

(** Every call of a character vocabulary that is not initialized fails,
    also on [None] and on the empty list. *)
Lemma char_call_uninitialized (v : CharVocabulary) (seq : pyseq) :
  cv_initialized v = false → CharVocabulary_call v seq = None.
Proof. intros H. unfold CharVocabulary_call. by rewrite H. Qed.

(** X18.  For a byte vocabulary, decoding the encoding of a byte
    sequence whose bytes are all in the alphabet gives the sequence
    back. *)
Theorem byte_round_trip (v0 v : CharVocabulary) (chars : gset pykey) (data : list Z) :
  from_set v0 chars = Some v →
  Forall (λ b, is_byte b = true ∧ KInt b ∈ dom (to_index v)) data →
  ∃ indices, byte_str_to_ind v data = Some indices ∧
             byte_ind_to_str v indices = Some data.
Proof.
  intros Hv Hin. destruct (from_set_tables _ _ _ Hv) as (Hinit & l & Hto & Hfrom).
  unfold byte_str_to_ind, byte_ind_to_str. rewrite Hinit.
  induction Hin as [|b data [Hb Hdom] _ (ixs & Hen & Hde)].
  - by exists [].
  - apply elem_of_dom in Hdom as [i Hi]. exists (i :: ixs).
    rewrite !mapM_cons_eq, Hi, Hen. split; [done|].
    rewrite Hto in Hi. apply to_from_index in Hi. rewrite Hfrom, Hi.
    cbn [mbind option_bind]. rewrite Hb. cbn [mbind option_bind].
    rewrite Hfrom in Hde. by rewrite Hde.
Qed.

Lemma byte_round_trip_witness :
  let v0 := mkCharVocabulary false None (Some 0%Z) ∅ ∅ in
  let chars : gset pykey := {[KInt 104; KInt 105; KInt 255]} in
  let l := [KInt 104; KInt 105; KInt 255] in
  let v := mkCharVocabulary true None (Some 0%Z)
             (py_dict ((λ p, (p.2, p.1)) <$> enumerate l)) (py_dict (enumerate l)) in
  (from_set v0 chars = Some v ∧
   Forall (λ b, is_byte b = true ∧ KInt b ∈ dom (to_index v)) [105; 104; 255]%Z) ∧
  ∃ indices, byte_str_to_ind v [105; 104; 255]%Z = Some indices ∧
             byte_ind_to_str v indices = Some [105; 104; 255]%Z.
Proof.
  intros v0 chars l v.
  assert (H1 : from_set v0 chars = Some v) by (vm_compute; reflexivity).
  assert (H2 : Forall (λ b, is_byte b = true ∧ KInt b ∈ dom (to_index v)) [105; 104; 255]%Z)
    by decide_by_compute.
  split; [done|]. exact (byte_round_trip v0 v chars _ H1 H2).
Defined.





Section WordCall.
Variable findall_words : string → list string.

Lemma encode_with_unknowns (v0 v : WordVocabulary) (s : list string) :
  finalize v0 = Some v → allow_any_word v = true →
  ∃ unk, _unk_index v = Some (Some unk) ∧
    sentence_to_indices findall_words v (STokens s)
      = Some ((λ w, Some (default unk (words v !! w))) <$> s).
Proof.
  intros Hfin Hallow.
  apply finalize_Some in Hfin as (_ & _ & Hinit & Ha & _ & unk & Hunk & _ & Hsome).
  rewrite <- Ha in Hsome. destruct (Hsome Hallow) as [u ->]. exists u. split; [done|].
  unfold sentence_to_indices. rewrite Hinit. cbn [split_sentence].
  apply mapM_Some_2, Forall2_fmap_r, Forall_Forall2_diag, Forall_forall.
  intros w _. unfold _process_word, process_lookup. rewrite Hunk, Hallow. cbn [mbind option_bind].
  rewrite orb_true_r. simpl. destruct (words v !! w); reflexivity.
Qed.


(** X20.  In a finalized vocabulary that allows unknown words, encoding
    never fails: every token list is encoded position by position, a
    known word to its index and any other word to the unknown-token
    index, which exists. *)
Theorem encode_total_with_unknowns (v0 v : WordVocabulary) (s : list string) :
  finalize v0 = Some v → allow_any_word v = true →
  ∃ unk, _unk_index v = Some (Some unk) ∧
    sentence_to_indices findall_words v (STokens s)
      = Some ((λ w, Some (default unk (words v !! w))) <$> s).
Proof. apply encode_with_unknowns. Qed.

(** X21.  The dual-mode call of a vocabulary built from a corpus without
    the token "<pad>" is its own inverse on every non-empty list of known
    tokens none of which sits at the unknown-token index unless unknown
    words are allowed: the first call encodes, the second decodes. *)
Theorem word_call_round_trip corpus allow split v (s : list string) :
  WordVocabulary_init findall_words (Some corpus) allow split = Some v →
  "<pad>" ∉ corpus_words findall_words v corpus →
  s ≠ [] →
  Forall (λ w, w ∈ dom (words v)) s →
  allow_any_word v = true ∨ Forall (λ w, _unk_index v ≠ Some (words v !! w)) s →
  ∃ l, WordVocabulary_call findall_words v (SeqList (IStr <$> s)) = Some (SeqList l) ∧
       WordVocabulary_call findall_words v (SeqList l) = Some (SeqList (IStr <$> s)).
Proof.
  intros Hinit Hpad Hne Hknown Hok.
  assert (Hcons : consistent v ∧ initialized v = true).
  { destruct (init_corpus_consistent findall_words corpus allow split v Hinit) as (? & ? & _);
      [|done].
    apply Forall_forall. intros c Hc Hin. apply Hpad, elem_of_corpus_words'. by exists c. }
  destruct Hcons as [Hcons Hi].
  unfold WordVocabulary_init in Hinit.
  apply finalize_Some in Hinit as (_ & _ & _ & _ & _ & unk & Hunk & _).
  destruct (word_round_trip_consistent findall_words v unk s Hcons Hi Hunk Hknown)
    as (ixs & Hen & Hde).
  { destruct Hok as [?|Hok]; [by left|right].
    eapply Forall_impl; [exact Hok|]. intros w Hw. simpl in Hw. congruence. }
  unfold sentence_to_indices, indices_to_sentence in Hen, Hde. rewrite Hi in Hen, Hde.
  cbn [split_sentence] in Hen. injection Hde as Hde.
  exists (IInt <$> ixs).
  assert (Hitems : mapM (process_word_item v) (IStr <$> s) = Some (IInt <$> ixs)).
  { apply mapM_Some_2, Forall2_fmap. apply mapM_Some_1, Forall2_fmap_r in Hen.
    eapply Forall2_impl; [exact Hen|]. intros w i Hw. simpl in Hw.
    unfold process_word_item. by rewrite Hw. }
  destruct s as [|w s]; [done|]. destruct ixs as [|i ixs]; [done|].
  rewrite !fmap_cons in *. unfold WordVocabulary_call. rewrite Hi, Hitems. split; [done|].
  cbn [process_index_item fmap list_fmap]. cbn [fmap list_fmap] in Hde.
  injection Hde as Hw Hs. rewrite Hw. do 3 f_equal. rewrite <- Hs.
  rewrite <- !list_fmap_compose. done.
Qed.
End WordCall.

Lemma encode_total_with_unknowns_witness :
  let v0 := _add_list ["<unk>"; "a"] (_add_word "<pad>" (mkWordVocabulary ∅ ∅ None true false true)) in
  let v := mkWordVocabulary (words v0) (inv_words v0) (Some (Some 1%Z)) true true true in
  (finalize v0 = Some v ∧ allow_any_word v = true) ∧
  ∃ unk, _unk_index v = Some (Some unk) ∧
    sentence_to_indices ascii_findall v (STokens ["a"; "zzz"])
      = Some ((λ w, Some (default unk (words v !! w))) <$> ["a"; "zzz"]).
Proof.
  intros v0 v.
  assert (H1 : finalize v0 = Some v) by (vm_compute; reflexivity).
  assert (H2 : allow_any_word v = true) by reflexivity.
  split; [exact (conj H1 H2)|].
  exact (encode_total_with_unknowns ascii_findall v0 v ["a"; "zzz"] H1 H2).
Defined.

Lemma word_call_round_trip_witness :
  let corpus := [SRaw "b a"; STokens ["c"; "a"]] in
  let vl := _add_list ["a"; "b"; "c"]
              (_add_word "<pad>" (mkWordVocabulary ∅ ∅ None false false true)) in
  let v := mkWordVocabulary (words vl) (inv_words vl) (Some None) false true true in
  let s := ["c"; "a"] in
  (WordVocabulary_init ascii_findall (Some corpus) false true = Some v ∧
   ("<pad>" ∉ corpus_words ascii_findall v corpus) ∧ s ≠ [] ∧
   Forall (λ w, w ∈ dom (words v)) s ∧
   (allow_any_word v = true ∨ Forall (λ w, _unk_index v ≠ Some (words v !! w)) s)) ∧
  ∃ l, WordVocabulary_call ascii_findall v (SeqList (IStr <$> s)) = Some (SeqList l) ∧
       WordVocabulary_call ascii_findall v (SeqList l) = Some (SeqList (IStr <$> s)).
Proof.
  intros corpus vl v s.
  assert (H1 : WordVocabulary_init ascii_findall (Some corpus) false true = Some v)
    by (vm_compute; reflexivity).
  assert (H2 : "<pad>" ∉ corpus_words ascii_findall v corpus) by decide_by_compute.
  assert (H3 : s ≠ []) by done.
  assert (H4 : Forall (λ w, w ∈ dom (words v)) s) by decide_by_compute.
  assert (H5 : allow_any_word v = true ∨ Forall (λ w, _unk_index v ≠ Some (words v !! w)) s)
    by (right; decide_by_compute).
  split; [exact (conj H1 (conj H2 (conj H3 (conj H4 H5))))|].
  exact (word_call_round_trip ascii_findall corpus false true v s H1 H2 H3 H4 H5).
Defined.

Section UnknownWords.
Variable findall_words : string → list string.

(** X22.  In a vocabulary built from a corpus without the token "<pad>"
    and with unknown words allowed, every sentence can be encoded, and
    decoding the result gives the sentence with each unknown word
    replaced by the unknown token: "<UNK>" if the corpus has it,
    otherwise "<unk>". *)
Theorem unknown_words_decode_to_unk corpus split v (s : list string) :
  WordVocabulary_init findall_words (Some corpus) true split = Some v →
  "<pad>" ∉ corpus_words findall_words v corpus →
  let unk_token := if decide ("<UNK>" ∈ dom (words v)) then "<UNK>" else "<unk>" in
  unk_token ∈ dom (words v) ∧
  ∃ indices : list Z,
    sentence_to_indices findall_words v (STokens s) = Some (Some <$> indices) ∧
    indices_to_sentence v indices
      = Some ((λ w, if decide (w ∈ dom (words v)) then w else unk_token) <$> s).
Proof.
  intros Hinit Hpad unk_token.
  assert (Hcons : consistent v ∧ initialized v = true).
  { destruct (init_corpus_consistent findall_words corpus true split v Hinit) as (? & ? & _);
      [|done].
    apply Forall_forall. intros c Hc Hin. apply Hpad, elem_of_corpus_words'. by exists c. }
  destruct Hcons as [Hcons Hi].
  destruct (init_corpus_tables findall_words corpus true split v Hinit) as (_ & _ & _ & Hallow).
  unfold WordVocabulary_init in Hinit.
  pose proof Hinit as (Hw & _ & _ & Ha & _ & unk & Hunk & Hdef & _)%finalize_Some.
  destruct (encode_with_unknowns findall_words _ v s Hinit Hallow) as (u & Hu & Hen).
  rewrite Hunk in Hu. injection Hu as ->. rewrite <- Hw in Hdef.
  assert (Htok : words v !! unk_token = Some u).
  { unfold unk_token. destruct (decide ("<UNK>" ∈ dom (words v))) as [Hin|Hnin].
    - apply elem_of_dom in Hin as [i Hin]. rewrite Hin in Hdef. congruence.
    - apply not_elem_of_dom in Hnin. rewrite Hnin in Hdef. done. }
  split; [apply elem_of_dom; by eexists|].
  exists ((λ w, default u (words v !! w)) <$> s). split.
  - rewrite Hen, <- list_fmap_compose. done.
  - unfold indices_to_sentence. rewrite Hi. f_equal.
    rewrite <- list_fmap_compose. apply list_fmap_ext. intros _ w _. simpl.
    unfold _process_index. destruct (decide (w ∈ dom (words v))) as [Hin|Hnin].
    + apply elem_of_dom in Hin as [i Hin]. rewrite Hin. simpl.
      by destruct (Hcons w i Hin) as [-> _].
    + apply not_elem_of_dom in Hnin. rewrite Hnin. simpl.
      by destruct (Hcons unk_token u Htok) as [-> _].
Qed.
End UnknownWords.

Lemma unknown_words_decode_to_unk_witness :
  let corpus := [STokens ["<unk>"; "a"]] in
  let vl := _add_list ["<unk>"; "a"]
              (_add_word "<pad>" (mkWordVocabulary ∅ ∅ None true false true)) in
  let v := mkWordVocabulary (words vl) (inv_words vl) (Some (Some 1%Z)) true true true in
  (WordVocabulary_init ascii_findall (Some corpus) true true = Some v ∧
   "<pad>" ∉ corpus_words ascii_findall v corpus) ∧
  ∃ indices : list Z,
    sentence_to_indices ascii_findall v (STokens ["a"; "zzz"]) = Some (Some <$> indices) ∧
    indices_to_sentence v indices = Some ["a"; "<unk>"].
Proof.
  intros corpus vl v.
  assert (H1 : WordVocabulary_init ascii_findall (Some corpus) true true = Some v)
    by (vm_compute; reflexivity).
  assert (H2 : "<pad>" ∉ corpus_words ascii_findall v corpus) by decide_by_compute.
  split; [exact (conj H1 H2)|].
  destruct (unknown_words_decode_to_unk ascii_findall corpus true v ["a"; "zzz"] H1 H2)
    as (_ & ixs & Hen & Hde).
  exists ixs. split; [exact Hen|]. rewrite Hde. vm_compute. reflexivity.
Defined.

(** X23.  With an [ignore_char] and [ignore_char_idx = None] the two
    slices of [from_set] are both the whole sorted list: every other
    character is listed before and after the ignore character.  The
    decoding table then has [2 n + 1] entries for an alphabet of [n + 1]
    characters; the ignore character is encoded to [n] and every other
    character to its second position, beyond [n]. *)
Theorem from_set_without_index (v v' : CharVocabulary) (chars : gset pykey) (ig : pykey) :
  from_set v chars = Some v' →
  ignore_char v = Some ig → ignore_char_idx v = None →
  let n := size (chars ∖ {[ig]}) in
  CharVocabulary_len v' = Some (S n) ∧
  size (from_index v') = 2 * n + 1 ∧
  to_index v' !! ig = Some (Z.of_nat n) ∧
  ∀ c, c ∈ chars → c ≠ ig →
    ∃ q, q < n ∧ from_index v' !! Z.of_nat q = Some c ∧
         from_index v' !! Z.of_nat (S n + q) = Some c ∧
         to_index v' !! c = Some (Z.of_nat (S n + q)).
Proof.
  intros Hv Hig Hk n.
  destruct (from_set_list v chars v' Hv) as (l & Hto & Hfrom & Hinit & Hl).
  rewrite Hig, Hk in Hl. destruct Hl as (noig & Hnoig & ->).
  cbn [py_slice_to py_slice_from] in *.
  pose proof (sorted_keys_NoDup _ _ Hnoig) as Hnd.
  pose proof (length_sorted_keys _ _ Hnoig) as Hlen. fold n in Hlen.
  assert (Hnotin : ig ∉ noig).
  { rewrite (elem_of_sorted_keys _ _ ig Hnoig), elem_of_difference, elem_of_singleton. tauto. }
  set (L := noig ++ [ig] ++ noig) in *.
  assert (HlenL : length L = 2 * n + 1).
  { unfold L. rewrite !length_app, Hlen. simpl. lia. }
  split; [|split; [|split]].
  - unfold CharVocabulary_len. rewrite Hinit, Hto. f_equal.
    rewrite <- size_dom, py_dict_dom, enumerate_swap_fst.
    assert (Hset : (list_to_set L : gset pykey) = list_to_set (ig :: noig)).
    { apply set_eq. intros c. unfold L.
      rewrite !elem_of_list_to_set. change ([ig] ++ noig) with (ig :: noig).
      rewrite elem_of_app, !elem_of_cons. tauto. }
    rewrite Hset, size_list_to_set, <- Hlen; [done|]. by apply NoDup_cons.
  - rewrite Hfrom, py_dict_size, length_enumerate by apply enumerate_fst_NoDup. done.
  - rewrite Hto. rewrite <- Hlen. apply to_index_lookup_last.
    + unfold L. by rewrite lookup_app_r, Nat.sub_diag.
    + unfold L. rewrite (app_assoc noig [ig] noig).
      rewrite drop_app_length'; [done|]. rewrite length_app. simpl. lia.
  - intros c Hc Hne.
    assert (Hin : c ∈ noig).
    { rewrite (elem_of_sorted_keys _ _ c Hnoig), elem_of_difference, elem_of_singleton. tauto. }
    apply list_elem_of_lookup in Hin as [q Hq]. exists q.
    pose proof (lookup_lt_Some _ _ _ Hq) as Hlt. rewrite Hlen in Hlt.
    assert (Hsecond : L !! (S n + q) = Some c).
    { unfold L. rewrite (app_assoc noig [ig] noig), lookup_app_r; rewrite length_app, Hlen;
        simpl; [|lia]. by replace (S (n + q) - (n + 1)) with q by lia. }
    split; [done|]. split; [|split].
    + rewrite Hfrom. apply from_index_lookup. exists q. split; [done|].
      unfold L. by rewrite lookup_app_l by lia.
    + rewrite Hfrom. apply from_index_lookup. by exists (S n + q).
    + rewrite Hto. apply to_index_lookup_last; [done|].
      unfold L. rewrite (app_assoc noig [ig] noig).
      replace (S (S n + q)) with (length (noig ++ [ig]) + S q)
        by (rewrite length_app, Hlen; simpl; lia).
      rewrite drop_app_add'; [|done].
      intros Hd. apply list_elem_of_lookup in Hd as [j Hj]. rewrite lookup_drop in Hj.
      pose proof (NoDup_lookup _ _ _ _ Hnd Hq Hj). lia.
Qed.

Lemma from_set_without_index_witness :
  let v := mkCharVocabulary false (Some (KStr "b")) None ∅ ∅ in
  let chars : gset pykey := {[KStr "a"; KStr "b"; KStr "c"]} in
  let l := [KStr "a"; KStr "c"; KStr "b"; KStr "a"; KStr "c"] in
  let v' := mkCharVocabulary true (Some (KStr "b")) None
              (py_dict ((λ p, (p.2, p.1)) <$> enumerate l)) (py_dict (enumerate l)) in
  (from_set v chars = Some v' ∧ ignore_char v = Some (KStr "b") ∧ ignore_char_idx v = None) ∧
  size (from_index v') = 2 * size (chars ∖ {[KStr "b"]}) + 1 ∧
  to_index v' !! KStr "b" = Some (Z.of_nat (size (chars ∖ {[KStr "b"]}))).
Proof.
  intros v chars l v'.
  assert (H1 : from_set v chars = Some v') by (vm_compute; reflexivity).
  assert (H2 : ignore_char v = Some (KStr "b")) by reflexivity.
  assert (H3 : ignore_char_idx v = None) by reflexivity.
  split; [exact (conj H1 (conj H2 H3))|].
  destruct (from_set_without_index v v' chars (KStr "b") H1 H2 H3) as (_ & Hsize & Hig & _).
  exact (conj Hsize Hig).
Defined.
